(** * iikoserver: token lifecycle manager and client facade

    A shallow embedding of [iikoserver/token_manager.py],
    [iikoserver/api_client_manager.py] and [iikoserver/config_reader.py].

    - [ApiCredentials]: the credential key.
    - [Nomenclature]: the GET/POST selection of the list reads;
      [NomenclatureHelpers]: the one-argument helpers built on them.
    - [AssemblyChart]: the chart built by [create_simple_assembly_chart].
    - [ConfigReader]: the cached reading of the configuration file.
    - [Registry]: the two class-level registries ([_instances]) over a heap
      of [TokenManager], facade and [ApiClient] objects, with [get_instance]
      and [close_all].
    - [Async]: one Authority and its facade under asyncio's cooperative
      scheduling.  A coroutine is a frame that is resumed by the event loop;
      a schedule is a list of loop actions (resume a task, deliver a network
      reply); every interleaving of the tasks is a schedule. *)

From Stdlib Require Import ZArith Lia Ascii String.
From stdpp Require Import base list strings.

Open Scope Z_scope.
Open Scope string_scope.
Open Scope list_scope.

(** ** Python values and exceptions *)

(** Exception objects by class.  [status] is the optional [status] attribute
    probed with [getattr(error, "status", None)]; [str] is [str(exc)]. *)
Inductive exn :=
  | UnauthorizedException (status : option Z) (str : string)
  | Exception (cls : string) (status : option Z) (str : string)
  | IikoServerAuthException (message : string) (original_error : exn).

Inductive pyval :=
  | VNone
  | VBool (b : bool)
  | VStr (s : string).

(** The outcome of awaiting a coroutine. *)
Inductive outcome :=
  | Returned (v : pyval)
  | Raised (e : exn).

Definition exn_str (e : exn) : string :=
  match e with
  | UnauthorizedException _ s => s
  | Exception _ _ s => s
  | IikoServerAuthException m _ => m
  end.

(** [getattr(error, "status", None)] *)
Definition error_status (e : exn) : option Z :=
  match e with
  | UnauthorizedException st _ => st
  | Exception _ st _ => st
  | IikoServerAuthException _ _ => None
  end.

(** [isinstance(error, UnauthorizedException)] *)
Definition is_unauthorized (e : exn) : bool :=
  match e with
  | UnauthorizedException _ _ => true
  | _ => false
  end.

Definition status_is_401 (st : option Z) : bool :=
  match st with
  | Some n => (n =? 401)%Z
  | None => false
  end.

(** [is_401 = isinstance(error, UnauthorizedException) or error_status == 401] *)
Definition is_401 (e : exn) : bool :=
  is_unauthorized e || status_is_401 (error_status e).

(** Truthiness of [str | None] as tested by [x if x else None]. *)
Definition str_truthy (s : string) : bool :=
  match s with
  | EmptyString => false
  | String _ _ => true
  end.

(** ** ApiCredentials *)

Module ApiCredentials.

Record t := mk { host : string; login : string; password : string }.

(** [f"{self.host}:{self.login}"] *)
Definition key_id (c : t) : string := host c +:+ ":" +:+ login c.

End ApiCredentials.

(** The character [':'] occurs in the string. *)
Fixpoint has_colon (s : string) : bool :=
  match s with
  | EmptyString => false
  | String c r => Ascii.eqb c ":"%char || has_colon r
  end.

(** ** List reads of the nomenclature API: GET or POST *)

Module Nomenclature.

Inductive http_method := GET | POST.

Section ProductType.

(** [iikoserver_client.models.product_type.ProductType] is an enum of the
    generated client; its members and their truthiness are parameters. *)
Variable ProductType : Type.
Variable product_type_truthy : ProductType -> bool.

(** Arguments of [v2_entities_products_list_get] / [..._post]. *)
Record products_request := mk_products {
  p_method : http_method;
  p_include_deleted : option bool;
  p_ids : option (list string);
  p_nums : option (list string);
  p_types : option (list ProductType);
  p_category_ids : option (list string);
  p_parent_ids : option (list string) }.

(** Arguments of [v2_entities_products_group_list_get] / [..._post]. *)
Record groups_request := mk_groups {
  g_method : http_method;
  g_include_deleted : option bool;
  g_ids : option (list string);
  g_parent_ids : option (list string);
  g_revision_from : option Z;
  g_nums : option (list string);
  g_codes : option (list string) }.

(** Arguments of [v2_entities_products_category_list_get] / [..._post]. *)
Record categories_request := mk_categories {
  c_method : http_method;
  c_include_deleted : option bool;
  c_ids : option (list string);
  c_revision_from : option Z }.

(** [lst is not None and len(lst) > 1] *)
Definition more_than_one {A} (lst : option (list A)) : bool :=
  match lst with
  | Some l => (1 <? length l)%nat
  | None => false
  end.

(** [lst[0] if lst and len(lst) == 1 else None] *)
Definition only_element {A} (lst : option (list A)) : option A :=
  match lst with
  | Some l =>
      if negb (length l =? 0)%nat && (length l =? 1)%nat then head l else None
  | None => None
  end.

(** [lst is not None and len(lst) == 0] *)
Definition is_empty_list {A} (lst : option (list A)) : bool :=
  match lst with
  | Some l => (length l =? 0)%nat
  | None => false
  end.

(** [[x] if x else None] *)
Definition singleton_if {A} (truthy : A -> bool) (x : option A) : option (list A) :=
  match x with
  | Some v => if truthy v then Some [v] else None
  | None => None
  end.

Definition _get_products_via_get (include_deleted : option bool)
    (ids nums : option (list string)) (types : option (list ProductType))
    (category_ids parent_ids : option (list string)) : products_request :=
  mk_products GET include_deleted ids nums types category_ids parent_ids.

Definition _get_products_via_post (include_deleted : option bool)
    (id num : option string) (product_type : option ProductType)
    (category_id parent_id : option string) (parent_ids_empty : bool)
    : products_request :=
  mk_products POST include_deleted
    (singleton_if str_truthy id)
    (singleton_if str_truthy num)
    (singleton_if product_type_truthy product_type)
    (singleton_if str_truthy category_id)
    (if parent_ids_empty then Some [] else singleton_if str_truthy parent_id).

Definition get_products_list (include_deleted : option bool)
    (ids nums : option (list string)) (types : option (list ProductType))
    (category_ids parent_ids : option (list string)) : products_request :=
  let use_get :=
    existsb more_than_one [ids; nums; category_ids; parent_ids]
    || more_than_one types in
  if use_get then
    _get_products_via_get include_deleted ids nums types category_ids parent_ids
  else
    _get_products_via_post include_deleted
      (only_element ids) (only_element nums) (only_element types)
      (only_element category_ids) (only_element parent_ids)
      (is_empty_list parent_ids).

Definition _get_product_groups_via_get (include_deleted : option bool)
    (ids parent_ids : option (list string)) (revision_from : option Z)
    (nums codes : option (list string)) : groups_request :=
  mk_groups GET include_deleted ids parent_ids revision_from nums codes.

Definition _get_product_groups_via_post (include_deleted : option bool)
    (id parent_id : option string) (parent_ids_empty : bool)
    (revision_from : option Z) (num code : option string) : groups_request :=
  mk_groups POST include_deleted
    (singleton_if str_truthy id)
    (if parent_ids_empty then Some [] else singleton_if str_truthy parent_id)
    revision_from
    (singleton_if str_truthy num)
    (singleton_if str_truthy code).

Definition get_product_groups_list (include_deleted : option bool)
    (ids parent_ids : option (list string)) (revision_from : option Z)
    (nums codes : option (list string)) : groups_request :=
  let use_get := existsb more_than_one [ids; parent_ids; nums; codes] in
  if use_get then
    _get_product_groups_via_get include_deleted ids parent_ids revision_from
      nums codes
  else
    _get_product_groups_via_post include_deleted
      (only_element ids) (only_element parent_ids) (is_empty_list parent_ids)
      revision_from (only_element nums) (only_element codes).

Definition _get_user_categories_via_get (include_deleted : option bool)
    (ids : option (list string)) (revision_from : option Z)
    : categories_request :=
  mk_categories GET include_deleted ids revision_from.

Definition _get_user_categories_via_post (include_deleted : option bool)
    (id : option string) (revision_from : option Z) : categories_request :=
  mk_categories POST include_deleted (singleton_if str_truthy id) revision_from.

Definition get_user_categories_list (include_deleted : option bool)
    (ids : option (list string)) (revision_from : option Z)
    : categories_request :=
  let use_get := more_than_one ids in
  if use_get then _get_user_categories_via_get include_deleted ids revision_from
  else _get_user_categories_via_post include_deleted (only_element ids)
         revision_from.

End ProductType.

End Nomenclature.

(** ** asyncio primitives

    [asyncio.Lock] and [asyncio.Event] as CPython implements them: a flag
    and a FIFO of waiters.  A waiter is the future of the task suspended on
    it and is identified by the index of that task. *)

Module Lock.
Record t := mk { _locked : bool; _waiters : list nat }.
(** [asyncio.Lock()] *)
Definition new : t := mk false [].
End Lock.

Module Event.
Record t := mk { _value : bool; _waiters : list nat }.
(** [asyncio.Event()] *)
Definition new : t := mk false [].
(** [Event.set()] on an event nobody waits on. *)
Definition set_flag (e : t) : t := mk true (_waiters e).
Definition clear (e : t) : t := mk false (_waiters e).
Definition is_set (e : t) : bool := _value e.
End Event.

(** ** The TokenManager object *)

Module TokenManager.

Record t := mk {
  _api_client : nat;          (* reference to the ApiClient object *)
  _login : string;
  _password_hash : string;
  _key_id : string;
  _token : option string;
  _token_version : Z;
  _lock : Lock.t;
  _refresh_event : Event.t }.

Definition with_token (tok : option string) (m : t) : t :=
  mk (_api_client m) (_login m) (_password_hash m) (_key_id m) tok
     (_token_version m) (_lock m) (_refresh_event m).

Definition with_version (v : Z) (m : t) : t :=
  mk (_api_client m) (_login m) (_password_hash m) (_key_id m) (_token m)
     v (_lock m) (_refresh_event m).

Definition with_lock (l : Lock.t) (m : t) : t :=
  mk (_api_client m) (_login m) (_password_hash m) (_key_id m) (_token m)
     (_token_version m) l (_refresh_event m).

Definition with_event (e : Event.t) (m : t) : t :=
  mk (_api_client m) (_login m) (_password_hash m) (_key_id m) (_token m)
     (_token_version m) (_lock m) e.

End TokenManager.

(** ** The registries *)

(** A Python [dict] with [str] keys: insertion-ordered, keys unique. *)
Module dict.

Definition t (V : Type) := list (string * V).

Definition get {V} (k : string) (d : t V) : option V :=
  snd <$> find (fun kv => String.eqb (fst kv) k) d.

(** [k in d] *)
Definition contains {V} (k : string) (d : t V) : bool :=
  existsb (fun kv => String.eqb (fst kv) k) d.

(** [d[k] = v] *)
Definition set {V} (k : string) (v : V) (d : t V) : t V :=
  if contains k d
  then map (fun kv => if String.eqb (fst kv) k then (k, v) else kv) d
  else d ++ [(k, v)].

Definition values {V} (d : t V) : list V := map snd d.

End dict.

Module Registry.

(** [ApiClient] with its [Configuration]; [api_key] is the dict
    [configuration.api_key]. *)
Record ApiClient := mk_client {
  configuration_host : string;
  configuration_api_key : dict.t string;
  closed : bool }.

(** [IikoServerApiClientManager] instances. *)
Record Facade := mk_facade {
  _credentials : ApiCredentials.t;
  _api_client : nat;
  _token_manager : option nat }.

Inductive net_event :=
  | LogoutGet (key : string)      (* [SessionManagementApi.logout_get(key=...)] *)
  | Close (client : nat).         (* [ApiClient.close()] *)

(** The process: three heaps of objects (a reference is an index), the class
    attributes of both classes, and the calls that reached the network. *)
Record world := mk_world {
  api_clients : list ApiClient;
  token_managers : list TokenManager.t;
  facades : list Facade;
  tm_instances : dict.t nat;              (* [TokenManager._instances] *)
  tm_global_lock : option Lock.t;         (* [TokenManager._global_lock] *)
  facade_instances : dict.t nat;          (* [IikoServerApiClientManager._instances] *)
  facade_lock : option Lock.t;            (* [IikoServerApiClientManager._lock] *)
  net : list net_event }.

Section Remote.

(** [hashlib.sha1(password.encode("utf-8")).hexdigest()] *)
Variable sha1_hexdigest : string -> string.

(** What the remote end answers: the [n]-th call that reaches the network
    raises the given exception, or succeeds. *)
Variable remote_raises : nat -> option exn.

Definition hash_password (password : string) : string := sha1_hexdigest password.

(** [TokenManager.__init__] *)
Definition TokenManager__init__ (api_client : nat) (login password key_id : string)
    : TokenManager.t :=
  TokenManager.mk api_client login (hash_password password) key_id None 0
    Lock.new (Event.set_flag Event.new).

(** [TokenManager.get_instance]: the global lock is never held across a
    suspension, so [async with cls._global_lock] acquires at once. *)
Definition TokenManager_get_instance (api_client : nat)
    (login password key_id : string) (w : world) : world * option nat :=
  let glock := match tm_global_lock w with None => Lock.new | Some l => l end in
  let insts :=
    if negb (dict.contains key_id (tm_instances w))
    then dict.set key_id (length (token_managers w)) (tm_instances w)
    else tm_instances w in
  let heap :=
    if negb (dict.contains key_id (tm_instances w))
    then token_managers w ++ [TokenManager__init__ api_client login password key_id]
    else token_managers w in
  (mk_world (api_clients w) heap (facades w) insts (Some glock)
     (facade_instances w) (facade_lock w) (net w),
   dict.get key_id insts).

(** [IikoServerApiClientManager.__init__] allocates its [ApiClient]. *)
Definition Facade__init__ (credentials : ApiCredentials.t) (w : world)
    : world * Facade :=
  (mk_world
     (api_clients w ++ [mk_client (ApiCredentials.host credentials) [] false])
     (token_managers w) (facades w) (tm_instances w) (tm_global_lock w)
     (facade_instances w) (facade_lock w) (net w),
   mk_facade credentials (length (api_clients w)) None).

(** [IikoServerApiClientManager.get_instance] *)
Definition Facade_get_instance (credentials : ApiCredentials.t) (w : world)
    : world * option nat :=
  let lock := match facade_lock w with None => Lock.new | Some l => l end in
  let key := ApiCredentials.key_id credentials in
  if negb (dict.contains key (facade_instances w)) then
    let '(w1, f) := Facade__init__ credentials w in
    let insts := dict.set key (length (facades w1)) (facade_instances w1) in
    (mk_world (api_clients w1) (token_managers w1) (facades w1 ++ [f])
       (tm_instances w1) (tm_global_lock w1) insts (Some lock) (net w1),
     dict.get key insts)
  else
    (mk_world (api_clients w) (token_managers w) (facades w)
       (tm_instances w) (tm_global_lock w) (facade_instances w) (Some lock)
       (net w),
     dict.get key (facade_instances w)).

(** [self._api_client.configuration.api_key = {}] *)
Definition clear_api_key (c : ApiClient) : ApiClient :=
  mk_client (configuration_host c) [] (closed c).

(** [TokenManager.logout]: a failure of [logout_get] is logged and dropped;
    the [finally] clears the token and the client's key. *)
Definition TokenManager_logout (m : nat) (w : world) : world :=
  match token_managers w !! m with
  | None => w
  | Some tm =>
      match TokenManager._token tm with
      | None => w
      | Some token =>
          mk_world
            (alter clear_api_key (TokenManager._api_client tm) (api_clients w))
            (<[m := TokenManager.with_token None tm]> (token_managers w))
            (facades w) (tm_instances w) (tm_global_lock w)
            (facade_instances w) (facade_lock w)
            (net w ++ [LogoutGet token])
      end
  end.

(** [TokenManager.close_all] *)
Definition TokenManager_close_all (w : world) : world :=
  let w1 := foldl (fun w m => TokenManager_logout m w) w
              (dict.values (tm_instances w)) in
  mk_world (api_clients w1) (token_managers w1) (facades w1) [] None
    (facade_instances w1) (facade_lock w1) (net w1).

Definition close_client (c : ApiClient) : ApiClient :=
  mk_client (configuration_host c) (configuration_api_key c) true.

(** [await manager._api_client.close()]; the call may raise. *)
Definition ApiClient_close (f : nat) (w : world) : world * option exn :=
  match facades w !! f with
  | None => (w, None)
  | Some fac =>
      (mk_world (alter close_client (_api_client fac) (api_clients w))
         (token_managers w) (facades w) (tm_instances w) (tm_global_lock w)
         (facade_instances w) (facade_lock w)
         (net w ++ [Close (_api_client fac)]),
       remote_raises (length (net w)))
  end.

(** The loop [for manager in cls._instances.values(): await ...close()];
    an exception leaves the loop. *)
Fixpoint close_each (fs : list nat) (w : world) : world * option exn :=
  match fs with
  | [] => (w, None)
  | f :: rest =>
      match ApiClient_close f w with
      | (w1, Some e) => (w1, Some e)
      | (w1, None) => close_each rest w1
      end
  end.

(** [IikoServerApiClientManager.close_all] *)
Definition Facade_close_all (w : world) : world * option exn :=
  let w1 := TokenManager_close_all w in
  match close_each (dict.values (facade_instances w1)) w1 with
  | (w2, Some e) => (w2, Some e)
  | (w2, None) =>
      (mk_world (api_clients w2) (token_managers w2) (facades w2)
         (tm_instances w2) (tm_global_lock w2) [] None (net w2),
       None)
  end.

End Remote.

(** The state of a process at start. *)
Definition empty_world : world := mk_world [] [] [] [] None [] None [].

(** The token stored in the TokenManager object at reference [m]. *)
Definition token_at (w : world) (m : nat) : option (option string) :=
  TokenManager._token <$> token_managers w !! m.

End Registry.

(** ** One Authority under cooperative scheduling *)

Module Async.

(** Where a coroutine returns to: the event loop (a task's own coroutine), or
    one of the two [await]s of [execute_with_retry]. *)
Inductive cont :=
  | KTop
  | KEnsureTokenManager   (* [token_manager = await self._ensure_token_manager()] *)
  | KRefreshRetry.        (* [await token_manager.refresh_token_if_401(exc)] *)

(** The suspension points of the coroutines, with the locals that are live
    there.  [fut] is the future the task awaits: a flag for a lock or event
    waiter ([set_result(True)] called or not), and [None] or the reply for a
    network call. *)
Inductive frame :=
  | ensure_token_entry
  | ensure_token_acquire (fut : bool)
  | ensure_token_fetch (fut : option (exn + string))
  | refresh_entry (error : exn)
  | refresh_wait (version_before : Z) (fut : bool)
  | refresh_acquire (version_before : Z) (fut : bool)
  | refresh_fetch (version_before : Z) (fut : option (exn + string))
  | logout_entry
  | logout_await (fut : option (option exn))
  | execute_entry
  | execute_api_call (retried : bool) (fut : option outcome)
  | finished (o : outcome).

Record task := mk_task { code : frame; caller : cont }.

(** Calls that reach the network, by the task that makes them. *)
Inductive net_event :=
  | AuthGet (t : nat) (login var_pass : string)
  | LogoutGet (t : nat) (key : string)
  | ApiCall (t : nat).

Record state := mk_state {
  tm : TokenManager.t;               (* the Authority *)
  api_key : dict.t string;           (* [api_client.configuration.api_key] *)
  facade_token_manager : bool;       (* [facade._token_manager is not None] *)
  tasks : list task;
  net : list net_event }.

Definition set_tm (m : TokenManager.t) (s : state) : state :=
  mk_state m (api_key s) (facade_token_manager s) (tasks s) (net s).

Definition set_api_key (k : dict.t string) (s : state) : state :=
  mk_state (tm s) k (facade_token_manager s) (tasks s) (net s).

Definition set_tasks (ts : list task) (s : state) : state :=
  mk_state (tm s) (api_key s) (facade_token_manager s) ts (net s).

Definition set_task (t : nat) (c : frame) (k : cont) (s : state) : state :=
  set_tasks (<[t := mk_task c k]> (tasks s)) s.

Definition log (ev : net_event) (s : state) : state :=
  mk_state (tm s) (api_key s) (facade_token_manager s) (tasks s) (net s ++ [ev]).

Definition lock (s : state) : Lock.t := TokenManager._lock (tm s).
Definition event (s : state) : Event.t := TokenManager._refresh_event (tm s).
Definition token (s : state) : option string := TokenManager._token (tm s).
Definition version (s : state) : Z := TokenManager._token_version (tm s).

Definition set_lock (l : Lock.t) (s : state) : state :=
  set_tm (TokenManager.with_lock l (tm s)) s.

Definition set_event (e : Event.t) (s : state) : state :=
  set_tm (TokenManager.with_event e (tm s)) s.

(** [fut.set_result(True)] on the future of a lock waiter. *)
Definition resolve_lock_fut (tk : task) : task :=
  match code tk with
  | ensure_token_acquire _ => mk_task (ensure_token_acquire true) (caller tk)
  | refresh_acquire vb _ => mk_task (refresh_acquire vb true) (caller tk)
  | _ => tk
  end.

(** [fut.set_result(True)] on the future of an event waiter. *)
Definition resolve_event_fut (tk : task) : task :=
  match code tk with
  | refresh_wait vb _ => mk_task (refresh_wait vb true) (caller tk)
  | _ => tk
  end.

(** [list.remove(x)]: the first occurrence. *)
Fixpoint remove_first (x : nat) (l : list nat) : list nat :=
  match l with
  | [] => []
  | y :: r => if (x =? y)%nat then r else y :: remove_first x r
  end.

(** *** asyncio.Lock *)

(** The test of [Lock.acquire]: not locked and nobody queued. *)
Definition lock_free (l : Lock.t) : bool :=
  negb (Lock._locked l) && (length (Lock._waiters l) =? 0)%nat.

(** [self._locked = True] on the fast path of [acquire]. *)
Definition lock_take (s : state) : state :=
  set_lock (Lock.mk true (Lock._waiters (lock s))) s.

(** [self._waiters.append(fut)] before [await fut]. *)
Definition lock_enqueue (t : nat) (s : state) : state :=
  set_lock (Lock.mk (Lock._locked (lock s)) (Lock._waiters (lock s) ++ [t])) s.

(** After [await fut]: [self._waiters.remove(fut); self._locked = True]. *)
Definition lock_resume (t : nat) (s : state) : state :=
  set_lock (Lock.mk true (remove_first t (Lock._waiters (lock s)))) s.

(** [Lock.release]: [self._locked = False; self._wake_up_first()].  It is
    only called by the task inside the [async with]. *)
Definition lock_release (s : state) : state :=
  let s1 := set_lock (Lock.mk false (Lock._waiters (lock s))) s in
  match Lock._waiters (lock s) with
  | [] => s1
  | w :: _ => set_tasks (alter resolve_lock_fut w (tasks s1)) s1
  end.

(** *** asyncio.Event *)

(** [Event.set] *)
Definition event_set (s : state) : state :=
  if Event._value (event s) then s
  else
    let s1 := set_event (Event.mk true (Event._waiters (event s))) s in
    set_tasks
      (foldr (fun w ts => alter resolve_event_fut w ts) (tasks s1)
         (Event._waiters (event s)))
      s1.

(** [Event.clear] *)
Definition event_clear (s : state) : state :=
  set_event (Event.clear (event s)) s.

(** [self._waiters.append(fut)] in [Event.wait]. *)
Definition event_enqueue (t : nat) (s : state) : state :=
  set_event (Event.mk (Event._value (event s)) (Event._waiters (event s) ++ [t])) s.

(** The [finally] of [Event.wait]: [self._waiters.remove(fut)]. *)
Definition event_resume (t : nat) (s : state) : state :=
  set_event
    (Event.mk (Event._value (event s)) (remove_first t (Event._waiters (event s)))) s.

(** *** Returning to the caller *)

(** [await api_call()]: the request leaves and the task is suspended. *)
Definition invoke_api_call (t : nat) (retried : bool) (s : state) : state :=
  set_task t (execute_api_call retried None) KTop (log (ApiCall t) s).

(** A coroutine of task [t] ends with outcome [o]; the code after the
    [await] in its caller runs in the same turn of the loop. *)
Definition return_ (t : nat) (k : cont) (o : outcome) (s : state) : state :=
  match k, o with
  | KTop, _ => set_task t (finished o) KTop s
  | _, Raised e => set_task t (finished (Raised e)) KTop s
  | KEnsureTokenManager, Returned _ => invoke_api_call t false s
  | KRefreshRetry, Returned _ => invoke_api_call t true s
  end.

(** *** TokenManager *)

(** [_fetch_token] up to [await self._session_api.auth_get(...)]. *)
Definition fetch_token_start (t : nat) (s : state) : state :=
  log (AuthGet t (TokenManager._login (tm s)) (TokenManager._password_hash (tm s)))
      (set_api_key [] s).

(** The exception [_fetch_token] raises for what [auth_get] raised. *)
Definition fetch_token_error (exc : exn) : exn :=
  if is_unauthorized exc then
    IikoServerAuthException
      "Некорректные учетные данные: получен 401 на запрос авторизации" exc
  else
    IikoServerAuthException ("Ошибка при получении токена: " +:+ exn_str exc) exc.

(** [_set_token] *)
Definition _set_token (token : string) (s : state) : state :=
  set_api_key [("iikoCookieAuth", token)]
    (set_tm (TokenManager.with_token (Some token) (tm s)) s).

(** [self._token_version += 1] *)
Definition bump_version (s : state) : state :=
  set_tm (TokenManager.with_version (version s + 1) (tm s)) s.

(** [self._token = None; self._api_client.configuration.api_key = {}] *)
Definition clear_token (s : state) : state :=
  set_api_key [] (set_tm (TokenManager.with_token None (tm s)) s).

(** [ensure_token], inside [async with self._lock]. *)
Definition ensure_token_locked (t : nat) (k : cont) (s : state) : state :=
  match token s with
  | Some _ => return_ t k (Returned VNone) (lock_release s)
  | None =>
      set_task t (ensure_token_fetch None) k
        (fetch_token_start t (event_clear s))
  end.

(** [ensure_token] from its entry. *)
Definition ensure_token (t : nat) (k : cont) (s : state) : state :=
  match token s with
  | Some _ => return_ t k (Returned VNone) s
  | None =>
      if lock_free (lock s) then ensure_token_locked t k (lock_take s)
      else set_task t (ensure_token_acquire false) k (lock_enqueue t s)
  end.

(** [ensure_token] after [await self._fetch_token()]. *)
Definition ensure_token_fetched (t : nat) (k : cont) (r : exn + string)
    (s : state) : state :=
  match r with
  | inr token =>
      return_ t k (Returned VNone)
        (lock_release (event_set (bump_version (_set_token token s))))
  | inl exc =>
      return_ t k (Raised (fetch_token_error exc)) (lock_release (event_set s))
  end.

(** [refresh_token_if_401], inside [async with self._lock]. *)
Definition refresh_locked (t : nat) (k : cont) (version_before : Z)
    (s : state) : state :=
  if negb (version s =? version_before)%Z then
    return_ t k (Returned (VBool true)) (lock_release s)
  else
    set_task t (refresh_fetch version_before None) k
      (fetch_token_start t (event_clear s)).

(** [refresh_token_if_401] from its entry. *)
Definition refresh_token_if_401 (t : nat) (k : cont) (error : exn)
    (s : state) : state :=
  if negb (is_401 error) then return_ t k (Returned (VBool false)) s
  else
    let version_before := version s in
    if negb (Event.is_set (event s)) then
      set_task t (refresh_wait version_before false) k (event_enqueue t s)
    else if lock_free (lock s) then
      refresh_locked t k version_before (lock_take s)
    else
      set_task t (refresh_acquire version_before false) k (lock_enqueue t s).

(** [refresh_token_if_401] after [await self._fetch_token()]. *)
Definition refresh_fetched (t : nat) (k : cont) (r : exn + string)
    (s : state) : state :=
  match r with
  | inr token =>
      return_ t k (Returned (VBool true))
        (lock_release (event_set (bump_version (_set_token token s))))
  | inl exc =>
      return_ t k (Raised (fetch_token_error exc))
        (lock_release (event_set (clear_token s)))
  end.

(** [logout] from its entry. *)
Definition logout (t : nat) (k : cont) (s : state) : state :=
  match token s with
  | None => return_ t k (Returned VNone) s
  | Some key => set_task t (logout_await None) k (log (LogoutGet t key) s)
  end.

(** [logout] after [await self._session_api.logout_get(...)]: an exception
    is logged and dropped, the [finally] clears the token. *)
Definition logout_done (t : nat) (k : cont) (r : option exn) (s : state) : state :=
  return_ t k (Returned VNone) (clear_token s).

(** *** IikoServerApiClientManager *)

(** [_ensure_token_manager]; [TokenManager.get_instance] does not suspend. *)
Definition _ensure_token_manager (t : nat) (s : state) : state :=
  if facade_token_manager s then return_ t KEnsureTokenManager (Returned VNone) s
  else
    ensure_token t KEnsureTokenManager
      (mk_state (tm s) (api_key s) true (tasks s) (net s)).

(** [execute_with_retry] after an [await api_call()]. *)
Definition execute_with_retry_resumed (t : nat) (retried : bool) (o : outcome)
    (s : state) : state :=
  match o with
  | Returned v => set_task t (finished (Returned v)) KTop s
  | Raised exc =>
      if retried then set_task t (finished (Raised exc)) KTop s
      else if is_unauthorized exc then refresh_token_if_401 t KRefreshRetry exc s
      else if status_is_401 (error_status exc) then
        refresh_token_if_401 t KRefreshRetry exc s
      else set_task t (finished (Raised exc)) KTop s
  end.

(** *** The event loop *)

Inductive action :=
  | Run (t : nat)                             (* resume task [t] *)
  | AuthReply (t : nat) (r : exn + string)    (* [auth_get] raised or returned *)
  | LogoutReply (t : nat) (r : option exn)    (* [logout_get] raised or returned *)
  | ApiReply (t : nat) (o : outcome).         (* [api_call()] raised or returned *)

(** Task [t] runs until it suspends or ends. *)
Definition resume (t : nat) (s : state) : option state :=
  match tasks s !! t with
  | None => None
  | Some tk =>
      let k := caller tk in
      match code tk with
      | ensure_token_entry => Some (ensure_token t k s)
      | ensure_token_acquire true => Some (ensure_token_locked t k (lock_resume t s))
      | ensure_token_fetch (Some r) => Some (ensure_token_fetched t k r s)
      | refresh_entry error => Some (refresh_token_if_401 t k error s)
      | refresh_wait _ true =>
          Some (return_ t k (Returned (VBool true)) (event_resume t s))
      | refresh_acquire vb true => Some (refresh_locked t k vb (lock_resume t s))
      | refresh_fetch _ (Some r) => Some (refresh_fetched t k r s)
      | logout_entry => Some (logout t k s)
      | logout_await (Some r) => Some (logout_done t k r s)
      | execute_entry => Some (_ensure_token_manager t s)
      | execute_api_call retried (Some o) =>
          Some (execute_with_retry_resumed t retried o s)
      | _ => None
      end
  end.

(** A reply resolves the pending future of the call task [t] awaits. *)
Definition step (a : action) (s : state) : option state :=
  match a with
  | Run t => resume t s
  | AuthReply t r =>
      match tasks s !! t with
      | Some (mk_task (ensure_token_fetch None) k) =>
          Some (set_task t (ensure_token_fetch (Some r)) k s)
      | Some (mk_task (refresh_fetch vb None) k) =>
          Some (set_task t (refresh_fetch vb (Some r)) k s)
      | _ => None
      end
  | LogoutReply t r =>
      match tasks s !! t with
      | Some (mk_task (logout_await None) k) =>
          Some (set_task t (logout_await (Some r)) k s)
      | _ => None
      end
  | ApiReply t o =>
      match tasks s !! t with
      | Some (mk_task (execute_api_call b None) k) =>
          Some (set_task t (execute_api_call b (Some o)) k s)
      | _ => None
      end
  end.

(** A schedule is run from left to right; [None] when an action is not
    enabled. *)
Fixpoint exec (sch : list action) (s : state) : option state :=
  match sch with
  | [] => Some s
  | a :: rest =>
      match step a s with
      | Some s1 => exec rest s1
      | None => None
      end
  end.

(** *** Observations *)

Definition is_auth_get (ev : net_event) : bool :=
  match ev with AuthGet _ _ _ => true | _ => false end.

Definition is_api_call_of (t : nat) (ev : net_event) : bool :=
  match ev with ApiCall u => (t =? u)%nat | _ => false end.

(** Number of [auth_get] calls made so far. *)
Definition auth_calls (s : state) : nat := length (filter is_auth_get (net s)).

(** Number of invocations of the operation by task [t] so far. *)
Definition api_calls (t : nat) (s : state) : nat :=
  length (filter (is_api_call_of t) (net s)).

(** An [auth_get] request is on the wire for this task. *)
Definition fetch_pending (tk : task) : bool :=
  match code tk with
  | ensure_token_fetch None | refresh_fetch _ None => true
  | _ => false
  end.

(** Number of authentication requests in flight. *)
Definition in_flight (s : state) : nat := length (filter fetch_pending (tasks s)).

Definition is_finished (tk : task) : bool :=
  match code tk with finished _ => true | _ => false end.

Definition all_finished (s : state) : bool := forallb is_finished (tasks s).

(** The replies to the operation of task [t] in a schedule, in order. *)
Fixpoint api_replies (t : nat) (sch : list action) : list outcome :=
  match sch with
  | [] => []
  | ApiReply u o :: rest =>
      if (t =? u)%nat then o :: api_replies t rest else api_replies t rest
  | _ :: rest => api_replies t rest
  end.

(** The reply is not a failure of [auth_get]. *)
Definition reply_ok (a : action) : bool :=
  match a with AuthReply _ (inl _) => false | _ => true end.

(** No [auth_get] of the schedule raises. *)
Definition auth_succeeds (sch : list action) : bool := forallb reply_ok sch.

(** If the action starts a [refresh_token_if_401] task, the version that
    task reads on entry is [v]. *)
Definition enters_at (v : Z) (a : action) (s : state) : bool :=
  match a with
  | Run t =>
      match tasks s !! t with
      | Some (mk_task (refresh_entry _) _) => (version s =? v)%Z
      | _ => true
      end
  | _ => true
  end.

(** Every [refresh_token_if_401] task started during the schedule reads the
    version [v] on entry. *)
Fixpoint entries_at (v : Z) (sch : list action) (s : state) : bool :=
  match sch with
  | [] => true
  | a :: rest =>
      enters_at v a s
      && match step a s with
         | Some s1 => entries_at v rest s1
         | None => true
         end
  end.

(** A TokenManager as [__init__] leaves it, at a given token and version. *)
Definition idle_tm (login password_hash key_id : string)
    (tok : option string) (v : Z) : TokenManager.t :=
  TokenManager.mk 0%nat login password_hash key_id tok v
    Lock.new (Event.set_flag Event.new).

(** Tasks created but not yet run. *)
Definition spawn (cs : list frame) : list task :=
  map (fun c => mk_task c KTop) cs.

Arguments return_ : simpl never.
Arguments lock_release : simpl never.
Arguments event_set : simpl never.

End Async.

(** ** Vocabulary of the statements *)

(** What a POST request carries for a filter argument of at most one
    element: an absent or empty list is sent as [None], a single truthy
    value as the one-element list.  Nothing is said of a falsy value. *)
Definition post_filter {A} (truthy : A -> bool) (arg sent : option (list A)) : Prop :=
  match arg with
  | None | Some [] => sent = None
  | Some [x] => truthy x = true -> sent = Some [x]
  | Some (_ :: _ :: _) => True
  end.

(** The same for [parent_ids], whose empty list is sent as an empty list. *)
Definition post_parent_filter (arg sent : option (list string)) : Prop :=
  match arg with
  | None => sent = None
  | Some [] => sent = Some []
  | Some [x] => str_truthy x = true -> sent = Some [x]
  | Some (_ :: _ :: _) => True
  end.

Definition is_logout_event (ev : Registry.net_event) : Prop :=
  match ev with Registry.LogoutGet _ => True | _ => False end.

Definition is_close_event (ev : Registry.net_event) : Prop :=
  match ev with Registry.Close _ => True | _ => False end.

(** ** Vocabulary of the statements about the event loop *)

Section AsyncVocabulary.

Import Async.

(** The task an action resumes or replies to. *)
Definition actor (a : action) : nat :=
  match a with Run u | AuthReply u _ | LogoutReply u _ | ApiReply u _ => u end.

(** Where [return_] leaves the task: its frame and the call it makes. *)
Definition return_code (k : cont) (o : outcome) : frame :=
  match k, o with
  | KTop, _ => finished o
  | _, Raised e => finished (Raised e)
  | KEnsureTokenManager, Returned _ => execute_api_call false None
  | KRefreshRetry, Returned _ => execute_api_call true None
  end.

Definition return_calls (t : nat) (k : cont) (o : outcome) : list net_event :=
  match k, o with
  | KTop, _ => []
  | _, Raised e => []
  | _, Returned _ => [ApiCall t]
  end.

(** A frame from which a task starts. *)
Definition entry_frame (c : frame) : bool :=
  match c with
  | ensure_token_entry | refresh_entry _ | logout_entry | execute_entry => true
  | _ => false
  end.

(** *** Mutual exclusion *)

(** The task is suspended inside [async with self._lock]. *)
Definition holds (tk : task) : bool :=
  match code tk with
  | ensure_token_fetch _ | refresh_fetch _ _ => true
  | _ => false
  end.

(** [release] has resolved the future of this lock waiter. *)
Definition handed (tk : task) : bool :=
  match code tk with
  | ensure_token_acquire true | refresh_acquire _ true => true
  | _ => false
  end.

Definition owns (tk : task) : bool := holds tk || handed tk.

(** Between two turns of the loop: at most one task owns the lock, the flag
    is set while a task holds it, and a task the lock was handed to is still
    queued. *)
Record mutex_inv (s : state) : Prop := {
  mi_unique : forall i j ti tj,
    tasks s !! i = Some ti -> tasks s !! j = Some tj ->
    owns ti = true -> owns tj = true -> i = j;
  mi_locked : forall i ti,
    tasks s !! i = Some ti -> holds ti = true -> Lock._locked (lock s) = true;
  mi_handed : forall i ti,
    tasks s !! i = Some ti -> handed ti = true -> i ∈ Lock._waiters (lock s) }.

(** The same during the turn of task [t], whose stored frame is stale;
    [alone] says that no other task owns the lock. *)
Record running_inv (t : nat) (alone : bool) (s : state) : Prop := {
  ri_unique : forall i j ti tj,
    i <> t -> j <> t ->
    tasks s !! i = Some ti -> tasks s !! j = Some tj ->
    owns ti = true -> owns tj = true -> i = j;
  ri_alone : alone = true ->
    forall i ti, i <> t -> tasks s !! i = Some ti -> owns ti = false;
  ri_locked : forall i ti,
    i <> t -> tasks s !! i = Some ti -> holds ti = true ->
    Lock._locked (lock s) = true;
  ri_handed : forall i ti,
    i <> t -> tasks s !! i = Some ti -> handed ti = true ->
    i ∈ Lock._waiters (lock s) }.

(** *** Concurrent refreshes of one Authority *)

(** The state in which the errors [errs] are handed to as many fresh
    [refresh_token_if_401] tasks. *)
Definition refresh_all (m : TokenManager.t) (key : dict.t string) (bound : bool)
    (errs : list exn) : state :=
  mk_state m key bound (spawn (map refresh_entry errs)) [].

Definition refresh_task_entry (tk : task) : Prop :=
  exists e, tk = mk_task (refresh_entry e) KTop /\ is_401 e = true.

(** No task has entered yet. *)
Definition phase_idle (v0 : Z) (s : state) : Prop :=
  version s = v0 /\ Event._value (event s) = true /\ lock s = Lock.mk false []
  /\ auth_calls s = 0%nat
  /\ Forall refresh_task_entry (tasks s).

(** Task [t0] fetches; the tasks that entered since wait on the event. *)
Definition phase_fetching (v0 : Z) (t0 : nat) (s : state) : Prop :=
  version s = v0 /\ Event._value (event s) = false /\ lock s = Lock.mk true []
  /\ auth_calls s = 1%nat
  /\ (exists fut,
        tasks s !! t0 = Some (mk_task (refresh_fetch v0 fut) KTop)
        /\ (fut = None \/ exists tok, fut = Some (inr tok)))
  /\ forall i tk, i <> t0 -> tasks s !! i = Some tk ->
       refresh_task_entry tk
       \/ (tk = mk_task (refresh_wait v0 false) KTop
           /\ i ∈ Event._waiters (event s)).

(** The fetch succeeded and the waiters were released. *)
Definition phase_done (v0 : Z) (s : state) : Prop :=
  version s = v0 + 1 /\ Event._value (event s) = true
  /\ lock s = Lock.mk false [] /\ auth_calls s = 1%nat
  /\ is_Some (token s)
  /\ Forall (fun tk => refresh_task_entry tk
                       \/ tk = mk_task (refresh_wait v0 true) KTop
                       \/ tk = mk_task (finished (Returned (VBool true))) KTop)
       (tasks s).

Definition phase (v0 : Z) (s : state) : Prop :=
  phase_idle v0 s \/ (exists t0, phase_fetching v0 t0 s) \/ phase_done v0 s.

(** *** The retry wrapper *)

(** A task with the flag of its lock or event future erased. *)
Definition view (tk : task) : task :=
  match code tk with
  | ensure_token_acquire _ => mk_task (ensure_token_acquire false) (caller tk)
  | refresh_wait vb _ => mk_task (refresh_wait vb false) (caller tk)
  | refresh_acquire vb _ => mk_task (refresh_acquire vb false) (caller tk)
  | _ => tk
  end.

Definition vlook (t : nat) (ts : list task) : option task := view <$> ts !! t.

(** The exceptions [auth_get] raised to task [t] in a schedule, in order. *)
Fixpoint auth_failures (t : nat) (sch : list action) : list exn :=
  match sch with
  | [] => []
  | AuthReply u (inl exc) :: rest =>
      if (t =? u)%nat then exc :: auth_failures t rest else auth_failures t rest
  | _ :: rest => auth_failures t rest
  end.

(** What [auth_get] raised to a task, by the future of its fetch. *)
Definition raised_by_fetch (fut : option (exn + string)) : list exn :=
  match fut with
  | Some (inl exc) => [exc]
  | _ => []
  end.

(** How [execute_with_retry] may end, given the replies [rs] to its
    operation, the exceptions [fs] that [auth_get] raised to it and the
    number [n] of times it invoked the operation: its own [auth_get] raised
    at first use; the only invocation returned or raised an error that is
    not an authorization failure; the first invocation failed with an
    authorization failure and its own [auth_get] raised during the refresh;
    or the refresh returned and the second invocation returned or raised. *)
Definition execute_result (rs : list outcome) (fs : list exn) (n : nat)
    (o : outcome) : Prop :=
  (rs = [] /\ n = 0%nat
   /\ exists exc, fs = [exc] /\ o = Raised (fetch_token_error exc))
  \/ (rs = [o] /\ n = 1%nat /\ fs = []
      /\ forall e, o = Raised e -> is_401 e = false)
  \/ (exists e exc, rs = [Raised e] /\ is_401 e = true /\ n = 1%nat
                    /\ fs = [exc] /\ o = Raised (fetch_token_error exc))
  \/ (exists e, rs = [Raised e; o] /\ is_401 e = true /\ n = 2%nat /\ fs = []).

(** Where an [execute_with_retry] task stands, given the replies [rs], the
    exceptions [fs] of its [auth_get] calls and the number [n] of
    invocations so far. *)
Definition execute_view (rs : list outcome) (fs : list exn) (n : nat)
    (otk : option task) : Prop :=
  match otk with
  | Some (mk_task c k) =>
      match c, k with
      | execute_entry, KTop => rs = [] /\ n = 0%nat /\ fs = []
      | ensure_token_acquire _, KEnsureTokenManager =>
          rs = [] /\ n = 0%nat /\ fs = []
      | ensure_token_fetch fut, KEnsureTokenManager =>
          rs = [] /\ n = 0%nat /\ fs = raised_by_fetch fut
      | execute_api_call false None, KTop => rs = [] /\ n = 1%nat /\ fs = []
      | execute_api_call false (Some o), KTop =>
          rs = [o] /\ n = 1%nat /\ fs = []
      | refresh_wait _ _, KRefreshRetry
      | refresh_acquire _ _, KRefreshRetry =>
          exists e, rs = [Raised e] /\ is_401 e = true /\ n = 1%nat /\ fs = []
      | refresh_fetch _ fut, KRefreshRetry =>
          exists e, rs = [Raised e] /\ is_401 e = true /\ n = 1%nat
                    /\ fs = raised_by_fetch fut
      | execute_api_call true None, KTop =>
          exists e, rs = [Raised e] /\ is_401 e = true /\ n = 2%nat /\ fs = []
      | execute_api_call true (Some o), KTop =>
          exists e, rs = [Raised e; o] /\ is_401 e = true /\ n = 2%nat
                    /\ fs = []
      | finished o, KTop => execute_result rs fs n o
      | _, _ => False
      end
  | None => False
  end.

Definition execute_ok (t : nat) (rs : list outcome) (fs : list exn)
    (s : state) : Prop :=
  execute_view rs fs (api_calls t s) (tasks s !! t).

(** The frames of [refresh_token_if_401] when it is entered: waiting for the
    refresh in progress, queued for the lock, or fetching. *)
Definition refresh_entered (v : Z) (c : frame) : Prop :=
  c = refresh_wait v false \/ c = refresh_acquire v false
  \/ c = refresh_fetch v None.

(** What the task does in its next turn, by where it stands in
    [execute_with_retry]: a result, or an error that is not an authorization
    failure, ends the task with it; an authorization failure calls
    [refresh_token_if_401] with that error, which suspends without another
    invocation; when [refresh_token_if_401] returns the operation is invoked
    once more, when it raises the task ends with that exception; and the
    outcome of the second invocation ends the task. *)
Definition next_turn (t : nat) (s : state) : Prop :=
  match tasks s !! t with
  | Some (mk_task (execute_api_call false (Some (Returned v))) KTop) =>
      step (Run t) s = Some (set_task t (finished (Returned v)) KTop s)
  | Some (mk_task (execute_api_call false (Some (Raised e))) KTop) =>
      if is_401 e then
        exists s' c,
          step (Run t) s = Some s'
          /\ s' = refresh_token_if_401 t KRefreshRetry e s
          /\ tasks s' !! t = Some (mk_task c KRefreshRetry)
          /\ refresh_entered (version s) c
          /\ api_calls t s' = api_calls t s
      else step (Run t) s = Some (set_task t (finished (Raised e)) KTop s)
  | Some (mk_task (refresh_fetch vb (Some (inr tok))) KRefreshRetry) =>
      exists s',
        step (Run t) s = Some s'
        /\ tasks s' !! t = Some (mk_task (execute_api_call true None) KTop)
        /\ api_calls t s' = S (api_calls t s)
        /\ token s' = Some tok
  | Some (mk_task (refresh_fetch vb (Some (inl exc))) KRefreshRetry) =>
      exists s',
        step (Run t) s = Some s'
        /\ tasks s' !! t
           = Some (mk_task (finished (Raised (fetch_token_error exc))) KTop)
        /\ api_calls t s' = api_calls t s
  | Some (mk_task (refresh_wait vb true) KRefreshRetry) =>
      exists s',
        step (Run t) s = Some s'
        /\ tasks s' !! t = Some (mk_task (execute_api_call true None) KTop)
        /\ api_calls t s' = S (api_calls t s)
  | Some (mk_task (refresh_acquire vb true) KRefreshRetry) =>
      exists s',
        step (Run t) s = Some s'
        /\ if (version s =? vb)%Z then
             tasks s' !! t = Some (mk_task (refresh_fetch vb None) KRefreshRetry)
             /\ api_calls t s' = api_calls t s
           else
             tasks s' !! t = Some (mk_task (execute_api_call true None) KTop)
             /\ api_calls t s' = S (api_calls t s)
  | Some (mk_task (execute_api_call true (Some o)) KTop) =>
      step (Run t) s = Some (set_task t (finished o) KTop s)
  | _ => True
  end.

(** The replies of a run in which the first invocation fails with [e], the
    refresh fetches the token [tok] and the second invocation ends with [o];
    of a run whose only invocation ends with [o]. *)
Definition retry_run (t : nat) (e : exn) (tok : string) (o : outcome)
    : list action :=
  [ApiReply t (Raised e); Run t; AuthReply t (inr tok); Run t;
   ApiReply t o; Run t].

Definition single_run (t : nat) (o : outcome) : list action :=
  [ApiReply t o; Run t].

(** *** Inputs of the examples *)

Definition e401 : exn := UnauthorizedException (Some 401) "Unauthorized".

Definition network_error : exn := Exception "ClientConnectionError" None "boom".

(** An Authority holding token ["old"] at version [1], with the given tasks. *)
Definition ready_state (cs : list frame) : state :=
  mk_state (idle_tm "user" "hash" "host:user" (Some "old") 1)
    [("iikoCookieAuth", "old")] true (spawn cs) [].

(** An Authority that never fetched a token, with the given tasks. *)
Definition fresh_state (cs : list frame) : state :=
  mk_state (idle_tm "user" "hash" "host:user" None 0) [] false (spawn cs) [].

(** The state a schedule leads to (the state itself if it cannot run). *)
Definition after (sch : list action) (s : state) : state :=
  match exec sch s with
  | Some s' => s'
  | None => s
  end.

End AsyncVocabulary.

(** ** Helper reads of the nomenclature API

    The one-argument helpers of [IikoServerApiClientManager] built on the
    three list reads; each is the request it ends up sending. *)

Module NomenclatureHelpers.

Import Nomenclature.

Section ProductType.

Variable ProductType : Type.
Variable product_type_truthy : ProductType -> bool.

(** [get_products_list(include_deleted=include_deleted)] *)
Definition get_all_products (include_deleted : bool) : products_request ProductType :=
  get_products_list ProductType product_type_truthy (Some include_deleted)
    None None None None None.

(** [get_product_groups_list(include_deleted=include_deleted)] *)
Definition get_all_product_groups (include_deleted : bool) : groups_request :=
  get_product_groups_list (Some include_deleted) None None None None None.

(** [get_products_list(ids=ids, include_deleted=include_deleted)] *)
Definition get_products_by_ids (ids : list string) (include_deleted : bool)
    : products_request ProductType :=
  get_products_list ProductType product_type_truthy (Some include_deleted)
    (Some ids) None None None None.

(** [get_products_list(category_ids=[category_id], ...)] *)
Definition get_products_by_category (category_id : string) (include_deleted : bool)
    : products_request ProductType :=
  get_products_list ProductType product_type_truthy (Some include_deleted)
    None None None (Some [category_id]) None.

(** [get_products_list(parent_ids=[group_id], ...)] *)
Definition get_products_by_group (group_id : string) (include_deleted : bool)
    : products_request ProductType :=
  get_products_list ProductType product_type_truthy (Some include_deleted)
    None None None None (Some [group_id]).

(** [get_products_list(types=[product_type], ...)] *)
Definition get_products_by_type (product_type : ProductType) (include_deleted : bool)
    : products_request ProductType :=
  get_products_list ProductType product_type_truthy (Some include_deleted)
    None None (Some [product_type]) None None.

(** [get_product_groups_list(parent_ids=[], ...)] *)
Definition get_root_product_groups (include_deleted : bool) : groups_request :=
  get_product_groups_list (Some include_deleted) None (Some []) None None None.

(** [get_product_groups_list(parent_ids=[parent_id], ...)] *)
Definition get_child_product_groups (parent_id : string) (include_deleted : bool)
    : groups_request :=
  get_product_groups_list (Some include_deleted) None (Some [parent_id]) None
    None None.

(** [get_user_categories_list(include_deleted=include_deleted)] *)
Definition get_all_user_categories (include_deleted : bool) : categories_request :=
  get_user_categories_list (Some include_deleted) None None.

(** [get_user_categories_list(ids=ids, include_deleted=include_deleted)] *)
Definition get_user_categories_by_ids (ids : list string) (include_deleted : bool)
    : categories_request :=
  get_user_categories_list (Some include_deleted) (Some ids) None.

End ProductType.

End NomenclatureHelpers.

(** A filter of a request holds at most one value. *)
Definition at_most_one {A} (sent : option (list A)) : Prop :=
  match sent with
  | Some l => (length l <= 1)%nat
  | None => True
  end.

(** A filter argument holds two values or more. *)
Definition several {A} (arg : option (list A)) : Prop :=
  match arg with
  | Some l => (2 <= length l)%nat
  | None => False
  end.

(** ** Assembly charts: [create_simple_assembly_chart] *)

Module AssemblyChart.

Section Client.

(** [float] values, [datetime.date] values and the enums of the generated
    client are parameters; [today] is what [date.today()] returns at the time
    of the call. *)
Variable float : Type.
Variable float_of_int : Z -> float.
Variable one : float.                               (* [1.0] *)
Variable date : Type.
Variable today : date.
Variable ProductWriteoffStrategy : Type.
Variable ASSEMBLE : ProductWriteoffStrategy.
Variable ProductSizeAssemblyStrategy : Type.
Variable COMMON : ProductSizeAssemblyStrategy.

(** The keyword arguments of [BaseAssemblyChartItemDto(...)]. *)
Record BaseAssemblyChartItemDto := mk_item {
  sortWeight : Z;
  productId : string;
  amountIn : float;
  amountMiddle : float;
  amountOut : float;
  amountIn1 : float;
  amountOut1 : float;
  amountIn2 : float;
  amountOut2 : float;
  amountIn3 : float;
  amountOut3 : float;
  packageTypeId : option string;
  productSizeSpecification : option string;
  storeSpecification : option string }.

(** The keyword arguments of [SaveAssemblyChartDto(...)]. *)
Record SaveAssemblyChartDto := mk_chart {
  assembledProductId : string;
  dateFrom : date;
  dateTo : option date;
  assembledAmount : float;
  items : list BaseAssemblyChartItemDto;
  productWriteoffStrategy : ProductWriteoffStrategy;
  productSizeAssemblyStrategy : ProductSizeAssemblyStrategy }.

(** [enumerate(lst)], counting from [start]. *)
Fixpoint enumerate {A} (start : nat) (lst : list A) : list (nat * A) :=
  match lst with
  | [] => []
  | x :: rest => (start, x) :: enumerate (S start) rest
  end.

(** The body of the loop: one row of the chart. *)
Definition chart_item (idx : nat) (ingredient_id : string) (amount : float)
    : BaseAssemblyChartItemDto :=
  mk_item (Z.of_nat idx) ingredient_id amount amount amount
    (float_of_int 0) (float_of_int 0) (float_of_int 0) (float_of_int 0)
    (float_of_int 0) (float_of_int 0) None None None.

(** [items = []; for idx, (ingredient_id, amount) in enumerate(ingredients):
    items.append(...)] *)
Definition chart_items (ingredients : list (string * float))
    : list BaseAssemblyChartItemDto :=
  foldl (fun items '(idx, (ingredient_id, amount)) =>
           items ++ [chart_item idx ingredient_id amount])
    [] (enumerate 0 ingredients).

(** The chart [create_simple_assembly_chart] hands to [save_assembly_chart];
    an omitted [date_from] or [assembled_amount] is [None]. *)
Definition create_simple_assembly_chart (product_id : string)
    (ingredients : list (string * float)) (date_from : option date)
    (assembled_amount : option float) : SaveAssemblyChartDto :=
  let date_from := match date_from with None => today | Some d => d end in
  mk_chart product_id date_from None
    (match assembled_amount with None => one | Some a => a end)
    (chart_items ingredients) ASSEMBLE COMMON.

End Client.

End AssemblyChart.

(** ** Reading the configuration: [iikoserver/config_reader.py] *)

Module ConfigReader.

(** What the process sees at the time of a call: the environment variable
    [IIKOSERVER_CONFIG], and what [open(file_path, "rb")] yields for a path
    (an exception, or the bytes of the file). *)
Record env := mk_env {
  getenv : option string;
  open_rb : string -> exn + string }.

Inductive event :=
  | Getenv                  (* [getenv("IIKOSERVER_CONFIG")] *)
  | Open (path : string).   (* [open(file_path, "rb")] *)

Definition ValueError (msg : string) : exn := Exception "ValueError" None msg.

Section Loader.

(** The values [yaml.load] returns, [yaml.load(file, Loader=SafeLoader)]
    itself and [model.model_validate] are parameters; [as_dict] is the test
    [isinstance(config_data, dict)], with the mapping when it holds; a model
    class is identified by its name. *)
Variable yaml : Type.
Variable as_dict : yaml -> option (dict.t yaml).
Variable load : string -> exn + yaml.
Variable Config : Type.
Variable model_validate : string -> yaml -> exn + Config.

(** The two [lru_cache]s and the reads made so far.  The cache of
    [get_config] is kept most recent first. *)
Record process := mk_process {
  parse_cache : option (dict.t yaml);
  get_cache : list ((string * string) * Config);
  events : list event }.

Definition new_process : process := mk_process None [] [].

(** The default [maxsize] of [lru_cache]. *)
Definition maxsize : nat := 128.

Definition key_eqb (a b : string * string) : bool :=
  String.eqb a.1 b.1 && String.eqb a.2 b.2.

Definition lru_find {V} (k : string * string) (c : list ((string * string) * V))
    : option V :=
  snd <$> find (fun kv => key_eqb kv.1 k) c.

(** A hit makes the entry the most recent one. *)
Definition lru_touch {V} (k : string * string) (c : list ((string * string) * V))
    : list ((string * string) * V) :=
  match find (fun kv => key_eqb kv.1 k) c with
  | Some kv => kv :: List.filter (fun kv' => negb (key_eqb kv'.1 k)) c
  | None => c
  end.

(** A new entry evicts the least recent one when the cache is full. *)
Definition lru_store {V} (k : string * string) (v : V)
    (c : list ((string * string) * V)) : list ((string * string) * V) :=
  take maxsize ((k, v) :: c).

(** The body of [parse_config_file]. *)
Definition parse_config_file_body (e : env) (p : process)
    : (exn + dict.t yaml) * process :=
  let p1 := mk_process (parse_cache p) (get_cache p) (events p ++ [Getenv]) in
  match getenv e with
  | None =>
      (inl (ValueError
              ("Переменная окружения IIKOSERVER_CONFIG не задана. "
               +:+ "Укажите путь к файлу конфигурации.")), p1)
  | Some file_path =>
      let p2 := mk_process (parse_cache p) (get_cache p)
                  (events p1 ++ [Open file_path]) in
      match open_rb e file_path with
      | inl exc => (inl exc, p2)
      | inr bytes =>
          match load bytes with
          | inl exc => (inl exc, p2)
          | inr config_data =>
              match as_dict config_data with
              | Some config_dict => (inr config_dict, p2)
              | None =>
                  (inl (ValueError "Конфигурация должна быть словарём"), p2)
              end
          end
      end
  end.

(** [@lru_cache def parse_config_file()]: a result is kept, an exception is
    not. *)
Definition parse_config_file (e : env) (p : process)
    : (exn + dict.t yaml) * process :=
  match parse_cache p with
  | Some config_data => (inr config_data, p)
  | None =>
      match parse_config_file_body e p with
      | (inr config_data, p1) =>
          (inr config_data,
           mk_process (Some config_data) (get_cache p1) (events p1))
      | (inl exc, p1) => (inl exc, p1)
      end
  end.

(** The body of [get_config]. *)
Definition get_config_body (model root_key : string) (e : env) (p : process)
    : (exn + Config) * process :=
  match parse_config_file e p with
  | (inl exc, p1) => (inl exc, p1)
  | (inr config_dict, p1) =>
      if negb (dict.contains root_key config_dict) then
        (inl (ValueError ("Ключ '" +:+ root_key +:+ "' не найден в конфигурации")),
         p1)
      else
        match dict.get root_key config_dict with
        | Some v =>
            match model_validate model v with
            | inl exc => (inl exc, p1)
            | inr c => (inr c, p1)
            end
        | None => (inl (Exception "KeyError" None root_key), p1)
        end
  end.

(** [@lru_cache def get_config(model, root_key)] *)
Definition get_config (model root_key : string) (e : env) (p : process)
    : (exn + Config) * process :=
  match lru_find (model, root_key) (get_cache p) with
  | Some c =>
      (inr c,
       mk_process (parse_cache p) (lru_touch (model, root_key) (get_cache p))
         (events p))
  | None =>
      match get_config_body model root_key e p with
      | (inr c, p1) =>
          (inr c,
           mk_process (parse_cache p1)
             (lru_store (model, root_key) c (get_cache p1)) (events p1))
      | (inl exc, p1) => (inl exc, p1)
      end
  end.

(** [get_iikoserver_config] *)
Definition get_iikoserver_config (e : env) (p : process)
    : (exn + Config) * process :=
  get_config "IikoServerConfig" "iikoserver" e p.

(** The calls a client makes, each under the environment of its time. *)
Inductive call :=
  | call_parse_config_file (e : env)
  | call_get_config (model root_key : string) (e : env)
  | call_get_iikoserver_config (e : env).

Definition perform (c : call) (p : process) : process :=
  match c with
  | call_parse_config_file e => (parse_config_file e p).2
  | call_get_config model root_key e => (get_config model root_key e p).2
  | call_get_iikoserver_config e => (get_iikoserver_config e p).2
  end.

Definition run (cs : list call) (p : process) : process :=
  foldl (fun p c => perform c p) p cs.

End Loader.

End ConfigReader.

(** ** Vocabulary of the statements about the registries *)

Section RegistryVocabulary.

Import Registry.

Variable sha1_hexdigest : string -> string.
Variable remote_raises : nat -> option exn.

(** What a client of the two classes can call on the registries. *)
Inductive call :=
  | tm_get_instance (api_client : nat) (login password key_id : string)
  | facade_get_instance (credentials : ApiCredentials.t)
  | tm_logout (m : nat)
  | tm_close_all
  | facade_close_all.

Definition perform (c : call) (w : world) : world :=
  match c with
  | tm_get_instance api login pw key =>
      (TokenManager_get_instance sha1_hexdigest api login pw key w).1
  | facade_get_instance cred => (Facade_get_instance cred w).1
  | tm_logout m => TokenManager_logout m w
  | tm_close_all => TokenManager_close_all w
  | facade_close_all => (Facade_close_all remote_raises w).1
  end.

Definition run (cs : list call) (w : world) : world :=
  foldl (fun w c => perform c w) w cs.

(** The keys of each registry are distinct, every entry leads to an object
    built for its key, and every facade object owns an [ApiClient] of its
    own. *)
Record registry_wf (w : world) : Prop := {
  wf_tm_keys : NoDup (tm_instances w).*1;
  wf_tm : forall key m,
    (key, m) ∈ tm_instances w ->
    exists tm0, token_managers w !! m = Some tm0 /\ TokenManager._key_id tm0 = key;
  wf_facade_keys : NoDup (facade_instances w).*1;
  wf_facade : forall key f,
    (key, f) ∈ facade_instances w ->
    exists fac, facades w !! f = Some fac
                /\ ApiCredentials.key_id (_credentials fac) = key;
  wf_client : forall f fac,
    facades w !! f = Some fac -> (_api_client fac < length (api_clients w))%nat;
  wf_own_client : forall f g fac gac,
    facades w !! f = Some fac -> facades w !! g = Some gac ->
    _api_client fac = _api_client gac -> f = g }.

(** The [logout_get] call [logout] makes for the Authority at reference [m]. *)
Definition logout_call (w : world) (m : nat) : option net_event :=
  match token_at w m with
  | Some (Some tok) => Some (LogoutGet tok)
  | _ => None
  end.

(** The [api_key] dict of the [ApiClient] at reference [c]. *)
Definition api_key_at (w : world) (c : nat) : option (dict.t string) :=
  configuration_api_key <$> api_clients w !! c.

End RegistryVocabulary.

(** ** Vocabulary of the statements about one Authority *)

Section AuthorityVocabulary.

Import Async.

(** The [api_key] dict that [_set_token] leaves for a token. *)
Definition cookie (tok : string) : dict.t string := [("iikoCookieAuth", tok)].

(** The [api_key] dict that goes with what the Authority stores. *)
Definition api_key_of (tok : option string) : dict.t string :=
  match tok with
  | Some t => cookie t
  | None => []
  end.

(** Some task is inside [async with self._lock], waiting for [auth_get]. *)
Definition fetching (s : state) : bool := existsb holds (tasks s).

(** The client's key follows the stored token: it is empty or the cookie of
    the stored token, it is the latter outside a fetch, and [ensure_token]
    only fetches while no token is stored. *)
Record key_inv (s : state) : Prop := {
  ki_key : api_key s = [] \/ api_key s = api_key_of (token s);
  ki_sync : fetching s = false -> api_key s = api_key_of (token s);
  ki_ensure : forall i k fut,
    tasks s !! i = Some (mk_task (ensure_token_fetch fut) k) -> token s = None }.

(** What a turn of the loop does to the stored token and the client's key,
    by the frames [tk] and [tk'] of the task before and after. *)
Definition key_effect (s s' : state) (tk tk' : task) : Prop :=
  (* nothing *)
  (token s' = token s /\ api_key s' = api_key s /\ holds tk' = holds tk
   /\ (forall fut k, tk' = mk_task (ensure_token_fetch fut) k ->
         exists fut0, tk = mk_task (ensure_token_fetch fut0) k))
  (* [_fetch_token] starts *)
  \/ (token s' = token s /\ api_key s' = [] /\ holds tk' = true
      /\ (forall fut k, tk' = mk_task (ensure_token_fetch fut) k -> token s = None))
  (* [_fetch_token] ends in [refresh_token_if_401], or succeeded *)
  \/ (holds tk = true /\ holds tk' = false /\ api_key s' = api_key_of (token s'))
  (* [_fetch_token] raised in [ensure_token] *)
  \/ (holds tk' = false /\ token s' = token s /\ api_key s' = api_key s
      /\ exists fut k, tk = mk_task (ensure_token_fetch fut) k)
  (* [logout] ends *)
  \/ (holds tk' = holds tk /\ holds tk = false /\ token s' = None /\ api_key s' = []).

End AuthorityVocabulary.

(** ** Vocabulary: wake-ups, the length of a run, the version counter *)

Section RunVocabulary.

Import Async.

(** What the turn of another task can do to a suspended task: nothing, or
    resolve the future it awaits. *)
Definition woken (tk tk' : task) : Prop :=
  tk' = tk \/ tk' = resolve_lock_fut tk \/ tk' = resolve_event_fut tk.

(** Loop actions left before a coroutine returns to its caller. *)
Definition frame_rank (c : frame) : nat :=
  match c with
  | finished _ => 0
  | ensure_token_fetch (Some _) | refresh_fetch _ (Some _) => 1
  | ensure_token_fetch None | refresh_fetch _ None => 2
  | ensure_token_acquire true | refresh_acquire _ true => 3
  | ensure_token_acquire false | refresh_acquire _ false => 4
  | refresh_wait _ true => 1
  | refresh_wait _ false => 2
  | ensure_token_entry | refresh_entry _ => 5
  | logout_await (Some _) => 1
  | logout_await None => 2
  | logout_entry => 3
  | execute_api_call true (Some _) => 1
  | execute_api_call true None => 2
  | execute_api_call false (Some _) => 7
  | execute_api_call false None => 8
  | execute_entry => 13
  end.

(** Loop actions left after the coroutine returned to its caller. *)
Definition cont_rank (k : cont) : nat :=
  match k with
  | KTop => 0
  | KRefreshRetry => 2
  | KEnsureTokenManager => 8
  end.

Definition rank (tk : task) : nat :=
  match code tk with
  | finished _ => 0
  | c => frame_rank c + cont_rank (caller tk)
  end.

Definition total (f : task -> nat) (ts : list task) : nat :=
  foldr (fun tk n => (f tk + n)%nat) 0%nat ts.

(** A token was delivered to the task and is not stored yet. *)
Definition token_delivered (tk : task) : nat :=
  match code tk with
  | ensure_token_fetch (Some (inr _)) | refresh_fetch _ (Some (inr _)) => 1
  | _ => 0
  end.

(** Number of [auth_get] calls of a schedule that returned a token. *)
Fixpoint tokens_granted (sch : list action) : nat :=
  match sch with
  | [] => 0
  | AuthReply _ (inr _) :: rest => S (tokens_granted rest)
  | _ :: rest => tokens_granted rest
  end.

End RunVocabulary.

(** ** Vocabulary: how the coroutines of the Authority end *)

Section OutcomeVocabulary.

Import Async.

(** [ensure_token] returns [None] or raises [IikoServerAuthException]. *)
Definition ensure_token_result (o : outcome) : Prop :=
  o = Returned VNone \/ exists m x, o = Raised (IikoServerAuthException m x).

(** [refresh_token_if_401] returns [False] for an error that is not an
    authorization failure; for one that is, it returns [True] or raises
    [IikoServerAuthException]. *)
Definition refresh_result (error : exn) (o : outcome) : Prop :=
  (is_401 error = false /\ o = Returned (VBool false))
  \/ (is_401 error = true
      /\ (o = Returned (VBool true)
          \/ exists m x, o = Raised (IikoServerAuthException m x))).

(** How a task that started in frame [c0] may end. *)
Definition task_result (c0 : frame) (o : outcome) : Prop :=
  match c0 with
  | ensure_token_entry => ensure_token_result o
  | refresh_entry error => refresh_result error o
  | logout_entry => o = Returned VNone
  | _ => True
  end.

(** Where a task that started in frame [c0] can be. *)
Definition task_view (c0 : frame) (otk : option task) : Prop :=
  match otk with
  | Some (mk_task c k) =>
      match c0 with
      | ensure_token_entry =>
          k = KTop
          /\ match c with
             | ensure_token_entry | ensure_token_acquire _
             | ensure_token_fetch _ => True
             | finished o => ensure_token_result o
             | _ => False
             end
      | refresh_entry error =>
          k = KTop
          /\ match c with
             | refresh_entry e => e = error
             | refresh_wait _ _ | refresh_acquire _ _ | refresh_fetch _ _ =>
                 is_401 error = true
             | finished o => refresh_result error o
             | _ => False
             end
      | logout_entry =>
          k = KTop
          /\ match c with
             | logout_entry | logout_await _ => True
             | finished o => o = Returned VNone
             | _ => False
             end
      | _ => True
      end
  | None => False
  end.

End OutcomeVocabulary.

(** ** Vocabulary: concurrent first uses of one Authority *)

Section EnsureVocabulary.

Import Async.

(** The state in which [n] fresh [ensure_token] tasks are created. *)
Definition ensure_all (m : TokenManager.t) (key : dict.t string) (bound : bool)
    (n : nat) : state :=
  mk_state m key bound (spawn (replicate n ensure_token_entry)) [].

(** No task has entered yet and no token is stored. *)
Definition ensure_idle (v0 : Z) (s : state) : Prop :=
  token s = None /\ version s = v0 /\ lock s = Lock.mk false []
  /\ auth_calls s = 0%nat
  /\ Forall (fun tk => tk = mk_task ensure_token_entry KTop) (tasks s).

(** Task [t0] fetches; the tasks that entered since are queued for the lock. *)
Definition ensure_fetching (v0 : Z) (t0 : nat) (s : state) : Prop :=
  token s = None /\ version s = v0 /\ Lock._locked (lock s) = true
  /\ auth_calls s = 1%nat
  /\ (exists fut,
        tasks s !! t0 = Some (mk_task (ensure_token_fetch fut) KTop)
        /\ (fut = None \/ exists tok, fut = Some (inr tok)))
  /\ forall i tk, i <> t0 -> tasks s !! i = Some tk ->
       tk = mk_task ensure_token_entry KTop
       \/ tk = mk_task (ensure_token_acquire false) KTop.

(** A task that never fetched: not started, queued for the lock, or done. *)
Definition ensure_bystander (tk : task) : Prop :=
  tk = mk_task ensure_token_entry KTop
  \/ (exists b, tk = mk_task (ensure_token_acquire b) KTop)
  \/ tk = mk_task (finished (Returned VNone)) KTop.

(** A token is stored, after [calls] fetches. *)
Definition ensure_done (v0 : Z) (calls : nat) (s : state) : Prop :=
  is_Some (token s) /\ version s = v0 + Z.of_nat calls
  /\ auth_calls s = calls
  /\ Forall ensure_bystander (tasks s).

Definition ensure_phase (v0 : Z) (s : state) : Prop :=
  ensure_idle v0 s \/ (exists t0, ensure_fetching v0 t0 s) \/ ensure_done v0 1 s.

(** A token was stored from the start: nothing but the tasks changes. *)
Definition ensure_present (s0 s : state) : Prop :=
  is_Some (token s) /\ tm s = tm s0 /\ api_key s = api_key s0 /\ net s = net s0
  /\ Forall (fun tk => tk = mk_task ensure_token_entry KTop
                       \/ tk = mk_task (finished (Returned VNone)) KTop)
       (tasks s).

End EnsureVocabulary.

(** ** Vocabulary: absence of deadlock *)

Section LivenessVocabulary.

Import Async.

(** The task waits for the lock and was not handed it. *)
Definition lock_waiting (tk : task) : bool :=
  match code tk with
  | ensure_token_acquire false | refresh_acquire _ false => true
  | _ => false
  end.

(** The task is suspended in [Lock.acquire]. *)
Definition lock_queued (tk : task) : bool :=
  match code tk with
  | ensure_token_acquire _ | refresh_acquire _ _ => true
  | _ => false
  end.

(** The task waits for the event, which has not been set for it. *)
Definition event_waiting (tk : task) : bool :=
  match code tk with
  | refresh_wait _ false => true
  | _ => false
  end.

(** The task awaits a reply of the network. *)
Definition awaits_network (tk : task) : bool :=
  match code tk with
  | ensure_token_fetch None | refresh_fetch _ None | logout_await None
  | execute_api_call _ None => true
  | _ => false
  end.

(** Between two turns of the loop: the queue of the lock holds exactly the
    tasks suspended in [acquire], once each; the flag of the lock is set and
    the event is cleared only while a task fetches; a non-empty queue has
    someone to pass the lock on; a task waiting for the event is in its
    queue and the event is cleared. *)
Record live_inv (s : state) : Prop := {
  li_queue : forall i tk,
    tasks s !! i = Some tk -> lock_waiting tk = true ->
    i ∈ Lock._waiters (lock s);
  li_waiters : forall w,
    w ∈ Lock._waiters (lock s) ->
    exists tk, tasks s !! w = Some tk /\ lock_queued tk = true;
  li_nodup : NoDup (Lock._waiters (lock s));
  li_locked : Lock._locked (lock s) = true ->
    exists i tk, tasks s !! i = Some tk /\ holds tk = true;
  li_owner : Lock._waiters (lock s) <> [] ->
    exists i tk, tasks s !! i = Some tk /\ owns tk = true;
  li_event : forall i tk,
    tasks s !! i = Some tk -> event_waiting tk = true ->
    Event._value (event s) = false /\ i ∈ Event._waiters (event s);
  li_cleared : Event._value (event s) = false ->
    exists i tk, tasks s !! i = Some tk /\ holds tk = true }.

(** Where the running task stands with respect to the queue of the lock. *)
Inductive queue_mode := Q_no | Q_handed | Q_waiting.

Definition queue_mode_of (tk : task) : queue_mode :=
  if handed tk then Q_handed else if lock_waiting tk then Q_waiting else Q_no.

(** The same during the turn of task [t], whose stored frame is stale: [q]
    says whether [t] is in the queue of the lock, [lk] that it holds the
    lock, [ev] that it cleared the event. *)
Record live_run (t : nat) (q : queue_mode) (lk ev : bool) (s : state) : Prop := {
  lr_queue : forall i tk,
    i <> t -> tasks s !! i = Some tk -> lock_waiting tk = true ->
    i ∈ Lock._waiters (lock s);
  lr_waiters : forall w,
    w ∈ Lock._waiters (lock s) ->
    (w = t /\ q <> Q_no)
    \/ (w <> t /\ exists tk, tasks s !! w = Some tk /\ lock_queued tk = true);
  lr_self : q = Q_waiting -> t ∈ Lock._waiters (lock s);
  lr_nodup : NoDup (Lock._waiters (lock s));
  lr_locked : Lock._locked (lock s) = true ->
    lk = true \/ exists i tk, i <> t /\ tasks s !! i = Some tk /\ holds tk = true;
  lr_owner : Lock._waiters (lock s) <> [] ->
    lk = true \/ q = Q_handed
    \/ exists i tk, i <> t /\ tasks s !! i = Some tk /\ owns tk = true;
  lr_event : forall i tk,
    i <> t -> tasks s !! i = Some tk -> event_waiting tk = true ->
    Event._value (event s) = false /\ i ∈ Event._waiters (event s);
  lr_cleared : Event._value (event s) = false ->
    ev = true \/ exists i tk, i <> t /\ tasks s !! i = Some tk /\ holds tk = true }.

End LivenessVocabulary.

(** ** Vocabulary: the flags of the lock and of the event *)

Section FlagVocabulary.

Import Async.

(** What a turn of the loop does to the flag of the event, by the frames of
    the task before and after. *)
Definition event_effect (s s' : state) (tk tk' : task) : Prop :=
  (holds tk' = holds tk /\ Event._value (event s') = Event._value (event s))
  \/ (holds tk' = true /\ Event._value (event s') = false)
  \/ (holds tk = true /\ holds tk' = false).

End FlagVocabulary.

(** * Properties *)

(** ** Credential key *)

Lemma append_nil_l (s : string) : "" +:+ s = s.
Proof. reflexivity. Qed.

Lemma append_cons (c : ascii) (a b : string) :
  String c a +:+ b = String c (a +:+ b).
Proof. reflexivity. Qed.

Lemma has_colon_app_colon (a b : string) :
  has_colon (a +:+ String ":"%char b) = true.
Proof.
  induction a as [|c a IH]; rewrite ?append_nil_l, ?append_cons; simpl; [done|].
  rewrite IH. by destruct (Ascii.eqb c _).
Qed.

Lemma append_colon_inj_hosts (h1 h2 l1 l2 : string) :
  has_colon h1 = false -> has_colon h2 = false ->
  h1 +:+ ":" +:+ l1 = h2 +:+ ":" +:+ l2 -> h1 = h2 /\ l1 = l2.
Proof.
  revert h2. induction h1 as [|c h1 IH]; intros [|d h2]; simpl; intros H1 H2 E;
    repeat (rewrite append_nil_l in E || rewrite append_cons in E).
  - by inversion E.
  - inversion E; subst. by rewrite Ascii.eqb_refl in H2.
  - inversion E; subst. by rewrite Ascii.eqb_refl in H1.
  - apply orb_false_iff in H1 as [_ H1]. apply orb_false_iff in H2 as [_ H2].
    inversion E; subst. destruct (IH h2 H1 H2) as [-> ->]; done.
Qed.

Lemma append_colon_inj_logins (h1 h2 l1 l2 : string) :
  has_colon l1 = false -> has_colon l2 = false ->
  h1 +:+ ":" +:+ l1 = h2 +:+ ":" +:+ l2 -> h1 = h2 /\ l1 = l2.
Proof.
  revert h2. induction h1 as [|c h1 IH]; intros [|d h2]; simpl; intros H1 H2 E;
    repeat (rewrite append_nil_l in E || rewrite append_cons in E).
  - by inversion E.
  - inversion E; subst. by rewrite has_colon_app_colon in H1.
  - inversion E; subst. by rewrite has_colon_app_colon in H2.
  - inversion E; subst. destruct (IH h2 H1 H2) as [-> ->]; done.
Qed.

(** C9, as stated, fails: the key is a plain concatenation, so a colon inside
    a field moves the boundary.  Host ["a:b"] with login ["c"] and host ["a"]
    with login ["b:c"] are distinct pairs with the same key. *)
Lemma key_id_collision :
  let c1 := ApiCredentials.mk "a:b" "c" "p" in
  let c2 := ApiCredentials.mk "a" "b:c" "p" in
  (ApiCredentials.host c1, ApiCredentials.login c1)
    <> (ApiCredentials.host c2, ApiCredentials.login c2)
  /\ ApiCredentials.key_id c1 = ApiCredentials.key_id c2.
Proof. split; [discriminate | reflexivity]. Qed.

(** C9 (amended): [key_id] is [host ++ ":" ++ login]; when neither host
    contains a colon, or neither login does, two keys are equal if and only
    if both the hosts and the logins are equal. *)
Theorem key_id_injective_without_colon (c1 c2 : ApiCredentials.t)
    (Hcolon :
       (has_colon (ApiCredentials.host c1) = false
        /\ has_colon (ApiCredentials.host c2) = false)
       \/ (has_colon (ApiCredentials.login c1) = false
           /\ has_colon (ApiCredentials.login c2) = false)) :
  ApiCredentials.key_id c1
    = ApiCredentials.host c1 +:+ ":" +:+ ApiCredentials.login c1
  /\ (ApiCredentials.key_id c1 = ApiCredentials.key_id c2
      <-> ApiCredentials.host c1 = ApiCredentials.host c2
          /\ ApiCredentials.login c1 = ApiCredentials.login c2).
Proof.
  split; [reflexivity|]. unfold ApiCredentials.key_id. split.
  - intros E. destruct Hcolon as [[H1 H2]|[H1 H2]].
    + by apply append_colon_inj_hosts.
    + by apply append_colon_inj_logins.
  - by intros [-> ->].
Qed.

Lemma key_id_injective_without_colon_witness :
  let c1 := ApiCredentials.mk "example.iiko.it" "user" "pass" in
  let c2 := ApiCredentials.mk "example.iiko.it" "user" "other" in
  ApiCredentials.key_id c1 = "example.iiko.it:user"
  /\ (ApiCredentials.key_id c1 = ApiCredentials.key_id c2
      <-> ApiCredentials.host c1 = ApiCredentials.host c2
          /\ ApiCredentials.login c1 = ApiCredentials.login c2).
Proof.
  intros c1 c2.
  apply (key_id_injective_without_colon c1 c2).
  left. split; reflexivity.
Defined.

(** ** List-filter encoding *)

Section Encoding.

Import Nomenclature.

Variable ProductType : Type.
Variable product_type_truthy : ProductType -> bool.

Lemma only_element_post {A} (truthy : A -> bool) (arg : option (list A)) :
  more_than_one arg = false ->
  post_filter truthy arg (singleton_if truthy (only_element arg)).
Proof.
  destruct arg as [[|x [|y l]]|]; simpl; try done.
  intros _ ->. done.
Qed.

Lemma only_element_post_parent (arg : option (list string)) :
  more_than_one arg = false ->
  post_parent_filter arg
    (if is_empty_list arg then Some []
     else singleton_if str_truthy (only_element arg)).
Proof.
  destruct arg as [[|x [|y l]]|]; simpl; try done.
  intros _ ->. done.
Qed.

(** C8 (amended): for each of the three list reads, when some filter list has
    two or more elements the GET request carries every filter list as given;
    otherwise the request is a POST in which a filter list with one truthy
    value is sent as that one-element list, an absent list as [None], an empty
    [parent_ids] as the empty list, and any other empty list as [None]. *)
Theorem list_filter_encoding (include_deleted : option bool)
    (ids nums category_ids parent_ids codes : option (list string))
    (types : option (list ProductType)) (revision_from : option Z) :
  let p := get_products_list ProductType product_type_truthy include_deleted
             ids nums types category_ids parent_ids in
  let g := get_product_groups_list include_deleted ids parent_ids
             revision_from nums codes in
  let c := get_user_categories_list include_deleted ids revision_from in
  (if existsb more_than_one [ids; nums; category_ids; parent_ids]
      || more_than_one types
   then p = mk_products ProductType GET include_deleted ids nums types
              category_ids parent_ids
   else p_method ProductType p = POST
        /\ p_include_deleted ProductType p = include_deleted
        /\ post_filter str_truthy ids (p_ids ProductType p)
        /\ post_filter str_truthy nums (p_nums ProductType p)
        /\ post_filter product_type_truthy types (p_types ProductType p)
        /\ post_filter str_truthy category_ids (p_category_ids ProductType p)
        /\ post_parent_filter parent_ids (p_parent_ids ProductType p))
  /\ (if existsb more_than_one [ids; parent_ids; nums; codes]
      then g = mk_groups GET include_deleted ids parent_ids revision_from
                 nums codes
      else g_method g = POST
           /\ g_include_deleted g = include_deleted
           /\ g_revision_from g = revision_from
           /\ post_filter str_truthy ids (g_ids g)
           /\ post_parent_filter parent_ids (g_parent_ids g)
           /\ post_filter str_truthy nums (g_nums g)
           /\ post_filter str_truthy codes (g_codes g))
  /\ (if more_than_one ids
      then c = mk_categories GET include_deleted ids revision_from
      else c_method c = POST
           /\ c_include_deleted c = include_deleted
           /\ c_revision_from c = revision_from
           /\ post_filter str_truthy ids (c_ids c)).
Proof.
  intros p g c. subst p g c.
  unfold get_products_list, get_product_groups_list, get_user_categories_list.
  split; [|split].
  - destruct (existsb more_than_one [ids; nums; category_ids; parent_ids]
              || more_than_one types) eqn:E; [reflexivity|].
    apply orb_false_iff in E as [E Ht]. simpl in E.
    repeat (apply orb_false_iff in E as [? E]).
    unfold _get_products_via_post; simpl.
    repeat split; auto using only_element_post, only_element_post_parent.
  - destruct (existsb more_than_one [ids; parent_ids; nums; codes]) eqn:E;
      [reflexivity|].
    simpl in E. repeat (apply orb_false_iff in E as [? E]).
    unfold _get_product_groups_via_post; simpl.
    repeat split; auto using only_element_post, only_element_post_parent.
  - destruct (more_than_one ids) eqn:E; [reflexivity|].
    unfold _get_user_categories_via_post; simpl.
    repeat split; auto using only_element_post.
Qed.

End Encoding.

(** C8, as stated, fails: an empty [ids] list is not sent as an empty list.
    [get_products_list(ids=[])] posts [ids=None]; only [parent_ids] has an
    empty-list encoding. *)
Lemma get_products_list_empty_ids :
  let r := Nomenclature.get_products_list string str_truthy
             None (Some []) None None None None in
  Nomenclature.p_method string r = Nomenclature.POST
  /\ Nomenclature.p_ids string r = None
  /\ Nomenclature.p_ids string r <> Some [].
Proof. repeat split; discriminate. Qed.

(** ** Registries *)

Lemma dict_contains_get {V} (k : string) (d : dict.t V) :
  dict.contains k d = true <-> exists v, dict.get k d = Some v.
Proof.
  unfold dict.contains, dict.get. induction d as [|[k' v'] d IH]; simpl.
  - split; [done | by intros [? ?]].
  - destruct (String.eqb k' k); simpl; [|exact IH].
    split; [by exists v' | done].
Qed.

Lemma dict_get_contains {V} (k : string) (d : dict.t V) (v : V) :
  dict.get k d = Some v -> dict.contains k d = true.
Proof. intros H. apply dict_contains_get. by exists v. Qed.

Lemma dict_get_set_absent {V} (k : string) (v : V) (d : dict.t V) :
  dict.contains k d = false -> dict.get k (dict.set k v d) = Some v.
Proof.
  unfold dict.set. intros H. rewrite H.
  unfold dict.contains, dict.get in *. induction d as [|[k' v'] d IH]; simpl in *.
  - by rewrite String.eqb_refl.
  - apply orb_false_iff in H as [H1 H2]. rewrite H1. by apply IH.
Qed.

Section RegistryFacts.

Import Registry.

Variable sha1_hexdigest : string -> string.
Variable remote_raises : nat -> option exn.


Lemma Facade_get_instance_hit cred w f :
  dict.get (ApiCredentials.key_id cred) (facade_instances w) = Some f ->
  let r := Facade_get_instance cred w in
  r.2 = Some f
  /\ facades r.1 = facades w
  /\ facade_instances r.1 = facade_instances w
  /\ api_clients r.1 = api_clients w
  /\ token_managers r.1 = token_managers w
  /\ tm_instances r.1 = tm_instances w
  /\ net r.1 = net w.
Proof.
  intros H. unfold Facade_get_instance.
  rewrite (dict_get_contains _ _ _ H). simpl. by rewrite H.
Qed.




(** *** Teardown *)

Lemma dict_get_values {V} (k : string) (d : dict.t V) (v : V) :
  dict.get k d = Some v -> v ∈ dict.values d.
Proof.
  unfold dict.get, dict.values. induction d as [|[k' v'] d IH]; simpl; [done|].
  destruct (String.eqb k' k); simpl.
  - intros [= ->]. left.
  - intros H. right. by apply IH.
Qed.

Lemma TokenManager_logout_spec m w :
  exists evs,
    net (TokenManager_logout m w) = net w ++ evs
    /\ Forall is_logout_event evs
    /\ (forall tok, token_at w m = Some (Some tok) -> LogoutGet tok ∈ evs)
    /\ length (token_managers (TokenManager_logout m w)) = length (token_managers w)
    /\ facades (TokenManager_logout m w) = facades w
    /\ tm_instances (TokenManager_logout m w) = tm_instances w
    /\ facade_instances (TokenManager_logout m w) = facade_instances w
    /\ token_at (TokenManager_logout m w) m = (fun _ => None) <$> token_at w m
    /\ (forall m', m' <> m -> token_at (TokenManager_logout m w) m' = token_at w m').
Proof.
  unfold TokenManager_logout, token_at.
  destruct (token_managers w !! m) as [tm0|] eqn:E; simpl.
  - destruct (TokenManager._token tm0) as [tok|] eqn:Et; simpl.
    + exists [LogoutGet tok]. rewrite length_insert.
      rewrite list_lookup_insert_eq by (by eapply lookup_lt_Some).
      repeat split; auto.
      * by repeat constructor.
      * intros ? [= ->]. left.
      * intros m' Hne. by rewrite list_lookup_insert_ne.
    + exists []. rewrite app_nil_r, E. simpl. rewrite Et.
      repeat split; auto. intros ? [=].
  - exists []. rewrite app_nil_r, E. repeat split; auto. intros ? [=].
Qed.

Lemma logout_each_spec ms w :
  let w1 := foldl (fun w m => TokenManager_logout m w) w ms in
  exists evs,
    net w1 = net w ++ evs
    /\ Forall is_logout_event evs
    /\ (forall m tok, m ∈ ms -> token_at w m = Some (Some tok) -> LogoutGet tok ∈ evs)
    /\ length (token_managers w1) = length (token_managers w)
    /\ facades w1 = facades w
    /\ tm_instances w1 = tm_instances w
    /\ facade_instances w1 = facade_instances w
    /\ (forall m, m ∈ ms -> forall t0, token_at w1 m = Some t0 -> t0 = None).
Proof.
  revert w. induction ms as [|m ms IH]; intros w; simpl.
  - exists []. rewrite app_nil_r.
    repeat split; auto.
    + intros m tok H. by apply elem_of_nil in H.
    + intros m H. by apply elem_of_nil in H.
  - destruct (TokenManager_logout_spec m w)
      as (e1 & N1 & F1 & L1 & Len1 & Fa1 & I1 & FI1 & T1 & O1).
    destruct (IH (TokenManager_logout m w))
      as (e2 & N2 & F2 & L2 & Len2 & Fa2 & I2 & FI2 & T2).
    exists (e1 ++ e2). rewrite N2, N1, <- app_assoc. 
    split; [done|]. split; [by apply Forall_app|].
    split; [|split; [congruence|split; [congruence|split; [congruence|split; [congruence|]]]]].
    + intros m' tok Hin Htok. apply elem_of_app.
      destruct (decide (m' = m)) as [->|Hne]; [left; by apply L1|].
      apply elem_of_cons in Hin as [->|Hin]; [done|].
      right. apply (L2 m' tok Hin). by rewrite O1.
    + intros m' Hin t0 Ht0.
      destruct (decide (m' ∈ ms)) as [Hms|Hms]; [by apply (T2 m' Hms)|].
      apply elem_of_cons in Hin as [->|Hin]; [|done].
      clear -Ht0 T1 Hms. revert Ht0.
      assert (G : forall ms w,
                 (forall t0, token_at w m = Some t0 -> t0 = None) ->
                 forall t0,
                   token_at (foldl (fun w m => TokenManager_logout m w) w ms) m
                   = Some t0 -> t0 = None).
      { clear. induction ms as [|a ms IH]; intros w Hw; simpl; [done|].
        apply IH. intros t0.
        destruct (TokenManager_logout_spec a w)
          as (_ & _ & _ & _ & _ & _ & _ & _ & Ta & Oa).
        destruct (decide (m = a)) as [->|Hne].
        - rewrite Ta. destruct (token_at w a); simpl; congruence.
        - rewrite Oa by done. apply Hw. }
      apply G. intros t1. rewrite T1. destruct (token_at w m); simpl; congruence.
Qed.

Lemma close_each_spec fs w :
  let r := close_each remote_raises fs w in
  exists evs,
    net r.1 = net w ++ evs
    /\ Forall is_close_event evs
    /\ token_managers r.1 = token_managers w
    /\ facades r.1 = facades w
    /\ tm_instances r.1 = tm_instances w
    /\ tm_global_lock r.1 = tm_global_lock w
    /\ (r.2 = None ->
        forall f fac, f ∈ fs -> facades w !! f = Some fac ->
                      Close (_api_client fac) ∈ evs)
    /\ ((forall n, remote_raises n = None) -> r.2 = None).
Proof.
  revert w. induction fs as [|f fs IH]; intros w; simpl.
  - exists []. rewrite app_nil_r. repeat split; auto.
    intros _ ? ? H. by apply elem_of_nil in H.
  - unfold ApiClient_close.
    destruct (facades w !! f) as [fac|] eqn:E.
    + destruct (remote_raises (length (net w))) as [e|] eqn:R; simpl.
      * exists [Close (_api_client fac)].
        split; [done|]. split; [by repeat constructor|].
        repeat split; auto; [done|]. intros H. by rewrite H in R.
      * match goal with |- context [close_each _ fs ?w1] =>
          destruct (IH w1) as (e2 & N & F & T & Fa & I & G & C & A) end.
        simpl in *. exists (Close (_api_client fac) :: e2).
        rewrite N, <- app_assoc. simpl.
        split; [done|]. split; [by constructor|].
        repeat split; auto.
        intros Hr f' fac' Hin Hf'.
        apply elem_of_cons in Hin as [->|Hin].
        -- rewrite E in Hf'. injection Hf' as <-. left.
        -- right. by apply (C Hr f' fac').
    + destruct (IH w) as (e2 & N & F & T & Fa & I & G & C & A).
      exists e2. repeat split; auto.
      intros Hr f' fac' Hin Hf'.
      apply elem_of_cons in Hin as [->|Hin]; [congruence|].
      by apply (C Hr f' fac').
Qed.

(** [close_all] returns when no [close()] raises. *)
Lemma Facade_close_all_completes w :
  (forall n, remote_raises n = None) -> (Facade_close_all remote_raises w).2 = None.
Proof.
  intros H. unfold Facade_close_all.
  destruct (close_each_spec
              (dict.values (facade_instances (TokenManager_close_all w)))
              (TokenManager_close_all w)) as (_ & _ & _ & _ & _ & _ & _ & _ & A).
  specialize (A H).
  destruct (close_each _ _ _) as [w2 [e|]]; simpl in *; congruence.
Qed.

(** C7: when [close_all] of the facade registry returns, the calls that
    reached the network are the logouts of the registered Authorities that
    held a token followed by the [close()] of every registered facade's
    transport, no registered Authority holds a token, both registries are
    empty, and [get_instance] for any key then allocates a new Authority,
    at a reference unused before, with version [0] and no token. *)
Theorem close_all_teardown (w w' : world)
    (Hdone : Facade_close_all remote_raises w = (w', None)) :
  (exists logouts closes,
     net w' = net w ++ logouts ++ closes
     /\ Forall is_logout_event logouts
     /\ Forall is_close_event closes
     /\ (forall key m tok,
           dict.get key (tm_instances w) = Some m ->
           token_at w m = Some (Some tok) -> LogoutGet tok ∈ logouts)
     /\ (forall key f fac,
           dict.get key (facade_instances w) = Some f ->
           facades w !! f = Some fac -> Close (_api_client fac) ∈ closes))
  /\ (forall key m t0,
        dict.get key (tm_instances w) = Some m ->
        token_at w' m = Some t0 -> t0 = None)
  /\ tm_instances w' = [] /\ facade_instances w' = []
  /\ tm_global_lock w' = None /\ facade_lock w' = None
  /\ (forall api login pw key,
        let r := TokenManager_get_instance sha1_hexdigest api login pw key w' in
        exists m tm',
          r.2 = Some m
          /\ token_managers w !! m = None
          /\ token_managers r.1 !! m = Some tm'
          /\ TokenManager._token tm' = None
          /\ TokenManager._token_version tm' = 0
          /\ TokenManager._login tm' = login
          /\ TokenManager._key_id tm' = key).
Proof.
  unfold Facade_close_all in Hdone.
  destruct (logout_each_spec (dict.values (tm_instances w)) w)
    as (lo & N1 & F1 & L1 & Len1 & Fa1 & I1 & FI1 & T1).
  set (w1 := TokenManager_close_all w) in *.
  destruct (close_each_spec (dict.values (facade_instances w1)) w1)
    as (cl & N2 & F2 & T2 & Fa2 & I2 & G2 & C2 & _).
  destruct (close_each remote_raises _ w1) as [w2 [e|]] eqn:E; [done|].
  injection Hdone as <-. simpl in *.
  split; [|split; [|repeat split]].
  - exists lo, cl. rewrite N2. unfold w1, TokenManager_close_all. simpl.
    rewrite N1, <- app_assoc. repeat split; auto.
    + intros key m tok Hk. apply L1. by eapply dict_get_values.
    + intros key f fac Hk Hf. apply (C2 eq_refl f fac).
      * unfold w1, TokenManager_close_all; simpl. rewrite FI1.
        by eapply dict_get_values.
      * unfold w1, TokenManager_close_all; simpl. by rewrite Fa1.
  - intros key m t0 Hk. unfold token_at; simpl. rewrite T2.
    apply (T1 m). by eapply dict_get_values.
  - by rewrite I2.
  - by rewrite G2.
  - intros api login pw key. unfold TokenManager_get_instance; simpl.
    rewrite I2. simpl.
    exists (length (token_managers w2)),
      (TokenManager__init__ sha1_hexdigest api login pw key).
    assert (Hlen : length (token_managers w2) = length (token_managers w)).
    { rewrite T2. exact Len1. }
    split; [by rewrite dict_get_set_absent|].
    split; [apply lookup_ge_None; lia|].
    split; [|done].
    rewrite lookup_app_r by lia. by rewrite Nat.sub_diag.
Qed.

End RegistryFacts.


Lemma close_all_teardown_witness :
  let tm0 := TokenManager.mk 0 "user" "hash" "host:user" (Some "session") 3
               Lock.new (Event.set_flag Event.new) in
  let w := Registry.mk_world
             [Registry.mk_client "host" [("iikoCookieAuth", "session")] false]
             [tm0]
             [Registry.mk_facade (ApiCredentials.mk "host" "user" "pass") 0 (Some 0%nat)]
             [("host:user", 0%nat)] (Some Lock.new)
             [("host:user", 0%nat)] (Some Lock.new) [] in
  let w' := (Registry.Facade_close_all (fun _ => None) w).1 in
  Registry.tm_instances w' = [] /\ Registry.facade_instances w' = []
  /\ Registry.net w' = [Registry.LogoutGet "session"; Registry.Close 0]
  /\ exists m tm',
       (Registry.TokenManager_get_instance (fun p => p) 0 "user" "pass"
          "host:user" w').2 = Some m
       /\ Registry.token_managers w !! m = None
       /\ Registry.token_managers
            (Registry.TokenManager_get_instance (fun p => p) 0 "user" "pass"
               "host:user" w').1 !! m = Some tm'
       /\ TokenManager._token tm' = None
       /\ TokenManager._token_version tm' = 0.
Proof.
  intros tm0 w w'.
  assert (Hdone : Registry.Facade_close_all (fun _ => None) w = (w', None))
    by (vm_compute; reflexivity).
  destruct (close_all_teardown (fun p => p) (fun _ => None) w w' Hdone)
    as (_ & _ & A & B & _ & _ & C).
  split; [exact A|]. split; [exact B|].
  split; [vm_compute; reflexivity|].
  destruct (C 0%nat "user" "pass" "host:user")
    as (m & tm' & C1 & C2 & C3 & C4 & C5 & _).
  exists m, tm'. repeat split; assumption.
Defined.

(** ** The event loop *)

Section AsyncFacts.

Import Async.

Local Set Warnings "-clear-no-such-hyp".

(** ** The event loop: how the primitives act on the state *)

Lemma resolve_lock_fut_idemp tk : resolve_lock_fut (resolve_lock_fut tk) = resolve_lock_fut tk.
Proof. by destruct tk as [[] ?]. Qed.

Lemma resolve_event_fut_idemp tk : resolve_event_fut (resolve_event_fut tk) = resolve_event_fut tk.
Proof. by destruct tk as [[] ?]. Qed.

Lemma lookup_foldr_alter {A} (f : A -> A) (ws : list nat) (ts : list A) (i : nat) :
  (forall x, f (f x) = f x) ->
  foldr (fun w ts => alter f w ts) ts ws !! i
  = if decide (i ∈ ws) then f <$> ts !! i else ts !! i.
Proof.
  intros Hf. induction ws as [|w ws IH]; simpl.
  - destruct (decide (i ∈ [])) as [H|H]; [by apply elem_of_nil in H | done].
  - destruct (decide (w = i)) as [->|Hne].
    + rewrite list_lookup_alter_eq, IH.
      rewrite (decide_True (P := i ∈ i :: ws)) by left.
      destruct (decide (i ∈ ws)); [|done].
      destruct (ts !! i); simpl; by rewrite ?Hf.
    + rewrite list_lookup_alter_ne by done. rewrite IH.
      destruct (decide (i ∈ ws)) as [H|H].
      * rewrite decide_True; [done | by right].
      * rewrite decide_False; [done|].
        intros [?|?]%elem_of_cons; congruence.
Qed.

Lemma return_eq t k o s :
  return_ t k o s
  = mk_state (tm s) (api_key s) (facade_token_manager s)
      (<[t := mk_task (return_code k o) KTop]> (tasks s))
      (net s ++ return_calls t k o).
Proof.
  destruct s, k, o; unfold return_, set_task, set_tasks, invoke_api_call, log; simpl;
    by rewrite ?app_nil_r.
Qed.

Lemma lock_release_eq s :
  lock_release s
  = mk_state (TokenManager.with_lock (Lock.mk false (Lock._waiters (lock s))) (tm s))
      (api_key s) (facade_token_manager s)
      (match Lock._waiters (lock s) with
       | [] => tasks s
       | w :: _ => alter resolve_lock_fut w (tasks s)
       end)
      (net s).
Proof. unfold lock_release. by destruct (Lock._waiters (lock s)). Qed.

Lemma event_set_eq s :
  event_set s
  = mk_state (TokenManager.with_event (Event.mk true (Event._waiters (event s))) (tm s))
      (api_key s) (facade_token_manager s)
      (if Event._value (event s) then tasks s
       else foldr (fun w ts => alter resolve_event_fut w ts) (tasks s)
              (Event._waiters (event s)))
      (net s).
Proof.
  unfold event_set. destruct s as [[? ? ? ? ? ? ? [[] ?]] ? ? ? ?]; reflexivity.
Qed.

(** ** Mutual exclusion *)

Lemma owns_resolve_event_fut tk : owns (resolve_event_fut tk) = owns tk.
Proof. by destruct tk as [[] ?]. Qed.

Lemma holds_resolve_event_fut tk : holds (resolve_event_fut tk) = holds tk.
Proof. by destruct tk as [[] ?]. Qed.

Lemma handed_resolve_event_fut tk : handed (resolve_event_fut tk) = handed tk.
Proof. by destruct tk as [[] ?]. Qed.

Lemma holds_resolve_lock_fut tk : holds (resolve_lock_fut tk) = holds tk.
Proof. by destruct tk as [[] ?]. Qed.

Lemma owns_false tk : owns tk = false -> holds tk = false /\ handed tk = false.
Proof. unfold owns. by intros ?%orb_false_iff. Qed.

Lemma holds_owns tk : holds tk = true -> owns tk = true.
Proof. unfold owns. by intros ->. Qed.

Lemma handed_owns tk : handed tk = true -> owns tk = true.
Proof. unfold owns. intros ->. by rewrite orb_true_r. Qed.

(** Entering a turn of the loop. *)
Lemma running_inv_start t tk s :
  mutex_inv s -> tasks s !! t = Some tk -> running_inv t (owns tk) s.
Proof.
  intros [U L H] Ht. split.
  - intros i j ti tj _ _. apply U.
  - intros Ho i ti Hne Hi. destruct (owns ti) eqn:E; [|done].
    exfalso. apply Hne. by eapply U.
  - intros i ti _. apply L.
  - intros i ti _. apply H.
Qed.

Lemma running_inv_weaken t s : running_inv t true s -> running_inv t false s.
Proof. intros [U A L H]. by split. Qed.

(** Steps that leave the lock and the other tasks alone. *)
Lemma running_inv_ext t o s s' :
  tasks s' = tasks s -> lock s' = lock s ->
  running_inv t o s -> running_inv t o s'.
Proof. intros Et El [U A L H]. split; rewrite ?Et, ?El; done. Qed.

Lemma running_inv_lock_take t s :
  lock_free (lock s) = true -> running_inv t false s ->
  running_inv t true (lock_take s).
Proof.
  unfold lock_free. intros [Hl Hw]%andb_true_iff [U A L H].
  apply negb_true_iff in Hl. apply Nat.eqb_eq in Hw.
  apply length_zero_iff_nil in Hw.
  assert (N : forall i ti, i <> t -> tasks s !! i = Some ti -> owns ti = false).
  { intros i ti Hne Hi. unfold owns. apply orb_false_iff. split.
    - destruct (holds ti) eqn:E; [|done]. rewrite (L i ti Hne Hi E) in Hl. done.
    - destruct (handed ti) eqn:E; [|done]. specialize (H i ti Hne Hi E).
      rewrite Hw in H. by apply elem_of_nil in H. }
  split; simpl; auto.
Qed.

Lemma running_inv_lock_resume t s :
  running_inv t true s -> running_inv t true (lock_resume t s).
Proof.
  intros [U A L H]. split; simpl; auto.
  intros i ti Hne Hi Hh. apply handed_owns in Hh.
  by rewrite (A eq_refl i ti Hne Hi) in Hh.
Qed.

Lemma running_inv_lock_enqueue t o s :
  running_inv t o s -> running_inv t o (lock_enqueue t s).
Proof.
  intros [U A L H]. split; simpl; auto.
  intros i ti Hne Hi Hh. apply elem_of_app. left. by eapply H.
Qed.

Lemma running_inv_lock_release t s :
  running_inv t true s -> running_inv t false (lock_release s).
Proof.
  intros [U A L H]. specialize (A eq_refl). rewrite lock_release_eq.
  assert (K : forall i ti,
             i <> t ->
             match Lock._waiters (lock s) with
             | [] => tasks s
             | w :: _ => alter resolve_lock_fut w (tasks s)
             end !! i = Some ti ->
             holds ti = false
             /\ (handed ti = true -> head (Lock._waiters (lock s)) = Some i)).
  { intros i ti Hne. destruct (Lock._waiters (lock s)) as [|w ws]; simpl.
    - intros Hi. destruct (owns_false _ (A i ti Hne Hi)) as [-> ->]. done.
    - destruct (decide (w = i)) as [->|Hw].
      + rewrite list_lookup_alter_eq.
        destruct (tasks s !! i) as [tk|] eqn:Hi; [|done]. simpl. intros [= <-].
        rewrite holds_resolve_lock_fut.
        destruct (owns_false _ (A i tk Hne Hi)) as [-> _]. done.
      + rewrite list_lookup_alter_ne by done. intros Hi.
        destruct (owns_false _ (A i ti Hne Hi)) as [-> ->]. done. }
  split; simpl.
  - intros i j ti tj Hi Hj Li Lj Oi Oj.
    destruct (K i ti Hi Li) as [Hh1 Hd1]. destruct (K j tj Hj Lj) as [Hh2 Hd2].
    unfold owns in Oi, Oj. rewrite Hh1 in Oi. rewrite Hh2 in Oj. simpl in *.
    specialize (Hd1 Oi). specialize (Hd2 Oj). congruence.
  - done.
  - intros i ti Hne Hi Hh. destruct (K i ti Hne Hi) as [Hh1 _]. congruence.
  - intros i ti Hne Hi Hh. destruct (K i ti Hne Hi) as [_ Hd].
    specialize (Hd Hh). destruct (Lock._waiters (lock s)); simplify_eq/=. left.
Qed.

Lemma running_inv_event_set t o s :
  running_inv t o s -> running_inv t o (event_set s).
Proof.
  intros [U A L H]. rewrite event_set_eq.
  assert (K : forall i ti,
             (if Event._value (event s) then tasks s
              else foldr (fun w ts => alter resolve_event_fut w ts) (tasks s)
                     (Event._waiters (event s))) !! i = Some ti ->
             exists tk, tasks s !! i = Some tk
                        /\ holds ti = holds tk /\ handed ti = handed tk).
  { intros i ti. destruct (Event._value (event s)); [by eauto|].
    rewrite lookup_foldr_alter by apply resolve_event_fut_idemp.
    destruct (decide _); [|by eauto].
    destruct (tasks s !! i) as [tk|]; [|done]. simpl. intros [= <-].
    exists tk. by rewrite holds_resolve_event_fut, handed_resolve_event_fut. }
  split; simpl.
  - intros i j ti tj Hi Hj Li Lj Oi Oj.
    destruct (K i ti Li) as (ti' & Li' & E1 & E2).
    destruct (K j tj Lj) as (tj' & Lj' & E3 & E4).
    unfold owns in *. rewrite E1, E2 in Oi. rewrite E3, E4 in Oj.
    by eapply (U i j ti' tj').
  - intros Ho i ti Hne Li. destruct (K i ti Li) as (ti' & Li' & E1 & E2).
    unfold owns. rewrite E1, E2. by apply (A Ho i ti').
  - intros i ti Hne Li Hh. destruct (K i ti Li) as (ti' & Li' & E1 & E2).
    rewrite E1 in Hh. by apply (L i ti').
  - intros i ti Hne Li Hh. destruct (K i ti Li) as (ti' & Li' & E1 & E2).
    rewrite E2 in Hh. by apply (H i ti').
Qed.

(** Leaving a turn of the loop: the frame of the running task is stored. *)
Lemma running_inv_set_task t o c k s :
  running_inv t o s ->
  (owns (mk_task c k) = true -> o = true) ->
  handed (mk_task c k) = false ->
  (holds (mk_task c k) = true -> Lock._locked (lock s) = true) ->
  mutex_inv (set_task t c k s).
Proof.
  intros [U A L H] Ho Hn Hl.
  assert (K : forall i ti, tasks (set_task t c k s) !! i = Some ti ->
                           (i = t /\ ti = mk_task c k)
                           \/ (i <> t /\ tasks s !! i = Some ti)).
  { intros i ti. simpl. destruct (decide (i = t)) as [->|Hne].
    - intros Hi. left. split; [done|].
      apply list_lookup_insert_Some in Hi as [(_ & <- & _)|[? _]]; done.
    - rewrite list_lookup_insert_ne by done. auto. }
  split.
  - intros i j ti tj Li Lj Oi Oj.
    destruct (K i ti Li) as [[-> ->]|[Hi Li']];
      destruct (K j tj Lj) as [[-> ->]|[Hj Lj']]; [done| | |by eapply U].
    + rewrite (A (Ho Oi) j tj Hj Lj') in Oj. done.
    + rewrite (A (Ho Oj) i ti Hi Li') in Oi. done.
  - intros i ti Li Hh. destruct (K i ti Li) as [[-> ->]|[Hi Li']]; [by apply Hl|].
    by apply (L i ti).
  - intros i ti Li Hh. destruct (K i ti Li) as [[-> ->]|[Hi Li']]; [congruence|].
    by apply (H i ti).
Qed.

Lemma running_inv_log t o ev s : running_inv t o s -> running_inv t o (log ev s).
Proof. by apply running_inv_ext. Qed.

Lemma running_inv_set_api_key t o k s :
  running_inv t o s -> running_inv t o (set_api_key k s).
Proof. by apply running_inv_ext. Qed.

Lemma running_inv_event_clear t o s :
  running_inv t o s -> running_inv t o (event_clear s).
Proof. by apply running_inv_ext. Qed.

Lemma running_inv_event_enqueue t o u s :
  running_inv t o s -> running_inv t o (event_enqueue u s).
Proof. by apply running_inv_ext. Qed.

Lemma running_inv_event_resume t o u s :
  running_inv t o s -> running_inv t o (event_resume u s).
Proof. by apply running_inv_ext. Qed.

Lemma running_inv_set_token t o tok s :
  running_inv t o s -> running_inv t o (_set_token tok s).
Proof. by apply running_inv_ext. Qed.

Lemma running_inv_bump_version t o s :
  running_inv t o s -> running_inv t o (bump_version s).
Proof. by apply running_inv_ext. Qed.

Lemma running_inv_clear_token t o s :
  running_inv t o s -> running_inv t o (clear_token s).
Proof. by apply running_inv_ext. Qed.

Lemma running_inv_fetch_token_start t o u s :
  running_inv t o s -> running_inv t o (fetch_token_start u s).
Proof. by apply running_inv_ext. Qed.

Lemma running_inv_bind t o s :
  running_inv t o s ->
  running_inv t o (mk_state (tm s) (api_key s) true (tasks s) (net s)).
Proof. by apply running_inv_ext. Qed.

Lemma running_inv_return t o k r s :
  running_inv t o s -> mutex_inv (return_ t k r s).
Proof.
  intros J. destruct k, r; unfold return_, invoke_api_call;
    (eapply running_inv_set_task; [try apply running_inv_log; exact J|..]);
    done.
Qed.

Ltac mutex_walk :=
  repeat lazymatch goal with
    | |- running_inv _ _ (log _ _) => apply running_inv_log
    | |- running_inv _ _ (set_api_key _ _) => apply running_inv_set_api_key
    | |- running_inv _ _ (event_clear _) => apply running_inv_event_clear
    | |- running_inv _ _ (event_enqueue _ _) => apply running_inv_event_enqueue
    | |- running_inv _ _ (event_resume _ _) => apply running_inv_event_resume
    | |- running_inv _ _ (_set_token _ _) => apply running_inv_set_token
    | |- running_inv _ _ (bump_version _) => apply running_inv_bump_version
    | |- running_inv _ _ (clear_token _) => apply running_inv_clear_token
    | |- running_inv _ _ (fetch_token_start _ _) =>
        apply running_inv_fetch_token_start
    | |- running_inv _ _ (mk_state _ _ true _ _) => apply running_inv_bind
    | |- running_inv _ _ (event_set _) => apply running_inv_event_set
    | |- running_inv _ _ (lock_enqueue _ _) => apply running_inv_lock_enqueue
    | |- running_inv _ _ (lock_release _) => apply running_inv_lock_release
    | |- running_inv _ _ (lock_resume _ _) => apply running_inv_lock_resume
    | |- running_inv _ _ (lock_take _) =>
        apply running_inv_lock_take; [assumption|]
    | |- running_inv _ _ _ =>
        first [eassumption | apply running_inv_weaken; eassumption]
    end.

Ltac case_step H :=
  repeat match type of H with
         | context [match ?x with _ => _ end] => destruct x eqn:?; try done
         end.

Ltac unfold_coroutines :=
  unfold _ensure_token_manager, execute_with_retry_resumed;
  unfold ensure_token, refresh_token_if_401, logout, logout_done,
    ensure_token_fetched, refresh_fetched;
  unfold ensure_token_locked, refresh_locked.

Lemma mutex_inv_step a s s' : mutex_inv s -> step a s = Some s' -> mutex_inv s'.
Proof.
  intros I H. destruct a as [t|t r|t r|t o]; simpl in H.
  - unfold resume in H.
    destruct (tasks s !! t) as [[c k]|] eqn:Ht; [|done]. simpl in H.
    pose proof (running_inv_start t _ s I Ht) as J.
    destruct c; try done; case_step H; injection H as <-;
      unfold owns, holds, handed in J; simpl in J;
      unfold_coroutines;
      repeat match goal with
             | |- context [match ?x with _ => _ end] => destruct x eqn:?
             end.
    all: try (eapply running_inv_return; mutex_walk; fail).
    all: try (eapply running_inv_set_task; [mutex_walk|..]; done).
  - destruct (tasks s !! t) as [[c k]|] eqn:Ht; [|done].
    pose proof (running_inv_start t _ s I Ht) as J.
    destruct c; try done; case_step H; injection H as <-;
      (eapply running_inv_set_task; [exact J|done|done|]);
      intros _; by eapply (mi_locked s I t).
  - destruct (tasks s !! t) as [[c k]|] eqn:Ht; [|done].
    pose proof (running_inv_start t _ s I Ht) as J.
    destruct c; try done; case_step H; injection H as <-;
      (eapply running_inv_set_task; [exact J|done..]).
  - destruct (tasks s !! t) as [[c k]|] eqn:Ht; [|done].
    pose proof (running_inv_start t _ s I Ht) as J.
    destruct c; try done; case_step H; injection H as <-;
      (eapply running_inv_set_task; [exact J|done..]).
Qed.

Lemma mutex_inv_exec sch s s' : mutex_inv s -> exec sch s = Some s' -> mutex_inv s'.
Proof.
  revert s. induction sch as [|a sch IH]; intros s I H; simpl in H.
  - by injection H as <-.
  - destruct (step a s) as [s1|] eqn:E; [|done].
    eapply IH; [|done]. by eapply mutex_inv_step.
Qed.

Lemma mutex_inv_spawn m key bound cs lg :
  forallb entry_frame cs = true ->
  mutex_inv (mk_state m key bound (spawn cs) lg).
Proof.
  intros Hcs.
  assert (N : forall i ti, spawn cs !! i = Some ti -> owns ti = false).
  { intros i ti. unfold spawn. rewrite list_lookup_fmap.
    destruct (cs !! i) as [c|] eqn:Hc; [|done]. simpl. intros [= <-].
    assert (Hin : In c cs) by (apply list_elem_of_In; by eapply list_elem_of_lookup_2).
    pose proof (proj1 (forallb_forall _ _) Hcs c Hin) as He.
    by destruct c. }
  split; simpl.
  - intros i j ti tj Hi Hj Oi. by rewrite (N i ti Hi) in Oi.
  - intros i ti Hi Hh. apply holds_owns in Hh. by rewrite (N i ti Hi) in Hh.
  - intros i ti Hi Hh. apply handed_owns in Hh. by rewrite (N i ti Hi) in Hh.
Qed.

Lemma filter_none {A} (P : A -> Prop) `{forall x, Decision (P x)} (l : list A) :
  (forall y, y ∈ l -> ~ P y) -> filter P l = [].
Proof.
  induction l as [|x l IH]; intros N; [done|].
  rewrite filter_cons. rewrite decide_False by (apply N; left).
  apply IH. intros y Hy. apply N. by right.
Qed.

Lemma filter_at_most_one {A} (P : A -> Prop) `{forall x, Decision (P x)}
    (l : list A) :
  (forall i j a b, l !! i = Some a -> l !! j = Some b -> P a -> P b -> i = j) ->
  (length (filter P l) <= 1)%nat.
Proof.
  induction l as [|x l IH]; intros U; [simpl; lia|].
  assert (U' : forall i j a b, l !! i = Some a -> l !! j = Some b ->
                               P a -> P b -> i = j).
  { intros i j a b Hi Hj Pa Pb.
    assert (S i = S j) by (by eapply (U (S i) (S j) a b)). lia. }
  rewrite filter_cons. destruct (decide (P x)) as [Px|Px]; [|by apply IH].
  rewrite filter_none; [simpl; lia|].
  intros y Hy Py. apply list_elem_of_lookup in Hy as [j Hj].
  assert (0%nat = S j); [|lia]. by eapply (U 0%nat (S j) x y).
Qed.

Lemma mutex_inv_in_flight s : mutex_inv s -> (in_flight s <= 1)%nat.
Proof.
  intros [U _ _]. unfold in_flight. apply filter_at_most_one.
  intros i j a b Hi Hj Pa Pb. eapply U; try done.
  - apply holds_owns. by destruct a as [[| |[]| | | |?[]| | | | | ] ?].
  - apply holds_owns. by destruct b as [[| |[]| | | |?[]| | | | | ] ?].
Qed.

(** ** Coalescing of concurrent refreshes *)

Lemma auth_calls_log_auth s t l p :
  auth_calls (log (AuthGet t l p) s) = S (auth_calls s).
Proof.
  unfold auth_calls. simpl. rewrite filter_app, length_app. simpl. lia.
Qed.

Ltac fields :=
  repeat (progress (unfold version, lock, event, token, auth_calls in *; simpl in * )).

Lemma phase_idle_step v0 a s s' :
  phase_idle v0 s -> step a s = Some s' ->
  enters_at v0 a s = true -> reply_ok a = true -> phase v0 s'.
Proof.
  intros (Hv & He & Hl & Hc & Ht) H Hent Hok.
  assert (K : forall t tk, tasks s !! t = Some tk -> refresh_task_entry tk).
  { intros t tk Hk. by eapply (proj1 (Forall_lookup _ _) Ht). }
  destruct a as [t|t r|t r|t o]; simpl in H.
  - unfold resume in H. destruct (tasks s !! t) as [tk|] eqn:Hk; [|done].
    destruct (K t tk Hk) as (e & -> & H401). simpl in H. injection H as <-.
    right. left. exists t.
    unfold refresh_token_if_401. rewrite H401. simpl.
    unfold Event.is_set. rewrite He, Hl. simpl.
    unfold refresh_locked. simpl.
    replace (TokenManager._token_version (tm s)) with (version s) by done.
    rewrite Z.eqb_refl. simpl.
    unfold phase_fetching. fields.
    split; [done|]. split; [done|]. split; [by rewrite Hl|].
    split; [by rewrite filter_app, length_app, Hc|].
    split.
    + exists None. split; [|by left]. rewrite Hv.
      apply list_lookup_insert_eq. by eapply lookup_lt_Some.
    + intros i tk Hne Hi. rewrite list_lookup_insert_ne in Hi by done.
      left. by eapply K.
  - destruct (tasks s !! t) as [tk|] eqn:Hk; [|done].
    by destruct (K t tk Hk) as (e & -> & H401).
  - destruct (tasks s !! t) as [tk|] eqn:Hk; [|done].
    by destruct (K t tk Hk) as (e & -> & H401).
  - destruct (tasks s !! t) as [tk|] eqn:Hk; [|done].
    by destruct (K t tk Hk) as (e & -> & H401).
Qed.

Lemma phase_fetching_step v0 t0 a s s' :
  phase_fetching v0 t0 s -> step a s = Some s' ->
  enters_at v0 a s = true -> reply_ok a = true -> phase v0 s'.
Proof.
  intros (Hv & He & Hl & Hc & (fut & H0 & Hfut) & Ht) H Hent Hok.
  destruct a as [t|t r|t r|t o]; simpl in H.
  - unfold resume in H. destruct (decide (t = t0)) as [->|Hne].
    + (* the fetching task resumes *)
      rewrite H0 in H. simpl in H.
      destruct Hfut as [->|[tok ->]]; [done|]. injection H as <-.
      right. right. unfold refresh_fetched.
      rewrite return_eq, lock_release_eq, event_set_eq. simpl.
      unfold phase_done. fields. rewrite Hl, He. simpl.
      split; [lia|]. split; [done|]. split; [done|].
      split; [by rewrite app_nil_r|]. split; [by eexists|].
      apply Forall_lookup. intros i tk Hi.
      destruct (decide (i = t0)) as [->|Hi0].
      * apply list_lookup_insert_Some in Hi as [(_ & <- & _)|[? _]]; [|done].
        right. by right.
      * rewrite list_lookup_insert_ne in Hi by done.
        rewrite lookup_foldr_alter in Hi by apply resolve_event_fut_idemp.
        destruct (tasks s !! i) as [tk0|] eqn:Hk;
          [|by destruct (decide (i ∈ _))].
        destruct (Ht i tk0 Hi0 Hk) as [(e & -> & H401)|[-> Hw]].
        -- left. exists e. split; [|done].
           destruct (decide (i ∈ _)); by simplify_eq/=.
        -- right. left. rewrite decide_True in Hi by done. by simplify_eq/=.
    + destruct (tasks s !! t) as [tk|] eqn:Hk; [|done].
      destruct (Ht t tk Hne Hk) as [(e & -> & H401)|[-> Hw]]; [|done].
      simpl in H. injection H as <-. right. left. exists t0.
      unfold refresh_token_if_401. rewrite H401. simpl.
      unfold Event.is_set. rewrite He. simpl.
      unfold phase_fetching. fields.
      split; [done|]. split; [done|]. split; [done|]. split; [done|].
      split.
      * exists fut. split; [|done]. by rewrite list_lookup_insert_ne.
      * intros i tk Hi0 Hi. destruct (decide (i = t)) as [->|Hit].
        -- apply list_lookup_insert_Some in Hi as [(_ & <- & _)|[? _]]; [|done].
           right. split; [by rewrite Hv|]. apply elem_of_app. right. left.
        -- rewrite list_lookup_insert_ne in Hi by done.
           destruct (Ht i tk Hi0 Hi) as [?|[-> Hw]]; [by left|].
           right. split; [done|]. apply elem_of_app. by left.
  - (* the reply to the authentication request *)
    destruct (decide (t = t0)) as [->|Hne].
    + rewrite H0 in H. destruct Hfut as [->|[tok ->]]; [|done].
      injection H as <-. destruct r as [exc|tok]; [done|].
      right. left. exists t0. unfold phase_fetching. fields.
      split; [done|]. split; [done|]. split; [done|]. split; [done|].
      split.
      * exists (Some (inr tok)). split; [|by eauto].
        apply list_lookup_insert_eq. by eapply lookup_lt_Some.
      * intros i tk Hi0 Hi. rewrite list_lookup_insert_ne in Hi by done.
        by apply Ht.
    + destruct (tasks s !! t) as [tk|] eqn:Hk; [|done].
      by destruct (Ht t tk Hne Hk) as [(e & -> & H401)|[-> Hw]].
  - destruct (decide (t = t0)) as [->|Hne]; [by rewrite H0 in H|].
    destruct (tasks s !! t) as [tk|] eqn:Hk; [|done].
    by destruct (Ht t tk Hne Hk) as [(e & -> & H401)|[-> Hw]].
  - destruct (decide (t = t0)) as [->|Hne]; [by rewrite H0 in H|].
    destruct (tasks s !! t) as [tk|] eqn:Hk; [|done].
    by destruct (Ht t tk Hne Hk) as [(e & -> & H401)|[-> Hw]].
Qed.

Lemma phase_done_step v0 a s s' :
  phase_done v0 s -> step a s = Some s' ->
  enters_at v0 a s = true -> reply_ok a = true -> phase v0 s'.
Proof.
  intros (Hv & He & Hl & Hc & Htok & Ht) H Hent Hok.
  assert (K : forall t tk, tasks s !! t = Some tk ->
     refresh_task_entry tk
     \/ tk = mk_task (refresh_wait v0 true) KTop
     \/ tk = mk_task (finished (Returned (VBool true))) KTop).
  { intros t tk Hk. by eapply (proj1 (Forall_lookup _ _) Ht). }
  destruct a as [t|t r|t r|t o]; simpl in H.
  - unfold resume in H. simpl in Hent.
    destruct (tasks s !! t) as [tk|] eqn:Hk; [|done].
    destruct (K t tk Hk) as [(e & -> & H401)|[->| ->]]; [| |done].
    + apply Z.eqb_eq in Hent. lia.
    + simpl in H. injection H as <-. right. right.
      rewrite return_eq. unfold phase_done. fields.
      split; [done|]. split; [done|]. split; [done|].
      split; [by rewrite app_nil_r|]. split; [done|].
      apply Forall_insert; [done|]. right. by right.
  - destruct (tasks s !! t) as [tk|] eqn:Hk; [|done].
    by destruct (K t tk Hk) as [(e & -> & H401)|[->| ->]].
  - destruct (tasks s !! t) as [tk|] eqn:Hk; [|done].
    by destruct (K t tk Hk) as [(e & -> & H401)|[->| ->]].
  - destruct (tasks s !! t) as [tk|] eqn:Hk; [|done].
    by destruct (K t tk Hk) as [(e & -> & H401)|[->| ->]].
Qed.

Lemma phase_step v0 a s s' :
  phase v0 s -> step a s = Some s' ->
  enters_at v0 a s = true -> reply_ok a = true -> phase v0 s'.
Proof.
  intros [P|[[t0 P]|P]].
  - by apply phase_idle_step.
  - by apply (phase_fetching_step v0 t0).
  - by apply phase_done_step.
Qed.

Lemma phase_exec v0 sch s s' :
  phase v0 s -> exec sch s = Some s' ->
  entries_at v0 sch s = true -> auth_succeeds sch = true -> phase v0 s'.
Proof.
  revert s. induction sch as [|a sch IH]; intros s P H Hent Hok; simpl in *.
  - by injection H as <-.
  - destruct (step a s) as [s1|] eqn:E; [|done].
    apply andb_true_iff in Hent as [He1 He2].
    apply andb_true_iff in Hok as [Ho1 Ho2].
    apply (IH s1); try done. by eapply phase_step.
Qed.

Lemma phase_idle_refresh_all login hash kid tok v0 key bound errs :
  forallb is_401 errs = true ->
  phase_idle v0 (refresh_all (idle_tm login hash kid tok v0) key bound errs).
Proof.
  intros H. unfold phase_idle, refresh_all. simpl.
  repeat split; try done.
  unfold spawn. rewrite <- list_fmap_compose.
  apply Forall_fmap. apply Forall_forall. intros e He.
  exists e. split; [done|].
  apply (proj1 (forallb_forall _ _) H). by apply list_elem_of_In.
Qed.

Lemma phase_all_finished v0 s :
  phase v0 s -> tasks s <> [] -> all_finished s = true ->
  auth_calls s = 1%nat
  /\ Forall (fun tk => tk = mk_task (finished (Returned (VBool true))) KTop)
       (tasks s).
Proof.
  unfold all_finished. intros P Hne Hf.
  assert (F : forall tk, tk ∈ tasks s -> is_finished tk = true).
  { intros tk Hin. apply (proj1 (forallb_forall _ _) Hf).
    by apply list_elem_of_In. }
  destruct P as [P|[[t0 P]|P]].
  - destruct P as (_ & _ & _ & _ & Ht).
    destruct (tasks s) as [|tk ts] eqn:E; [done|].
    apply Forall_cons in Ht as [(e & -> & _) _].
    specialize (F _ ltac:(left)). done.
  - destruct P as (_ & _ & _ & _ & (fut & H0 & _) & _).
    apply list_elem_of_lookup_2 in H0. specialize (F _ H0). done.
  - destruct P as (_ & _ & _ & Hc & _ & Ht). split; [done|].
    apply Forall_forall. intros tk Hin.
    specialize (F tk Hin).
    destruct (proj1 (Forall_forall _ _) Ht tk Hin)
      as [(e & -> & _)|[->| ->]]; done.
Qed.

(** ** The retry wrapper *)

Lemma execute_view_view rs fs n otk :
  execute_view rs fs n (view <$> otk) <-> execute_view rs fs n otk.
Proof. destruct otk as [[[] []]|]; done. Qed.

Lemma view_resolve_lock_fut tk : view (resolve_lock_fut tk) = view tk.
Proof. by destruct tk as [[] ?]. Qed.

Lemma view_resolve_event_fut tk : view (resolve_event_fut tk) = view tk.
Proof. by destruct tk as [[] ?]. Qed.

Lemma vlook_insert_ne t u x ts : t <> u -> vlook t (<[u := x]> ts) = vlook t ts.
Proof. intros H. unfold vlook. by rewrite list_lookup_insert_ne. Qed.

Lemma vlook_alter (f : task -> task) t w ts :
  (forall tk, view (f tk) = view tk) -> vlook t (alter f w ts) = vlook t ts.
Proof.
  intros Hf. unfold vlook. destruct (decide (w = t)) as [->|Hne].
  - rewrite list_lookup_alter_eq. destruct (ts !! t); simpl; by rewrite ?Hf.
  - by rewrite list_lookup_alter_ne.
Qed.

Lemma vlook_wake_head t ws ts :
  vlook t (match ws with [] => ts | w :: _ => alter resolve_lock_fut w ts end)
  = vlook t ts.
Proof. destruct ws; [done|]. apply vlook_alter, view_resolve_lock_fut. Qed.

Lemma vlook_wake_all t (b : bool) ws ts :
  vlook t (if b then ts
           else foldr (fun w ts => alter resolve_event_fut w ts) ts ws)
  = vlook t ts.
Proof.
  destruct b; [done|]. induction ws as [|w ws IH]; simpl; [done|].
  rewrite vlook_alter by apply view_resolve_event_fut. done.
Qed.

Lemma length_wake_head ws (ts : list task) :
  length (match ws with [] => ts | w :: _ => alter resolve_lock_fut w ts end)
  = length ts.
Proof. destruct ws; [done|]. apply length_alter. Qed.

Lemma length_wake_all (b : bool) ws (ts : list task) :
  length (if b then ts
          else foldr (fun w ts => alter resolve_event_fut w ts) ts ws)
  = length ts.
Proof.
  destruct b; [done|]. induction ws as [|w ws IH]; simpl; [done|].
  by rewrite length_alter.
Qed.

Lemma api_calls_app t s evs m key bound ts :
  api_calls t (mk_state m key bound ts (net s ++ evs))
  = (api_calls t s + length (filter (is_api_call_of t) evs))%nat.
Proof. unfold api_calls. simpl. by rewrite filter_app, length_app. Qed.

Lemma filter_return_calls_other t u k o :
  u <> t -> filter (is_api_call_of t) (return_calls u k o) = [].
Proof.
  intros Hne. destruct k, o; simpl; try done;
    (rewrite filter_cons, decide_False; [done|]);
    simpl; intros Hx%Is_true_true%Nat.eqb_eq; congruence.
Qed.

Lemma filter_return_calls_self t k o :
  length (filter (is_api_call_of t) (return_calls t k o))
  = length (return_calls t k o).
Proof.
  destruct k, o; simpl; try done;
    (rewrite filter_cons, decide_True; [done|]);
    simpl; by rewrite Nat.eqb_refl.
Qed.

Lemma filter_api_call_other t u :
  u <> t -> filter (is_api_call_of t) [ApiCall u] = [].
Proof.
  intros Hne. rewrite filter_cons, decide_False; [done|].
  simpl. intros Hx%Is_true_true%Nat.eqb_eq. congruence.
Qed.

Lemma filter_api_call_self t :
  filter (is_api_call_of t) [ApiCall t] = [ApiCall t].
Proof.
  rewrite filter_cons, decide_True; [done|]. simpl. by rewrite Nat.eqb_refl.
Qed.

Ltac normal_form :=
  repeat (rewrite return_eq || rewrite lock_release_eq || rewrite event_set_eq);
  simpl.

Ltac other_task_done Hne :=
  simpl; split;
  [ rewrite ?vlook_insert_ne by done;
    rewrite ?vlook_wake_head, ?vlook_wake_all; done
  | unfold api_calls; simpl;
    rewrite ?filter_app, ?length_app, ?(filter_return_calls_other _ _ _ _ Hne),
      ?(filter_api_call_other _ _ Hne);
    simpl; lia ].

(** Another task's turn leaves task [t] where it is. *)
Lemma step_other t a s s' :
  step a s = Some s' -> actor a <> t ->
  vlook t (tasks s') = vlook t (tasks s) /\ api_calls t s' = api_calls t s.
Proof.
  intros H Hne. destruct a as [u|u r|u r|u o]; simpl in H, Hne.
  - unfold resume in H.
    destruct (tasks s !! u) as [[c k]|] eqn:Hu; [|done]. simpl in H.
    destruct c; try done; case_step H; injection H as <-;
      unfold_coroutines;
      repeat match goal with
             | |- context [match ?x with _ => _ end] => destruct x eqn:?
             end.
    all: normal_form.
    all: other_task_done Hne.
  - destruct (tasks s !! u) as [[c k]|] eqn:Hu; [|done].
    destruct c; try done; case_step H; injection H as <-; other_task_done Hne.
  - destruct (tasks s !! u) as [[c k]|] eqn:Hu; [|done].
    destruct c; try done; case_step H; injection H as <-; other_task_done Hne.
  - destruct (tasks s !! u) as [[c k]|] eqn:Hu; [|done].
    destruct c; try done; case_step H; injection H as <-; other_task_done Hne.
Qed.

Lemma api_replies_other t a : actor a <> t -> api_replies t [a] = [].
Proof.
  destruct a as [u|u r|u r|u o]; simpl; try done.
  intros Hne. destruct (Nat.eqb_spec t u); congruence.
Qed.

Lemma auth_failures_other t a : actor a <> t -> auth_failures t [a] = [].
Proof.
  destruct a as [u|u [exc|tok]|u r|u o]; simpl; try done.
  intros Hne. destruct (Nat.eqb_spec t u); congruence.
Qed.

Lemma auth_failures_cons t a sch :
  auth_failures t (a :: sch) = auth_failures t [a] ++ auth_failures t sch.
Proof.
  destruct a as [u|u [exc|tok]|u r|u o]; simpl; try done.
  by destruct (t =? u)%nat.
Qed.

Lemma api_replies_cons t a sch :
  api_replies t (a :: sch) = api_replies t [a] ++ api_replies t sch.
Proof.
  destruct a as [u|u r|u r|u o]; simpl; try done.
  by destruct (t =? u)%nat.
Qed.

Lemma is_401_unauthorized e : is_unauthorized e = true -> is_401 e = true.
Proof. unfold is_401. by intros ->. Qed.

Lemma is_401_status e : status_is_401 (error_status e) = true -> is_401 e = true.
Proof. unfold is_401. intros ->. by rewrite orb_true_r. Qed.

Lemma is_401_neither e :
  is_unauthorized e = false -> status_is_401 (error_status e) = false ->
  is_401 e = false.
Proof. unfold is_401. by intros -> ->. Qed.

Ltac learn_401 :=
  repeat match goal with
    | H : is_unauthorized ?e = true |- _ =>
        pose proof (is_401_unauthorized e H); clear H
    | H1 : is_unauthorized ?e = false,
      H2 : status_is_401 (error_status ?e) = true |- _ =>
        pose proof (is_401_status e H2); clear H2
    | H1 : is_unauthorized ?e = false,
      H2 : status_is_401 (error_status ?e) = false |- _ =>
        pose proof (is_401_neither e H1 H2); clear H1 H2
    | H : negb _ = true |- _ => apply negb_true_iff in H
    | H : negb _ = false |- _ => apply negb_false_iff in H
    end.

Ltac own_lookup Hu :=
  rewrite list_lookup_insert_eq
    by (rewrite ?length_wake_head, ?length_wake_all;
        eapply lookup_lt_Some; exact Hu).

Lemma execute_ok_step t a s s' rs fs :
  execute_ok t rs fs s -> step a s = Some s' ->
  execute_ok t (rs ++ api_replies t [a]) (fs ++ auth_failures t [a]) s'.
Proof.
  intros Hok H.
  destruct (decide (actor a = t)) as [Heq|Hne].
  2:{ rewrite api_replies_other, auth_failures_other, !app_nil_r by done.
      destruct (step_other t a s s' H Hne) as [Hv Hc].
      unfold execute_ok, vlook in *. rewrite Hc.
      apply execute_view_view. rewrite Hv. by apply execute_view_view. }
  unfold execute_ok in Hok.
  destruct (tasks s !! t) as [[c k]|] eqn:Hu; [|done].
  destruct a as [u|u r|u r|u o]; simpl in Heq; subst u; simpl in H.
  - unfold resume in H. rewrite Hu in H. simpl in H. rewrite !app_nil_r.
    destruct c, k; try done; simpl in Hok; case_step H; injection H as <-;
      unfold_coroutines;
      repeat match goal with
             | |- context [match ?x with _ => _ end] => destruct x eqn:?
             end.
    all: normal_form; unfold execute_ok; simpl.
    all: try own_lookup Hu.
    all: unfold api_calls in *; simpl;
      rewrite ?filter_app, ?length_app, ?filter_api_call_self; simpl.
    all: learn_401; unfold execute_result, raised_by_fetch in *.
    all: try (naive_solver (eauto with lia)).
    all: destruct retried; naive_solver.
  - rewrite Hu in H. destruct c; try done; case_step H; injection H as <-;
      rewrite app_nil_r; unfold execute_ok; simpl; own_lookup Hu;
      rewrite Nat.eqb_refl; destruct k; try done; simpl in *;
      destruct r; simpl; naive_solver.
  - rewrite Hu in H. destruct c; try done; case_step H; injection H as <-;
      rewrite !app_nil_r; unfold execute_ok; simpl; own_lookup Hu;
      by destruct k.
  - rewrite Hu in H. destruct c; try done; case_step H; injection H as <-;
      simpl; rewrite Nat.eqb_refl, app_nil_r; unfold execute_ok; simpl;
      own_lookup Hu;
      destruct k; try done; destruct retried; simpl in *; naive_solver.
Qed.

Lemma execute_ok_exec t sch s s' rs fs :
  execute_ok t rs fs s -> exec sch s = Some s' ->
  execute_ok t (rs ++ api_replies t sch) (fs ++ auth_failures t sch) s'.
Proof.
  revert s rs fs. induction sch as [|a sch IH]; intros s rs fs Hok H; simpl in H.
  - injection H as <-. by rewrite !app_nil_r.
  - destruct (step a s) as [s1|] eqn:E; [|done].
    rewrite api_replies_cons, auth_failures_cons, !app_assoc.
    eapply IH; [|done]. by eapply execute_ok_step.
Qed.

Ltac split_view H :=
  match type of H with
  | execute_view _ _ _ ?otk =>
      destruct otk as [[c k]|]; [|done];
      destruct c as [| | | | | | | | | |retried fut|], k; try done;
      try (destruct retried, fut); simpl in H; unfold execute_result in H
  end.

Lemma execute_view_calls rs fs n otk : execute_view rs fs n otk -> (n <= 2)%nat.
Proof. intros H. split_view H; naive_solver (eauto with lia). Qed.

Lemma execute_view_first_not_401 rs fs n otk e rest :
  execute_view rs fs n otk -> rs = Raised e :: rest -> is_401 e = false ->
  rest = [] /\ n = 1%nat
  /\ (otk = Some (mk_task (execute_api_call false (Some (Raised e))) KTop)
      \/ otk = Some (mk_task (finished (Raised e)) KTop)).
Proof. intros H. split_view H; naive_solver (eauto; congruence). Qed.

Lemma api_calls_set_task t u c k s :
  api_calls t (set_task u c k s) = api_calls t s.
Proof. done. Qed.

Lemma tasks_set_task t c k s tk :
  tasks s !! t = Some tk ->
  tasks (set_task t c k s) !! t = Some (mk_task c k).
Proof.
  intros Hu. unfold set_task, set_tasks. simpl.
  apply list_lookup_insert_eq. by eapply lookup_lt_Some.
Qed.

Lemma next_turn_any t s : next_turn t s.
Proof.
  unfold next_turn. destruct (tasks s !! t) as [[c k]|] eqn:Hu; [|done].
  destruct c as [| | | |vb [] |vb [] |vb [[exc|tok]|] | | | |[] [[v|e]|] |], k;
    try done.
  all: try destruct (is_401 e) eqn:H401.
  all: try done.
  all: simpl; unfold resume; rewrite Hu; simpl.
  all: try done.
  all: unfold_coroutines.
  all: rewrite ?H401; simpl.
  all: try (unfold is_401 in H401;
            destruct (is_unauthorized e), (status_is_401 (error_status e));
            try done; simpl).
  all: try change (version (lock_take s)) with (version s).
  all: try change (version (lock_resume t s)) with (version s).
  all: rewrite ?Z.eqb_refl; simpl.
  all: repeat match goal with
              | |- context [if ?x then _ else _] => destruct x eqn:?
              end.
  all: unfold refresh_entered.
  all: repeat (eexists; try (split; [reflexivity|])).
  all: normal_form; unfold set_task, set_tasks; simpl.
  all: try own_lookup Hu.
  all: unfold api_calls, token; simpl;
    rewrite ?filter_app, ?length_app, ?filter_api_call_self; simpl.
  all: naive_solver (eauto with lia).
Qed.

Lemma exec_cons a rest s s1 :
  step a s = Some s1 -> exec (a :: rest) s = exec rest s1.
Proof.
  intros H.
  change (exec (a :: rest) s)
    with (match step a s with Some s1 => exec rest s1 | None => None end).
  by rewrite H.
Qed.

Lemma api_reply_step t b o s :
  tasks s !! t = Some (mk_task (execute_api_call b None) KTop) ->
  step (ApiReply t o) s
  = Some (set_task t (execute_api_call b (Some o)) KTop s).
Proof. intros Hu. simpl. by rewrite Hu. Qed.

Lemma auth_reply_step t vb k r s :
  tasks s !! t = Some (mk_task (refresh_fetch vb None) k) ->
  step (AuthReply t r) s = Some (set_task t (refresh_fetch vb (Some r)) k s).
Proof. intros Hu. simpl. by rewrite Hu. Qed.

(** With no refresh in progress and the lock free, the task that finds an
    authorization failure fetches the token itself. *)
Lemma refresh_entered_idle t s e :
  tasks s !! t
  = Some (mk_task (execute_api_call false (Some (Raised e))) KTop) ->
  is_401 e = true -> Event.is_set (event s) = true ->
  lock_free (lock s) = true ->
  exists s',
    step (Run t) s = Some s'
    /\ tasks s' !! t
       = Some (mk_task (refresh_fetch (version s) None) KRefreshRetry)
    /\ api_calls t s' = api_calls t s.
Proof.
  intros Hu H401 Hev Hlk. simpl. unfold resume. rewrite Hu. simpl.
  unfold_coroutines. rewrite H401, Hev, Hlk. simpl.
  change (version (lock_take s)) with (version s). rewrite Z.eqb_refl. simpl.
  unfold is_401 in H401.
  destruct (is_unauthorized e), (status_is_401 (error_status e)); try done.
  all: eexists; split; [reflexivity|].
  all: unfold set_task, set_tasks; simpl; own_lookup Hu.
  all: unfold api_calls; simpl; rewrite ?filter_app, ?length_app; simpl.
  all: split; [done|lia].
Qed.

Lemma single_run_completes t s o :
  tasks s !! t = Some (mk_task (execute_api_call false None) KTop) ->
  (forall e, o = Raised e -> is_401 e = false) ->
  exists s2,
    exec (single_run t o) s = Some s2
    /\ tasks s2 !! t = Some (mk_task (finished o) KTop)
    /\ api_calls t s2 = api_calls t s.
Proof.
  intros Hu Ho. unfold single_run.
  rewrite (exec_cons _ _ _ _ (api_reply_step t false o s Hu)).
  pose proof (tasks_set_task t (execute_api_call false (Some o)) KTop s _ Hu)
    as H1.
  pose proof (next_turn_any t
                (set_task t (execute_api_call false (Some o)) KTop s)) as N.
  unfold next_turn in N. rewrite H1 in N.
  destruct o as [v|e]; [|rewrite (Ho e eq_refl) in N].
  all: rewrite (exec_cons _ _ _ _ N); eexists; split; [reflexivity|].
  all: split; [by eapply tasks_set_task|done].
Qed.

Lemma retry_run_completes t s e tok o :
  tasks s !! t = Some (mk_task (execute_api_call false None) KTop) ->
  Event.is_set (event s) = true -> lock_free (lock s) = true ->
  is_401 e = true ->
  exists s2,
    exec (retry_run t e tok o) s = Some s2
    /\ tasks s2 !! t = Some (mk_task (finished o) KTop)
    /\ api_calls t s2 = S (api_calls t s)
    /\ token s2 = Some tok.
Proof.
  intros Hu Hev Hlk H401. unfold retry_run.
  rewrite (exec_cons _ _ _ _ (api_reply_step t false (Raised e) s Hu)).
  pose proof (tasks_set_task t (execute_api_call false (Some (Raised e))) KTop
                s _ Hu) as H1.
  destruct (refresh_entered_idle t _ e H1 H401 Hev Hlk) as (s2 & E2 & H2 & C2).
  rewrite (exec_cons _ _ _ _ E2).
  rewrite (exec_cons _ _ _ _ (auth_reply_step t _ _ (inr tok) s2 H2)).
  pose proof (tasks_set_task t (refresh_fetch (version s) (Some (inr tok)))
                KRefreshRetry s2 _ H2) as H3.
  pose proof (next_turn_any t
                (set_task t (refresh_fetch (version s) (Some (inr tok)))
                   KRefreshRetry s2)) as N.
  unfold next_turn in N. rewrite H3 in N.
  destruct N as (s4 & E4 & H4 & C4 & T4).
  rewrite (exec_cons _ _ _ _ E4).
  rewrite (exec_cons _ _ _ _ (api_reply_step t true o s4 H4)).
  pose proof (tasks_set_task t (execute_api_call true (Some o)) KTop s4 _ H4)
    as H5.
  pose proof (next_turn_any t
                (set_task t (execute_api_call true (Some o)) KTop s4)) as N.
  unfold next_turn in N. rewrite H5 in N.
  rewrite (exec_cons _ _ _ _ N). eexists. split; [reflexivity|].
  split; [by eapply tasks_set_task|].
  split; [|exact T4].
  rewrite !api_calls_set_task, C4, api_calls_set_task, C2. done.
Qed.

(** ** The version counter *)

Lemma version_step a s s' :
  step a s = Some s' ->
  version s <= version s'
  /\ (token s' <> token s -> token s' <> None -> version s' = version s + 1).
Proof.
  intros H. destruct a as [u|u r|u r|u o]; simpl in H.
  - unfold resume in H.
    destruct (tasks s !! u) as [[c k]|] eqn:Hu; [|done]. simpl in H.
    destruct c; try done; case_step H; injection H as <-;
      unfold_coroutines;
      repeat match goal with
             | |- context [match ?x with _ => _ end] => destruct x eqn:?
             end.
    all: normal_form; fields; (split; [lia|congruence]).
  - destruct (tasks s !! u) as [[c k]|] eqn:Hu; [|done].
    destruct c; try done; case_step H; injection H as <-; fields;
      (split; [lia|congruence]).
  - destruct (tasks s !! u) as [[c k]|] eqn:Hu; [|done].
    destruct c; try done; case_step H; injection H as <-; fields;
      (split; [lia|congruence]).
  - destruct (tasks s !! u) as [[c k]|] eqn:Hu; [|done].
    destruct c; try done; case_step H; injection H as <-; fields;
      (split; [lia|congruence]).
Qed.

Lemma version_exec sch s s' : exec sch s = Some s' -> version s <= version s'.
Proof.
  revert s. induction sch as [|a sch IH]; intros s H; simpl in H.
  - injection H as <-. lia.
  - destruct (step a s) as [s1|] eqn:E; [|done].
    pose proof (version_step a s s1 E) as [? _]. specialize (IH s1 H). lia.
Qed.

(** A successful authentication, once its task resumes. *)
Lemma acquisition_step t s c k tok :
  tasks s !! t = Some (mk_task c k) ->
  (c = ensure_token_fetch (Some (inr tok))
   \/ exists vb, c = refresh_fetch vb (Some (inr tok))) ->
  exists s', step (Run t) s = Some s'
             /\ token s' = Some tok
             /\ api_key s' = [("iikoCookieAuth", tok)]
             /\ version s' = version s + 1.
Proof.
  intros Hu [->|[vb ->]]; simpl; unfold resume; rewrite Hu; simpl;
    eexists; (split; [reflexivity|]);
    unfold_coroutines; normal_form; fields; done.
Qed.

(** ** Failure of the authentication request during a refresh *)

Lemma lookup_wake_all_entry (b : bool) (ws : list nat) (ts : list task)
    (u : nat) c k :
  ts !! u = Some (mk_task c k) -> entry_frame c = true ->
  (if b then ts
   else foldr (fun w ts => alter resolve_event_fut w ts) ts ws) !! u
  = Some (mk_task c k).
Proof.
  intros Hu Hc. destruct b; [done|].
  rewrite lookup_foldr_alter by apply resolve_event_fut_idemp.
  rewrite Hu. destruct (decide _); [|done]. by destruct c.
Qed.

Lemma return_calls_raised t k e : return_calls t k (Raised e) = [].
Proof. by destruct k. Qed.

Lemma return_code_raised k e : return_code k (Raised e) = finished (Raised e).
Proof. by destruct k. Qed.

Lemma refresh_fetch_failure_run s t vb k exc :
  tasks s !! t = Some (mk_task (refresh_fetch vb None) k) ->
  exists s' m,
    exec [AuthReply t (inl exc); Run t] s = Some s'
    /\ token s' = None /\ api_key s' = []
    /\ Event._value (event s') = true
    /\ Lock._locked (lock s') = false
    /\ version s' = version s
    /\ net s' = net s
    /\ tasks s' !! t
       = Some (mk_task (finished (Raised (IikoServerAuthException m exc))) KTop)
    /\ (forall u c,
          Lock._waiters (lock s) = [] -> u <> t ->
          tasks s !! u = Some (mk_task c KTop) ->
          (c = ensure_token_entry \/ exists e, c = refresh_entry e /\ is_401 e = true) ->
          exists s'',
            step (Run u) s' = Some s''
            /\ net s'' = net s' ++ [AuthGet u (TokenManager._login (tm s))
                                      (TokenManager._password_hash (tm s))]
            /\ fetch_pending <$> tasks s'' !! u = Some true).
Proof.
  intros Ht.
  assert (Hlt : (t < length (tasks s))%nat) by (by eapply lookup_lt_Some).
  simpl. rewrite Ht. unfold resume. simpl.
  rewrite list_lookup_insert_eq by done. simpl.
  eexists. exists (exn_str (fetch_token_error exc)).
  split; [reflexivity|].
  unfold refresh_fetched. normal_form. fields.
  rewrite return_calls_raised, return_code_raised.
  split; [done|]. split; [done|]. split; [done|]. split; [done|].
  split; [done|]. split; [by rewrite app_nil_r|]. split.
  - rewrite list_lookup_insert_eq
      by (rewrite length_wake_head, length_wake_all, length_insert; done).
    unfold fetch_token_error. by destruct (is_unauthorized exc).
  - intros u c Hw Hne Hu Hc. rewrite Hw. simpl.
    assert (Hu' :
      <[t := mk_task (finished (Raised (fetch_token_error exc))) KTop]>
        (if Event._value (TokenManager._refresh_event (tm s))
         then <[t := mk_task (refresh_fetch vb (Some (inl exc))) k]> (tasks s)
         else foldr (fun w ts => alter resolve_event_fut w ts)
                (<[t := mk_task (refresh_fetch vb (Some (inl exc))) k]> (tasks s))
                (Event._waiters (TokenManager._refresh_event (tm s))))
      !! u = Some (mk_task c KTop)).
    { rewrite list_lookup_insert_ne by done.
      apply lookup_wake_all_entry.
      - by rewrite list_lookup_insert_ne.
      - by destruct Hc as [->|[e [-> _]]]. }
    unfold resume. simpl. rewrite Hu'. simpl.
    destruct Hc as [->|[e [-> H401]]]; simpl.
    + eexists. split; [reflexivity|].
      unfold_coroutines. simpl. split; [by rewrite app_nil_r|].
      rewrite list_lookup_insert_eq; [done|].
      rewrite length_insert, length_wake_all, length_insert.
      by eapply lookup_lt_Some.
    + eexists. split; [reflexivity|].
      unfold_coroutines. rewrite H401. simpl.
      rewrite Z.eqb_refl. simpl. split; [by rewrite app_nil_r|].
      rewrite list_lookup_insert_eq; [done|].
      rewrite length_insert, length_wake_all, length_insert.
      by eapply lookup_lt_Some.
Qed.

(** ** The version comparison inside the exclusive section *)

Lemma refresh_granted_step s t vb k :
  tasks s !! t = Some (mk_task (refresh_acquire vb true) k) ->
  exists s',
    step (Run t) s = Some s'
    /\ if (version s =? vb)%Z
       then auth_calls s' = S (auth_calls s)
            /\ tasks s' !! t = Some (mk_task (refresh_fetch vb None) k)
       else auth_calls s' = auth_calls s
            /\ version s' = version s /\ token s' = token s
            /\ tasks s' !! t
               = Some (mk_task (return_code k (Returned (VBool true))) KTop).
Proof.
  intros Ht.
  assert (Hlt : (t < length (tasks s))%nat) by (by eapply lookup_lt_Some).
  simpl. unfold resume. rewrite Ht. simpl. eexists. split; [reflexivity|].
  unfold refresh_locked.
  change (version (lock_resume t s)) with (version s).
  destruct (version s =? vb)%Z eqn:E; simpl.
  - split.
    + unfold auth_calls. simpl. rewrite filter_app, length_app. simpl. lia.
    + by rewrite list_lookup_insert_eq.
  - normal_form. split.
    + unfold auth_calls. simpl.
      destruct k; simpl; rewrite ?app_nil_r, ?filter_app, ?length_app; simpl;
        lia.
    + split; [done|]. split; [done|].
      rewrite list_lookup_insert_eq; [done|]. by rewrite length_wake_head.
Qed.

Lemma refresh_queued_snapshot s0 s1 t c k vb k' e :
  tasks s0 !! t = Some (mk_task c k) ->
  (c = refresh_entry e \/ c = execute_api_call false (Some (Raised e))) ->
  step (Run t) s0 = Some s1 ->
  tasks s1 !! t = Some (mk_task (refresh_acquire vb false) k') ->
  vb = version s0.
Proof.
  intros Ht Hc H H1.
  assert (Hlt : (t < length (tasks s0))%nat) by (by eapply lookup_lt_Some).
  simpl in H. unfold resume in H. rewrite Ht in H. simpl in H.
  destruct Hc as [-> | ->]; simpl in H; injection H as <-; revert H1;
    unfold_coroutines;
    repeat match goal with
           | |- context [match ?x with _ => _ end] => destruct x eqn:?
           end;
    normal_form;
    rewrite list_lookup_insert_eq
      by (rewrite ?length_wake_head, ?length_wake_all; done);
    try (by destruct k); intros [= <-]; done.
Qed.

(** ** Length of the task table *)

Lemma step_length a s s' :
  step a s = Some s' -> length (tasks s') = length (tasks s).
Proof.
  intros H. destruct a as [u|u r|u r|u o]; simpl in H.
  - unfold resume in H.
    destruct (tasks s !! u) as [[c k]|] eqn:Hu; [|done]. simpl in H.
    destruct c; try done; case_step H; injection H as <-;
      unfold_coroutines;
      repeat match goal with
             | |- context [match ?x with _ => _ end] => destruct x eqn:?
             end.
    all: normal_form;
      by rewrite ?length_insert, ?length_wake_head, ?length_wake_all.
  - destruct (tasks s !! u) as [[c k]|] eqn:Hu; [|done].
    destruct c; try done; case_step H; injection H as <-; simpl;
      by rewrite length_insert.
  - destruct (tasks s !! u) as [[c k]|] eqn:Hu; [|done].
    destruct c; try done; case_step H; injection H as <-; simpl;
      by rewrite length_insert.
  - destruct (tasks s !! u) as [[c k]|] eqn:Hu; [|done].
    destruct c; try done; case_step H; injection H as <-; simpl;
      by rewrite length_insert.
Qed.

Lemma exec_length sch s s' :
  exec sch s = Some s' -> length (tasks s') = length (tasks s).
Proof.
  revert s. induction sch as [|a sch IH]; intros s H; simpl in H.
  - by injection H as <-.
  - destruct (step a s) as [s1|] eqn:E; [|done].
    rewrite (IH s1 H). by eapply step_length.
Qed.

(** ** The claims about the event loop *)

(** C1: in every state a schedule can reach from tasks that have not yet
    run, at most one [auth_get] request is in flight.  When [N >= 1] tasks
    call [refresh_token_if_401] on one idle Authority with authorization
    errors, each reads the same version on entry and the authentication
    request succeeds, then once all have ended exactly one [auth_get] was
    made and each of the [N] calls returned [True]. *)
Theorem single_flight_refresh (login hash kid : string) (tok : option string)
    (v0 : Z) (key : dict.t string) (bound : bool) (errs : list exn)
    (sch : list action) (s : state)
    (Herrs : errs <> [])
    (H401 : forallb is_401 errs = true)
    (Hexec : exec sch (refresh_all (idle_tm login hash kid tok v0) key bound errs)
             = Some s) :
  (in_flight s <= 1)%nat
  /\ (entries_at v0 sch (refresh_all (idle_tm login hash kid tok v0) key bound errs)
      = true ->
      auth_succeeds sch = true ->
      all_finished s = true ->
      auth_calls s = 1%nat
      /\ length (tasks s) = length errs
      /\ Forall (fun tk => tk = mk_task (finished (Returned (VBool true))) KTop)
           (tasks s))
  /\ (forall m key' bound' cs lg sch' s',
        forallb entry_frame cs = true ->
        exec sch' (mk_state m key' bound' (spawn cs) lg) = Some s' ->
        (in_flight s' <= 1)%nat).
Proof.
  assert (G : forall m key' bound' cs lg sch' s',
             forallb entry_frame cs = true ->
             exec sch' (mk_state m key' bound' (spawn cs) lg) = Some s' ->
             (in_flight s' <= 1)%nat).
  { intros m key' bound' cs lg sch' s' Hcs Hs'.
    apply mutex_inv_in_flight.
    eapply mutex_inv_exec; [|exact Hs']. by apply mutex_inv_spawn. }
  split; [|split; [|exact G]].
  - eapply G; [|exact Hexec].
    apply forallb_forall. intros c Hc. apply in_map_iff in Hc as (e & <- & _).
    done.
  - intros Hent Hok Hfin.
    assert (Hlen : length (tasks s) = length errs).
    { rewrite (exec_length _ _ _ Hexec). unfold refresh_all, spawn. simpl.
      by rewrite !length_map. }
    assert (P : phase v0 s).
    { eapply phase_exec; [|exact Hexec|exact Hent|exact Hok].
      left. by apply phase_idle_refresh_all. }
    destruct (phase_all_finished v0 s P) as [Hc Hall]; [|done|done].
    intros E. rewrite E in Hlen. simpl in Hlen. by destruct errs.
Qed.

Lemma single_flight_refresh_witness :
  let s0 := refresh_all (idle_tm "user" "hash" "host:user" (Some "old") 1)
              [("iikoCookieAuth", "old")] true [e401; e401; e401] in
  let sch := [Run 0; Run 1; Run 2; AuthReply 0 (inr "new");
              Run 0; Run 1; Run 2]%nat in
  let s := after sch s0 in
  (in_flight s <= 1)%nat
  /\ auth_calls s = 1%nat
  /\ length (tasks s) = 3%nat
  /\ Forall (fun tk => tk = mk_task (finished (Returned (VBool true))) KTop)
       (tasks s).
Proof.
  intros s0 sch s.
  assert (H1 : [e401; e401; e401] <> []) by discriminate.
  assert (H2 : forallb is_401 [e401; e401; e401] = true) by reflexivity.
  assert (H3 : exec sch s0 = Some s) by (vm_compute; reflexivity).
  assert (H4 : entries_at 1 sch s0 = true) by (vm_compute; reflexivity).
  assert (H5 : auth_succeeds sch = true) by reflexivity.
  assert (H6 : all_finished s = true) by (vm_compute; reflexivity).
  destruct (single_flight_refresh "user" "hash" "host:user" (Some "old") 1
              [("iikoCookieAuth", "old")] true [e401; e401; e401] sch s
              H1 H2 H3) as (A & B & _).
  split; [exact A|]. exact (B H4 H5 H6).
Defined.

(** C2, as stated, fails: [execute_with_retry] keeps no version, and
    [refresh_token_if_401] reads it on entry.  Two callers invoke their
    operation at version [1] and both fail with 401; the refresh of the first
    completes (version [2]) before the second enters the protocol.  The
    second then reads [2], finds the lock free and makes its own [auth_get]. *)
Lemma back_to_back_duplicate_fetch :
  let s0 := ready_state [execute_entry; execute_entry] in
  let s1 := after [Run 0; Run 1; ApiReply 0 (Raised e401);
                   ApiReply 1 (Raised e401)]%nat s0 in
  let s2 := after [Run 0; AuthReply 0 (inr "new"); Run 0]%nat s1 in
  let s3 := after [Run 1]%nat s2 in
  exec [Run 0; Run 1; ApiReply 0 (Raised e401); ApiReply 1 (Raised e401);
        Run 0; AuthReply 0 (inr "new"); Run 0; Run 1]%nat s0 = Some s3
  /\ version s1 = 1
  /\ tasks s1 !! 1%nat
     = Some (mk_task (execute_api_call false (Some (Raised e401))) KTop)
  /\ version s2 = 2 /\ auth_calls s2 = 1%nat
  /\ tasks s2 !! 1%nat
     = Some (mk_task (execute_api_call false (Some (Raised e401))) KTop)
  /\ auth_calls s3 = 2%nat
  /\ tasks s3 !! 1%nat = Some (mk_task (refresh_fetch 2 None) KRefreshRetry).
Proof. vm_compute. repeat split. Qed.

(** C2 (amended): [refresh_token_if_401] reads the version when it is
    entered, by a task of its own or by [execute_with_retry] after the
    failed call.  If the caller then has to queue for the lock and the
    version has changed when the lock is handed to it, it makes no
    [auth_get] and returns [True] to its caller. *)
Theorem version_check_skips_fetch_while_queued (s0 s1 s2 : state) (t : nat)
    (c : frame) (k k' : cont) (e : exn) (vb : Z) (sch : list action)
    (Hcaller : tasks s0 !! t = Some (mk_task c k))
    (Hentry : c = refresh_entry e
              \/ c = execute_api_call false (Some (Raised e)))
    (Henter : step (Run t) s0 = Some s1)
    (Hqueued : tasks s1 !! t = Some (mk_task (refresh_acquire vb false) k'))
    (Hexec : exec sch s1 = Some s2)
    (Hadvanced : version s2 <> version s0)
    (Hgranted : tasks s2 !! t = Some (mk_task (refresh_acquire vb true) k')) :
  vb = version s0
  /\ exists s3,
       step (Run t) s2 = Some s3
       /\ auth_calls s3 = auth_calls s2
       /\ version s3 = version s2 /\ token s3 = token s2
       /\ tasks s3 !! t
          = Some (mk_task (return_code k' (Returned (VBool true))) KTop).
Proof.
  pose proof (refresh_queued_snapshot s0 s1 t c k vb k' e
                Hcaller Hentry Henter Hqueued) as ->.
  split; [done|].
  destruct (refresh_granted_step s2 t (version s0) k' Hgranted) as (s3 & H3 & R).
  exists s3. split; [done|].
  destruct (version s2 =? version s0)%Z eqn:E; [|done].
  apply Z.eqb_eq in E. done.
Qed.

Lemma version_check_skips_fetch_while_queued_witness :
  let s0 := after [Run 0; Run 1; AuthReply 0 (inl network_error); Run 0]%nat
              (fresh_state [ensure_token_entry; ensure_token_entry;
                            refresh_entry e401]) in
  let s1 := after [Run 2]%nat s0 in
  let s2 := after [Run 1; AuthReply 1 (inr "new"); Run 1]%nat s1 in
  version s0 = 0 /\ version s2 = 1
  /\ exists s3,
       step (Run 2) s2 = Some s3
       /\ auth_calls s3 = auth_calls s2
       /\ version s3 = version s2 /\ token s3 = token s2
       /\ tasks s3 !! 2%nat
          = Some (mk_task (finished (Returned (VBool true))) KTop).
Proof.
  intros s0 s1 s2.
  split; [vm_compute; reflexivity|]. split; [vm_compute; reflexivity|].
  assert (H1 : tasks s0 !! 2%nat = Some (mk_task (refresh_entry e401) KTop))
    by (vm_compute; reflexivity).
  assert (H2 : step (Run 2) s0 = Some s1) by (vm_compute; reflexivity).
  assert (H3 : tasks s1 !! 2%nat = Some (mk_task (refresh_acquire 0 false) KTop))
    by (vm_compute; reflexivity).
  assert (H4 : exec [Run 1; AuthReply 1 (inr "new"); Run 1]%nat s1 = Some s2)
    by (vm_compute; reflexivity).
  assert (H5 : version s2 <> version s0) by (vm_compute; discriminate).
  assert (H6 : tasks s2 !! 2%nat = Some (mk_task (refresh_acquire 0 true) KTop))
    by (vm_compute; reflexivity).
  destruct (version_check_skips_fetch_while_queued s0 s1 s2 2
              (refresh_entry e401) KTop KTop e401 0
              [Run 1; AuthReply 1 (inr "new"); Run 1]%nat
              H1 (or_introl eq_refl) H2 H3 H4 H5 H6) as [_ R].
  exact R.
Defined.

(** C3: an [execute_with_retry] task invokes its operation at most twice.
    If the first reply is an error that is not an authorization failure,
    there is no second invocation and the task ends by raising that error.
    A task that has invoked the operation a second time has had an
    authorization failure as its first reply, and ends with the second
    reply.  When the task has ended, either its own [auth_get] raised at
    first use (no invocation), or the single invocation returned or raised a
    non-authorization error which is the task's outcome, or the first
    invocation failed with an authorization failure and its own [auth_get]
    raised during the refresh (one invocation, the task raises what
    [_fetch_token] makes of that exception), or no [auth_get] of the task
    raised, the operation was invoked exactly once more and the second reply
    is the task's outcome.  In every reachable state the next turn of the
    task is the one [next_turn] describes: an authorization failure of the
    first invocation enters [refresh_token_if_401], the return of
    [refresh_token_if_401] invokes the operation once more, every other
    outcome ends the task.  And from a task that awaits its first
    invocation the runs exist: a result or non-authorization error ends the
    task after one invocation; with no refresh in progress and the lock
    free, an authorization failure followed by a successful fetch leads to a
    second invocation whose outcome ends the task. *)
Theorem execute_with_retry_invocations (s0 s : state) (t : nat)
    (sch : list action)
    (Hstart : tasks s0 !! t = Some (mk_task execute_entry KTop))
    (Hfresh : api_calls t s0 = 0%nat)
    (Hexec : exec sch s0 = Some s) :
  (api_calls t s <= 2)%nat
  /\ (forall e rest,
        api_replies t sch = Raised e :: rest -> is_401 e = false ->
        rest = [] /\ api_calls t s = 1%nat
        /\ (tasks s !! t
            = Some (mk_task (execute_api_call false (Some (Raised e))) KTop)
            \/ tasks s !! t = Some (mk_task (finished (Raised e)) KTop)))
  /\ (forall fut,
        tasks s !! t = Some (mk_task (execute_api_call true fut) KTop) ->
        api_calls t s = 2%nat
        /\ exists e, is_401 e = true
                     /\ api_replies t sch
                        = Raised e :: match fut with Some o => [o] | None => [] end)
  /\ (forall o,
        tasks s !! t = Some (mk_task (finished o) KTop) ->
        execute_result (api_replies t sch) (auth_failures t sch)
          (api_calls t s) o)
  /\ (forall o e rest,
        tasks s !! t = Some (mk_task (finished o) KTop) ->
        api_replies t sch = Raised e :: rest -> is_401 e = true ->
        (auth_failures t sch = [] /\ api_calls t s = 2%nat /\ rest = [o])
        \/ (exists exc,
              auth_failures t sch = [exc] /\ api_calls t s = 1%nat
              /\ rest = [] /\ o = Raised (fetch_token_error exc)))
  /\ next_turn t s
  /\ (tasks s !! t = Some (mk_task (execute_api_call false None) KTop) ->
      api_calls t s = 1%nat
      /\ (forall o,
            (forall e, o = Raised e -> is_401 e = false) ->
            exists s2,
              exec (single_run t o) s = Some s2
              /\ tasks s2 !! t = Some (mk_task (finished o) KTop)
              /\ api_calls t s2 = 1%nat)
      /\ (Event.is_set (event s) = true -> lock_free (lock s) = true ->
          forall e tok o,
            is_401 e = true ->
            exists s2,
              exec (retry_run t e tok o) s = Some s2
              /\ tasks s2 !! t = Some (mk_task (finished o) KTop)
              /\ api_calls t s2 = 2%nat
              /\ token s2 = Some tok)).
Proof.
  assert (Hok : execute_ok t (api_replies t sch) (auth_failures t sch) s).
  { apply (execute_ok_exec t sch s0 s [] []); [|done].
    unfold execute_ok. rewrite Hstart, Hfresh. done. }
  unfold execute_ok in Hok.
  split; [by eapply execute_view_calls|].
  split; [intros e rest Hrs Hne; by eapply execute_view_first_not_401|].
  split.
  { intros fut Hfut. rewrite Hfut in Hok. destruct fut; simpl in Hok;
      destruct Hok as (e & -> & H401 & -> & _); eauto. }
  split.
  { intros o Ho. rewrite Ho in Hok. exact Hok. }
  split.
  { intros o e rest Ho Hrs H401. rewrite Ho, Hrs in Hok. simpl in Hok.
    destruct Hok as [(? & _)|[(Hr & _ & _ & Hn)|[(e' & exc & Hr & _ & Hc & Hf & ->)
                                               |(e' & Hr & _ & Hc & Hf)]]].
    - done.
    - injection Hr as <- ->. rewrite (Hn e eq_refl) in H401. done.
    - injection Hr as <- ->. right. by exists exc.
    - injection Hr as <- ->. by left. }
  split; [apply next_turn_any|].
  intros Hu. rewrite Hu in Hok. simpl in Hok. destruct Hok as (_ & Hc & _).
  split; [done|]. split.
  - intros o Ho.
    destruct (single_run_completes t s o Hu Ho) as (s2 & E & H2 & C).
    exists s2. by rewrite C.
  - intros Hev Hlk e tok o H401.
    destruct (retry_run_completes t s e tok o Hu Hev Hlk H401)
      as (s2 & E & H2 & C & T).
    exists s2. by rewrite C, Hc.
Qed.

Lemma execute_with_retry_invocations_witness :
  let s0 := ready_state [execute_entry] in
  let sch := [Run 0; ApiReply 0 (Raised e401); Run 0; AuthReply 0 (inr "new");
              Run 0; ApiReply 0 (Returned (VStr "result")); Run 0]%nat in
  let s := after sch s0 in
  tasks s !! 0%nat = Some (mk_task (finished (Returned (VStr "result"))) KTop)
  /\ api_replies 0 sch = [Raised e401; Returned (VStr "result")]
  /\ auth_failures 0 sch = []
  /\ api_calls 0 s = 2%nat.
Proof.
  intros s0 sch s.
  assert (H1 : tasks s0 !! 0%nat = Some (mk_task execute_entry KTop))
    by reflexivity.
  assert (H2 : api_calls 0 s0 = 0%nat) by reflexivity.
  assert (H3 : exec sch s0 = Some s) by (vm_compute; reflexivity).
  assert (H4 : tasks s !! 0%nat
               = Some (mk_task (finished (Returned (VStr "result"))) KTop))
    by (vm_compute; reflexivity).
  assert (H5 : api_replies 0 sch = [Raised e401; Returned (VStr "result")])
    by reflexivity.
  assert (H6 : is_401 e401 = true) by reflexivity.
  destruct (execute_with_retry_invocations s0 s 0 sch H1 H2 H3)
    as (_ & _ & _ & _ & R & _).
  destruct (R _ _ _ H4 H5 H6) as [(F & C & _)|(exc & F & _)].
  - done.
  - discriminate F.
Defined.

(** C4 fails on the code: the waiter returns [True] whatever became of the
    refresh it waited on.  Two tasks call [refresh_token_if_401] at version
    [1]; the second finds the refresh in progress and waits; the
    authentication request raises; the second task is released and returns
    [True] while no token is stored and the version is still [1]. *)
Theorem waiter_returns_true_after_failed_refresh :
  let s0 := ready_state [refresh_entry e401; refresh_entry e401] in
  let s1 := after [Run 0; Run 1]%nat s0 in
  let s := after [AuthReply 0 (inl network_error); Run 0; Run 1]%nat s1 in
  exec [Run 0; Run 1; AuthReply 0 (inl network_error); Run 0; Run 1]%nat s0
  = Some s
  /\ tasks s1 !! 1%nat = Some (mk_task (refresh_wait 1 false) KTop)
  /\ tasks s !! 1%nat = Some (mk_task (finished (Returned (VBool true))) KTop)
  /\ token s = None
  /\ version s = 1
  /\ auth_calls s = 1%nat.
Proof. vm_compute. repeat split. Qed.

(** C5: when the authentication request of a refresh raises, the task that
    made it ends by raising [IikoServerAuthException] carrying the original
    exception; afterwards no token is stored, the client's key is empty, the
    event is set, the lock is released and the version is unchanged.  If
    nobody is queued for the lock, a task that then calls [ensure_token], or
    [refresh_token_if_401] with an authorization error, makes a new
    [auth_get]. *)
Theorem refresh_fetch_failure (s : state) (t : nat) (vb : Z) (k : cont)
    (exc : exn)
    (Hfetch : tasks s !! t = Some (mk_task (refresh_fetch vb None) k)) :
  exists s' m,
    exec [AuthReply t (inl exc); Run t] s = Some s'
    /\ token s' = None /\ api_key s' = []
    /\ Event._value (event s') = true
    /\ Lock._locked (lock s') = false
    /\ version s' = version s
    /\ net s' = net s
    /\ tasks s' !! t
       = Some (mk_task (finished (Raised (IikoServerAuthException m exc))) KTop)
    /\ (forall u c,
          Lock._waiters (lock s) = [] -> u <> t ->
          tasks s !! u = Some (mk_task c KTop) ->
          (c = ensure_token_entry
           \/ exists e, c = refresh_entry e /\ is_401 e = true) ->
          exists s'',
            step (Run u) s' = Some s''
            /\ net s'' = net s' ++ [AuthGet u (TokenManager._login (tm s))
                                      (TokenManager._password_hash (tm s))]
            /\ fetch_pending <$> tasks s'' !! u = Some true).
Proof. exact (refresh_fetch_failure_run s t vb k exc Hfetch). Qed.

Lemma refresh_fetch_failure_witness :
  let s := after [Run 0]%nat
             (ready_state [refresh_entry e401; ensure_token_entry]) in
  exists s' m,
    exec [AuthReply 0 (inl network_error); Run 0]%nat s = Some s'
    /\ token s' = None /\ api_key s' = []
    /\ Event._value (event s') = true
    /\ tasks s' !! 0%nat
       = Some (mk_task
                 (finished (Raised (IikoServerAuthException m network_error)))
                 KTop)
    /\ exists s'',
         step (Run 1) s' = Some s''
         /\ net s'' = net s' ++ [AuthGet 1 "user" "hash"].
Proof.
  intros s.
  assert (F1 : tasks s !! 0%nat = Some (mk_task (refresh_fetch 1 None) KTop))
    by (vm_compute; reflexivity).
  assert (F2 : Lock._waiters (lock s) = []) by (vm_compute; reflexivity).
  assert (F3 : tasks s !! 1%nat = Some (mk_task ensure_token_entry KTop))
    by (vm_compute; reflexivity).
  assert (F4 : TokenManager._login (tm s) = "user") by (vm_compute; reflexivity).
  assert (F5 : TokenManager._password_hash (tm s) = "hash")
    by (vm_compute; reflexivity).
  destruct (refresh_fetch_failure s 0 1 KTop network_error F1)
    as (s' & m & H1 & H2 & H3 & H4 & _ & _ & _ & H8 & H9).
  exists s', m. split; [exact H1|]. split; [exact H2|]. split; [exact H3|].
  split; [exact H4|]. split; [exact H8|].
  destruct (H9 1%nat ensure_token_entry F2 ltac:(discriminate) F3
              (or_introl eq_refl)) as (s'' & G1 & G2 & _).
  exists s''. split; [exact G1|]. rewrite G2, F4, F5. reflexivity.
Defined.

(** C6: no action of the loop decreases the version, along one step or a
    whole schedule; a step that stores a token different from the one stored
    before increases it; and the step in which a task resumes with the token
    [auth_get] returned, from [ensure_token] or from a refresh, stores that
    token and increases the version by one. *)
Theorem version_strictly_increases (a : action) (s s' s'' : state)
    (sch : list action)
    (Hstep : step a s = Some s')
    (Hexec : exec sch s' = Some s'') :
  version s <= version s' /\ version s' <= version s''
  /\ (token s' <> token s -> token s' <> None -> version s < version s')
  /\ (forall t c k tok,
        a = Run t -> tasks s !! t = Some (mk_task c k) ->
        (c = ensure_token_fetch (Some (inr tok))
         \/ exists vb, c = refresh_fetch vb (Some (inr tok))) ->
        token s' = Some tok /\ version s' = version s + 1
        /\ version s < version s'').
Proof.
  destruct (version_step a s s' Hstep) as [H1 H2].
  pose proof (version_exec sch s' s'' Hexec) as H3.
  split; [done|]. split; [done|]. split.
  - intros Hne Hsome. specialize (H2 Hne Hsome). lia.
  - intros t c k tok -> Ht Hc.
    destruct (acquisition_step t s c k tok Ht Hc) as (s1 & E & Htok & _ & Hv).
    rewrite E in Hstep. injection Hstep as <-. split; [done|]. lia.
Qed.

Lemma version_strictly_increases_witness :
  let s := after [Run 0; AuthReply 0 (inr "new")]%nat
             (fresh_state [ensure_token_entry]) in
  let s' := after [Run 0]%nat s in
  version s = 0 /\ token s' = Some "new" /\ version s' = 1.
Proof.
  intros s s'.
  assert (H1 : step (Run 0) s = Some s') by (vm_compute; reflexivity).
  assert (H2 : exec [] s' = Some s') by reflexivity.
  assert (H3 : tasks s !! 0%nat
               = Some (mk_task (ensure_token_fetch (Some (inr "new"))) KTop))
    by (vm_compute; reflexivity).
  assert (H4 : version s = 0) by (vm_compute; reflexivity).
  destruct (version_strictly_increases (Run 0) s s' s' [] H1 H2)
    as (_ & _ & _ & H).
  destruct (H 0%nat (ensure_token_fetch (Some (inr "new"))) KTop "new"
              eq_refl H3 (or_introl eq_refl)) as (A & B & _).
  split; [exact H4|]. split; [exact A|]. rewrite B, H4. reflexivity.
Defined.

(** ** The client's key follows the stored token *)

Lemma holds_view tk : holds (view tk) = holds tk.
Proof. by destruct tk as [[] ?]. Qed.

Lemma fetching_true s :
  fetching s = true <-> exists i tk, tasks s !! i = Some tk /\ holds tk = true.
Proof.
  unfold fetching. rewrite existsb_exists. split.
  - intros (tk & Hin & Hh). apply list_elem_of_In, list_elem_of_lookup in Hin as [i Hi].
    by exists i, tk.
  - intros (i & tk & Hi & Hh). exists tk. split; [|done].
    apply list_elem_of_In. by eapply list_elem_of_lookup_2.
Qed.

Lemma fetching_false s :
  fetching s = false <-> forall i tk, tasks s !! i = Some tk -> holds tk = false.
Proof.
  split.
  - intros H i tk Hi. destruct (holds tk) eqn:E; [|done].
    assert (fetching s = true) by (apply fetching_true; eauto). congruence.
  - intros H. destruct (fetching s) eqn:E; [|done].
    apply fetching_true in E as (i & tk & Hi & Hh). by rewrite (H i tk Hi) in Hh.
Qed.

(** What the turn of a task does to the token and the key. *)
Lemma key_effect_step a s s' tk :
  step a s = Some s' -> tasks s !! actor a = Some tk ->
  exists tk', tasks s' !! actor a = Some tk' /\ key_effect s s' tk tk'.
Proof.
  intros H Hu. destruct tk as [c k]. unfold key_effect.
  destruct a as [u|u r|u r|u o]; simpl in H, Hu.
  - unfold resume in H. rewrite Hu in H. simpl in H.
    destruct c; try done; case_step H; injection H as <-;
      unfold_coroutines;
      repeat match goal with
             | |- context [match ?x with _ => _ end] => destruct x eqn:?
             end.
    all: normal_form; fields.
    all: own_lookup Hu.
    all: eexists; (split; [reflexivity|]).
    all: rewrite ?return_code_raised; simpl.
    all: try (destruct k; simpl; naive_solver).
  - rewrite Hu in H. destruct c; try done; case_step H; injection H as <-;
      simpl; own_lookup Hu; eexists; (split; [reflexivity|]); naive_solver.
  - rewrite Hu in H. destruct c; try done; case_step H; injection H as <-;
      simpl; own_lookup Hu; eexists; (split; [reflexivity|]); naive_solver.
  - rewrite Hu in H. destruct c; try done; case_step H; injection H as <-;
      simpl; own_lookup Hu; eexists; (split; [reflexivity|]); naive_solver.
Qed.

Lemma step_actor a s s' : step a s = Some s' -> is_Some (tasks s !! actor a).
Proof.
  destruct a as [u|u r|u r|u o]; simpl; unfold resume;
    destruct (tasks s !! u); by eauto.
Qed.

Lemma step_other_lookup i a s s' tk' :
  step a s = Some s' -> i <> actor a -> tasks s' !! i = Some tk' ->
  exists tk0, tasks s !! i = Some tk0 /\ view tk0 = view tk'.
Proof.
  intros H Hne Hi. destruct (step_other i a s s' H) as [Hv _]; [done|].
  unfold vlook in Hv. rewrite Hi in Hv. simpl in Hv.
  destruct (tasks s !! i) as [tk0|]; [|done]. exists tk0. split; [done|].
  simpl in Hv. congruence.
Qed.

Lemma step_other_lookup_inv i a s s' tk0 :
  step a s = Some s' -> i <> actor a -> tasks s !! i = Some tk0 ->
  exists tk', tasks s' !! i = Some tk' /\ view tk0 = view tk'.
Proof.
  intros H Hne Hi. destruct (step_other i a s s' H) as [Hv _]; [done|].
  unfold vlook in Hv. rewrite Hi in Hv. simpl in Hv.
  destruct (tasks s' !! i) as [tk'|]; [|done]. exists tk'. split; [done|].
  simpl in Hv. congruence.
Qed.

Lemma view_ensure_fetch tk fut k :
  view tk = mk_task (ensure_token_fetch fut) k ->
  tk = mk_task (ensure_token_fetch fut) k.
Proof. by destruct tk as [[] ?]. Qed.

Lemma holds_eq_view tk tk' : view tk = view tk' -> holds tk = holds tk'.
Proof. intros H. by rewrite <- (holds_view tk), H, holds_view. Qed.

Lemma key_inv_step a s s' :
  mutex_inv s -> key_inv s -> step a s = Some s' -> key_inv s'.
Proof.
  intros M [K S E] H.
  destruct (step_actor a s s' H) as [tk Hu].
  destruct (key_effect_step a s s' tk H Hu) as (tk' & Hu' & Heff).
  split.
  - destruct Heff as [(Ht & Ha & _)|[(Ht & Ha & _)|[(_ & _ & Ha)|[(_ & Ht & Ha & _)
      |(_ & _ & Ht & Ha)]]]]; rewrite ?Ht, ?Ha; auto.
  - intros Hf. pose proof (proj1 (fetching_false s') Hf) as Hno.
    destruct Heff as [(Ht & Ha & Hh & _)|[(Ht & Ha & Hh & _)|[(_ & _ & Ha)
      |[(_ & Ht & Ha & (fut & k & ->))|(_ & _ & Ht & Ha)]]]].
    + rewrite Ht, Ha. apply S. apply fetching_false. intros i tki Hi.
      destruct (decide (i = actor a)) as [->|Hne].
      * rewrite Hu in Hi. injection Hi as <-. rewrite <- Hh. by eapply Hno.
      * destruct (step_other_lookup_inv i a s s' tki H Hne Hi) as (tk1 & H1 & Hv).
        rewrite (holds_eq_view _ _ Hv). by eapply Hno.
    + rewrite (Hno _ _ Hu') in Hh. done.
    + done.
    + rewrite Ht, Ha. rewrite (E _ _ _ Hu). rewrite (E _ _ _ Hu) in K.
      by destruct K.
    + by rewrite Ht, Ha.
  - intros i k fut Hi. destruct (decide (i = actor a)) as [->|Hne].
    + rewrite Hu' in Hi. injection Hi as ->.
      destruct Heff as [(Ht & _ & _ & Hx)|[(Ht & _ & _ & Hx)|[(_ & Hh & _)
        |[(Hh & _)|(Hh & Hh' & _)]]]]; try done.
      * destruct (Hx _ _ eq_refl) as (fut0 & ->). rewrite Ht. by eapply E.
      * rewrite Ht. by eapply Hx.
      * rewrite <- Hh in Hh'. done.
    + destruct (step_other_lookup i a s s' _ H Hne Hi) as (tk0 & H0 & Hv).
      simpl in Hv. apply view_ensure_fetch in Hv. subst tk0.
      pose proof (E _ _ _ H0) as Hn.
      destruct Heff as [(Ht & _)|[(Ht & _)|[(Hh & _)|[(_ & Ht & _)|(_ & _ & Ht & _)]]]];
        rewrite ?Ht; try done.
      exfalso. apply Hne. symmetry.
      eapply (mi_unique s M (actor a) i); eauto using holds_owns.
Qed.

Lemma key_inv_exec sch s s' :
  mutex_inv s -> key_inv s -> exec sch s = Some s' -> key_inv s'.
Proof.
  revert s. induction sch as [|a sch IH]; intros s M K H; simpl in H.
  - by injection H as <-.
  - destruct (step a s) as [s1|] eqn:E; [|done].
    eapply IH; [| |done]; [by eapply mutex_inv_step | by eapply key_inv_step].
Qed.

Lemma spawn_not_holding cs i tk :
  forallb entry_frame cs = true -> spawn cs !! i = Some tk -> owns tk = false.
Proof.
  intros Hcs. unfold spawn. rewrite list_lookup_fmap.
  destruct (cs !! i) as [c|] eqn:Hc; [|done]. simpl. intros [= <-].
  assert (Hin : In c cs) by (apply list_elem_of_In; by eapply list_elem_of_lookup_2).
  pose proof (proj1 (forallb_forall _ _) Hcs c Hin) as He.
  by destruct c.
Qed.

(** X8: the session cookie of the client is never stale.  From a state in
    which the client's [api_key] goes with the stored token and no task has
    started, after every schedule the [api_key] is empty or holds exactly
    the stored token; and whenever no authentication is in progress it holds
    the stored token if there is one and is empty otherwise. *)
Theorem api_key_follows_token (m : TokenManager.t) (bound : bool)
    (cs : list frame) (lg : list net_event) (sch : list action) (s : state)
    (Hcs : forallb entry_frame cs = true)
    (Hexec : exec sch (mk_state m (api_key_of (TokenManager._token m)) bound
                         (spawn cs) lg) = Some s) :
  (api_key s = [] \/ exists tok, token s = Some tok /\ api_key s = cookie tok)
  /\ (fetching s = false -> api_key s = api_key_of (token s)).
Proof.
  assert (K : key_inv s).
  { eapply key_inv_exec; [by apply mutex_inv_spawn| |exact Hexec].
    split; simpl; auto.
    intros i k fut Hi. apply (spawn_not_holding cs i _ Hcs) in Hi. done. }
  destruct K as [K S _]. split; [|done].
  destruct K as [K|K]; [by left|]. destruct (token s) as [tok|]; [|by left].
  right. by exists tok.
Qed.

Lemma api_key_follows_token_witness :
  let s0 := ready_state [refresh_entry e401; logout_entry; ensure_token_entry] in
  let sch := [Run 0; AuthReply 0 (inr "new"); Run 1; Run 0; Run 2] in
  (api_key (after sch s0) = []
   \/ exists tok, token (after sch s0) = Some tok
                  /\ api_key (after sch s0) = cookie tok)
  /\ fetching (after sch s0) = false
  /\ api_key (after sch s0) = cookie "new".
Proof.
  intros s0 sch.
  assert (Hcs : forallb entry_frame
                  [refresh_entry e401; logout_entry; ensure_token_entry] = true)
    by reflexivity.
  assert (Hexec : exec sch s0 = Some (after sch s0)) by (vm_compute; reflexivity).
  destruct (api_key_follows_token _ true _ [] sch (after sch s0) Hcs Hexec)
    as [A B].
  split; [exact A|]. split; [vm_compute; reflexivity|].
  vm_compute; reflexivity.
Defined.

(** ** Wake-ups *)

Lemma woken_refl tk : woken tk tk.
Proof. by left. Qed.

Lemma woken_view tk tk' : woken tk tk' -> view tk' = view tk.
Proof.
  intros [->|[->| ->]]; [done|apply view_resolve_lock_fut|apply view_resolve_event_fut].
Qed.

Lemma woken_lock_event tk : woken tk (resolve_lock_fut (resolve_event_fut tk)).
Proof. destruct tk as [[] ?]; unfold woken; simpl; auto. Qed.

Lemma lookup_wake_all_woken (b : bool) ws (ts : list task) i tk :
  ts !! i = Some tk ->
  exists tk', (if b then ts
               else foldr (fun w ts => alter resolve_event_fut w ts) ts ws) !! i
              = Some tk'
              /\ (tk' = tk \/ tk' = resolve_event_fut tk).
Proof.
  intros Hi. destruct b; [by eauto|].
  rewrite lookup_foldr_alter by apply resolve_event_fut_idemp.
  rewrite Hi. destruct (decide _); simpl; eauto.
Qed.

Lemma lookup_wake_head_woken ws (ts : list task) i tk :
  ts !! i = Some tk ->
  exists tk', match ws with [] => ts | w :: _ => alter resolve_lock_fut w ts end !! i
              = Some tk'
              /\ (tk' = tk \/ tk' = resolve_lock_fut tk).
Proof.
  intros Hi. destruct ws as [|w ws]; [by eauto|].
  destruct (decide (w = i)) as [->|Hne].
  - rewrite list_lookup_alter_eq, Hi. simpl. eauto.
  - rewrite list_lookup_alter_ne by done. eauto.
Qed.

Lemma lookup_wake_woken (b : bool) ws ews (ts : list task) i tk :
  ts !! i = Some tk ->
  exists tk',
    match ws with
    | [] => if b then ts
            else foldr (fun w ts => alter resolve_event_fut w ts) ts ews
    | w :: _ =>
        alter resolve_lock_fut w
          (if b then ts
           else foldr (fun w ts => alter resolve_event_fut w ts) ts ews)
    end !! i = Some tk'
    /\ woken tk tk'.
Proof.
  intros Hi.
  destruct (lookup_wake_all_woken b ews ts i tk Hi) as (tk1 & H1 & W1).
  destruct (lookup_wake_head_woken ws _ i tk1 H1) as (tk2 & H2 & W2).
  exists tk2. split; [done|].
  destruct W1 as [->| ->], W2 as [->| ->]; unfold woken; auto.
  apply woken_lock_event.
Qed.

Ltac other_task_woken Hi :=
  simpl; rewrite ?list_lookup_insert_ne by done;
  first
    [ eexists; split; [exact Hi | apply woken_refl]
    | apply (lookup_wake_woken true _ []); exact Hi
    | apply lookup_wake_woken; exact Hi
    | apply (lookup_wake_woken true); exact Hi ].

(** The turn of a task leaves every other task where it is, up to the
    future it awaits. *)
Lemma step_other_woken i a s s' tk :
  step a s = Some s' -> i <> actor a -> tasks s !! i = Some tk ->
  exists tk', tasks s' !! i = Some tk' /\ woken tk tk'.
Proof.
  intros H Hne Hi. destruct a as [u|u r|u r|u o]; simpl in H, Hne.
  - unfold resume in H.
    destruct (tasks s !! u) as [[c k]|] eqn:Hu; [|done]. simpl in H.
    destruct c; try done; case_step H; injection H as <-;
      unfold_coroutines;
      repeat match goal with
             | |- context [match ?x with _ => _ end] => destruct x eqn:?
             end.
    all: normal_form.
    all: other_task_woken Hi.
  - destruct (tasks s !! u) as [[c k]|] eqn:Hu; [|done].
    destruct c; try done; case_step H; injection H as <-; other_task_woken Hi.
  - destruct (tasks s !! u) as [[c k]|] eqn:Hu; [|done].
    destruct c; try done; case_step H; injection H as <-; other_task_woken Hi.
  - destruct (tasks s !! u) as [[c k]|] eqn:Hu; [|done].
    destruct c; try done; case_step H; injection H as <-; other_task_woken Hi.
Qed.

(** ** The length of a run *)

Lemma total_turn (f : task -> nat) (t : nat) (l1 l2 : list task) (x y : task)
    (d1 d2 : nat) :
  length l1 = length l2 ->
  l1 !! t = Some x -> l2 !! t = Some y ->
  (forall i a b, i <> t -> l1 !! i = Some a -> l2 !! i = Some b -> (f a <= f b)%nat) ->
  (f x + d1 <= f y + d2)%nat ->
  (total f l1 + d1 <= total f l2 + d2)%nat.
Proof.
  revert t l2. induction l1 as [|a l1 IH]; intros t [|b l2] Hlen H1 H2 Ho Hxy;
    try done.
  simpl in Hlen. injection Hlen as Hlen. destruct t as [|t]; simpl in *.
  - injection H1 as ->. injection H2 as ->.
    assert (total f l1 <= total f l2)%nat; [|lia].
    clear -Hlen Ho. revert l2 Hlen Ho.
    induction l1 as [|a l1 IH]; intros [|b l2] Hlen Ho; try done; simpl in *.
    injection Hlen as Hlen.
    pose proof (Ho 1%nat a b ltac:(lia) eq_refl eq_refl).
    assert (total f l1 <= total f l2)%nat; [|lia].
    apply IH; [done|]. intros i a' b' Hi Ha Hb.
    destruct i as [|i]; [done|].
    apply (Ho (S (S i)) a' b'); [lia|done|done].
  - pose proof (Ho 0%nat a b ltac:(lia) eq_refl eq_refl).
    assert (total f l1 + d1 <= total f l2 + d2)%nat; [|lia].
    apply (IH t l2); try done.
    intros i a' b' Hi. apply (Ho (S i) a' b'). lia.
Qed.

Lemma total_turn_eq (f : task -> nat) (t : nat) (l1 l2 : list task) (x y : task)
    (d1 d2 : nat) :
  length l1 = length l2 ->
  l1 !! t = Some x -> l2 !! t = Some y ->
  (forall i a b, i <> t -> l1 !! i = Some a -> l2 !! i = Some b -> f a = f b) ->
  (f x + d1 = f y + d2)%nat ->
  (total f l1 + d1 = total f l2 + d2)%nat.
Proof.
  intros Hlen H1 H2 Ho Hxy. apply Nat.le_antisymm.
  - apply (total_turn f t l1 l2 x y); try done; [|lia].
    intros i a b Hi Ha Hb. by rewrite (Ho i a b).
  - apply (total_turn f t l2 l1 y x); try done; [|lia].
    intros i a b Hi Ha Hb. by rewrite (Ho i b a).
Qed.

Lemma rank_woken tk tk' : woken tk tk' -> (rank tk' <= rank tk)%nat.
Proof.
  intros [->|[->| ->]]; [done| |]; destruct tk as [[] ?]; unfold rank; simpl;
    try lia; destruct fut; simpl; lia.
Qed.

Lemma token_delivered_woken tk tk' :
  woken tk tk' -> token_delivered tk' = token_delivered tk.
Proof. intros [->|[->| ->]]; [done| |]; by destruct tk as [[] ?]. Qed.

Lemma tokens_granted_app sch1 sch2 :
  tokens_granted (sch1 ++ sch2) = (tokens_granted sch1 + tokens_granted sch2)%nat.
Proof.
  induction sch1 as [|a sch1 IH]; [done|]. simpl.
  destruct a as [| ? [|]| |]; simpl; lia.
Qed.

(** What its own turn does to the rank of a task and to the version. *)
Lemma turn_account a s s' tk :
  step a s = Some s' -> tasks s !! actor a = Some tk ->
  exists tk', tasks s' !! actor a = Some tk'
              /\ (rank tk' + 1 <= rank tk)%nat
              /\ version s' + Z.of_nat (token_delivered tk')
                 = version s + Z.of_nat (token_delivered tk)
                   + Z.of_nat (tokens_granted [a]).
Proof.
  intros H Hu. destruct tk as [c k].
  destruct a as [u|u r|u r|u o]; simpl in H, Hu.
  - unfold resume in H. rewrite Hu in H. simpl in H.
    destruct c; try done; case_step H; injection H as <-;
      unfold_coroutines;
      repeat match goal with
             | |- context [match ?x with _ => _ end] => destruct x eqn:?
             end.
    all: normal_form; fields.
    all: own_lookup Hu.
    all: eexists; (split; [reflexivity|]).
    all: rewrite ?return_code_raised; unfold rank, token_delivered; simpl.
    all: destruct k; simpl; try (split; lia).
    all: destruct retried; simpl; (split; lia).
  - rewrite Hu in H. destruct c; try done; case_step H; injection H as <-;
      simpl; own_lookup Hu; eexists; (split; [reflexivity|]);
      unfold rank, token_delivered, version; simpl;
      destruct r; simpl; (split; lia).
  - rewrite Hu in H. destruct c; try done; case_step H; injection H as <-;
      simpl; own_lookup Hu; eexists; (split; [reflexivity|]);
      unfold rank, token_delivered, version; simpl; (split; lia).
  - rewrite Hu in H. destruct c; try done; case_step H; injection H as <-;
      simpl; own_lookup Hu; eexists; (split; [reflexivity|]);
      unfold rank, token_delivered, version; simpl;
      destruct retried; simpl; (split; lia).
Qed.

Lemma run_account_step a s s' :
  step a s = Some s' ->
  (total rank (tasks s') + 1 <= total rank (tasks s))%nat
  /\ version s' + Z.of_nat (total token_delivered (tasks s'))
     = version s + Z.of_nat (total token_delivered (tasks s))
       + Z.of_nat (tokens_granted [a]).
Proof.
  intros H. destruct (step_actor a s s' H) as [tk Hu].
  destruct (turn_account a s s' tk H Hu) as (tk' & Hu' & Hr & Hv).
  pose proof (step_length a s s' H) as Hlen.
  assert (Ho : forall i x y, i <> actor a ->
                 tasks s' !! i = Some x -> tasks s !! i = Some y -> woken y x).
  { intros i x y Hne Hx Hy.
    destruct (step_other_woken i a s s' y H Hne Hy) as (x' & Hx' & W).
    congruence. }
  split.
  - assert (T : (total rank (tasks s') + 1 <= total rank (tasks s) + 0)%nat);
      [|lia].
    apply (total_turn rank (actor a) (tasks s') (tasks s) tk' tk 1 0 Hlen Hu' Hu);
      [|lia].
    intros i x y Hne Hx Hy. apply rank_woken. by eapply Ho.
  - pose proof (total_turn_eq token_delivered (actor a) (tasks s') (tasks s)
                  tk' tk
                  (token_delivered tk) (token_delivered tk')
                  Hlen Hu' Hu) as T.
    assert (E : (total token_delivered (tasks s') + token_delivered tk
                 = total token_delivered (tasks s) + token_delivered tk')%nat).
    { apply T; [|lia]. intros i x y Hne Hx Hy.
      apply token_delivered_woken. by eapply Ho. }
    lia.
Qed.

Lemma run_account sch s s' :
  exec sch s = Some s' ->
  (length sch + total rank (tasks s') <= total rank (tasks s))%nat
  /\ version s' + Z.of_nat (total token_delivered (tasks s'))
     = version s + Z.of_nat (total token_delivered (tasks s))
       + Z.of_nat (tokens_granted sch).
Proof.
  revert s. induction sch as [|a sch IH]; intros s H; simpl in H.
  - injection H as <-. simpl. split; lia.
  - destruct (step a s) as [s1|] eqn:E; [|done].
    destruct (run_account_step a s s1 E) as [R1 V1].
    destruct (IH s1 H) as [R2 V2].
    change (a :: sch) with ([a] ++ sch). rewrite tokens_granted_app.
    rewrite length_app. simpl length. split; lia.
Qed.

Lemma total_spawn_rank cs :
  forallb entry_frame cs = true -> (total rank (spawn cs) <= 13 * length cs)%nat.
Proof.
  induction cs as [|c cs IH]; simpl; [lia|].
  intros [Hc Hcs]%andb_true_iff. specialize (IH Hcs).
  assert (rank (mk_task c KTop) <= 13)%nat; [|lia].
  destruct c; try done; unfold rank; simpl; try lia; destruct fut; simpl; lia.
Qed.

Lemma total_zero_finished (f : task -> nat) ts :
  (forall tk, is_finished tk = true -> f tk = 0%nat) ->
  forallb is_finished ts = true -> total f ts = 0%nat.
Proof.
  intros Hf. induction ts as [|tk ts IH]; simpl; [done|].
  intros [H1 H2]%andb_true_iff. rewrite (Hf tk H1), IH; done.
Qed.

Lemma total_spawn_delivered cs :
  forallb entry_frame cs = true -> total token_delivered (spawn cs) = 0%nat.
Proof.
  induction cs as [|c cs IH]; simpl; [done|].
  intros [Hc Hcs]%andb_true_iff. rewrite (IH Hcs). by destruct c.
Qed.

(** X9: every run is finite.  Each loop action lowers the number of actions
    the tasks have left, so a schedule that runs from a state is no longer
    than what its tasks have left; started from tasks that have not run,
    no schedule is longer than thirteen actions per task. *)
Theorem every_run_is_finite (sch : list action) (s0 s : state)
    (Hexec : exec sch s0 = Some s) :
  (length sch + total rank (tasks s) <= total rank (tasks s0))%nat
  /\ (forall cs, tasks s0 = spawn cs -> forallb entry_frame cs = true ->
        (length sch <= 13 * length cs)%nat).
Proof.
  destruct (run_account sch s0 s Hexec) as [R _]. split; [done|].
  intros cs Hs0 Hcs. rewrite Hs0 in R.
  pose proof (total_spawn_rank cs Hcs). lia.
Qed.

(** X10: the version counter counts the tokens obtained.  After any run the
    version has grown by the number of [auth_get] calls that returned a
    token and whose token is stored; when all tasks have finished it has
    grown by exactly the number of [auth_get] calls that returned a token. *)
Theorem version_counts_tokens (sch : list action) (s0 s : state)
    (Hexec : exec sch s0 = Some s) :
  version s + Z.of_nat (total token_delivered (tasks s))
  = version s0 + Z.of_nat (total token_delivered (tasks s0))
    + Z.of_nat (tokens_granted sch)
  /\ (forall cs, tasks s0 = spawn cs -> forallb entry_frame cs = true ->
        all_finished s = true ->
        version s = version s0 + Z.of_nat (tokens_granted sch)).
Proof.
  destruct (run_account sch s0 s Hexec) as [_ V]. split; [done|].
  intros cs Hs0 Hcs Hfin. rewrite Hs0, (total_spawn_delivered cs Hcs) in V.
  rewrite (total_zero_finished token_delivered (tasks s)) in V; [lia| |done].
  intros [[] ?]; done.
Qed.

Lemma every_run_is_finite_witness :
  let s0 := fresh_state [execute_entry; execute_entry] in
  let sch := [Run 0; Run 1; AuthReply 0 (inr "tok"); Run 0;
              ApiReply 0 (Returned VNone); ApiReply 1 (Raised e401); Run 0;
              Run 1; AuthReply 1 (inr "new"); Run 1;
              ApiReply 1 (Returned VNone); Run 1] in
  all_finished (after sch s0) = true
  /\ (length sch <= 13 * 2)%nat.
Proof.
  intros s0 sch.
  assert (Hexec : exec sch s0 = Some (after sch s0)) by (vm_compute; reflexivity).
  assert (Hcs : forallb entry_frame [execute_entry; execute_entry] = true)
    by reflexivity.
  destruct (every_run_is_finite sch s0 (after sch s0) Hexec) as [_ B].
  split; [vm_compute; reflexivity|].
  exact (B [execute_entry; execute_entry] eq_refl Hcs).
Defined.

Lemma version_counts_tokens_witness :
  let s0 := fresh_state [execute_entry; execute_entry] in
  let sch := [Run 0; Run 1; AuthReply 0 (inr "tok"); Run 0;
              ApiReply 0 (Returned VNone); ApiReply 1 (Raised e401); Run 0;
              Run 1; AuthReply 1 (inr "new"); Run 1;
              ApiReply 1 (Returned VNone); Run 1] in
  version (after sch s0) = 0 + Z.of_nat (tokens_granted sch)
  /\ version (after sch s0) = 2.
Proof.
  intros s0 sch.
  assert (Hexec : exec sch s0 = Some (after sch s0)) by (vm_compute; reflexivity).
  assert (Hcs : forallb entry_frame [execute_entry; execute_entry] = true)
    by reflexivity.
  assert (Hfin : all_finished (after sch s0) = true) by (vm_compute; reflexivity).
  destruct (version_counts_tokens sch s0 (after sch s0) Hexec) as [_ B].
  split; [|vm_compute; reflexivity].
  exact (B [execute_entry; execute_entry] eq_refl Hcs Hfin).
Defined.

(** ** How the coroutines of the Authority end *)

Lemma task_view_view c0 otk : task_view c0 (view <$> otk) <-> task_view c0 otk.
Proof. destruct otk as [[[] ?]|], c0; done. Qed.

Lemma task_view_step c0 t a s s' :
  task_view c0 (tasks s !! t) -> step a s = Some s' ->
  task_view c0 (tasks s' !! t).
Proof.
  intros Hok H.
  destruct (decide (actor a = t)) as [Heq|Hne].
  2:{ destruct (step_other t a s s' H Hne) as [Hv _]. unfold vlook in Hv.
      apply task_view_view. rewrite Hv. by apply task_view_view. }
  destruct (tasks s !! t) as [[c k]|] eqn:Hu; [|done].
  assert (Hlt : is_Some (tasks s' !! t)).
  { apply lookup_lt_is_Some. rewrite (step_length a s s' H).
    by eapply lookup_lt_Some. }
  destruct c0; try (by destruct Hlt as [[? ?] ->]).
  all: clear Hlt; destruct Hok as [-> Hok].
  all: destruct a as [u|u r|u r|u o]; simpl in Heq; subst u; simpl in H.
  all: try (rewrite Hu in H; destruct c; try done; case_step H;
            injection H as <-; simpl; own_lookup Hu; naive_solver).
  all: unfold resume in H; rewrite Hu in H; simpl in H.
  all: destruct c; try done; case_step H; injection H as <-;
    unfold_coroutines;
    repeat match goal with
           | |- context [match ?x with _ => _ end] => destruct x eqn:?
           end.
  all: normal_form; try own_lookup Hu; simpl.
  all: learn_401; unfold ensure_token_result, refresh_result, fetch_token_error.
  all: try (destruct (is_unauthorized _)).
  all: naive_solver (eauto; congruence).
Qed.

Lemma task_view_exec c0 t sch s s' :
  task_view c0 (tasks s !! t) -> exec sch s = Some s' ->
  task_view c0 (tasks s' !! t).
Proof.
  revert s. induction sch as [|a sch IH]; intros s Hok H; simpl in H.
  - by injection H as <-.
  - destruct (step a s) as [s1|] eqn:E; [|done].
    eapply IH; [|done]. by eapply task_view_step.
Qed.

(** X11: how the coroutines of the Authority end, whatever else runs at the
    same time.  In every run of tasks of any kind, an [ensure_token] task ends
    by returning [None] or by raising [IikoServerAuthException]; a
    [refresh_token_if_401] task returns [False] if its error is not an
    authorization failure and otherwise returns [True] or raises
    [IikoServerAuthException]; a [logout] task always returns [None]: it
    never raises. *)
Theorem coroutine_outcomes (m : TokenManager.t) (key : dict.t string)
    (bound : bool) (cs : list frame) (lg : list net_event)
    (sch : list action) (s : state) (t : nat) (c0 : frame) (o : outcome)
    (k : cont)
    (Hexec : exec sch (mk_state m key bound (spawn cs) lg) = Some s)
    (Hstart : cs !! t = Some c0)
    (Hend : tasks s !! t = Some (mk_task (finished o) k)) :
  task_result c0 o.
Proof.
  assert (V : task_view c0 (tasks s !! t)).
  { eapply task_view_exec; [|exact Hexec]. simpl. unfold spawn.
    rewrite list_lookup_fmap, Hstart. simpl. by destruct c0. }
  rewrite Hend in V. destruct c0; simpl in *; try done; by destruct V.
Qed.

Lemma coroutine_outcomes_witness :
  let cs := [refresh_entry e401; refresh_entry e401; logout_entry;
             refresh_entry network_error] in
  let sch := [Run 0; Run 1; Run 2; Run 3; AuthReply 0 (inl network_error);
              LogoutReply 2 (Some network_error); Run 0; Run 1; Run 2] in
  all_finished (after sch (ready_state cs)) = true
  /\ (exists m x,
        code <$> tasks (after sch (ready_state cs)) !! 0%nat
        = Some (finished (Raised (IikoServerAuthException m x))))
  /\ code <$> tasks (after sch (ready_state cs)) !! 2%nat
     = Some (finished (Returned VNone))
  /\ code <$> tasks (after sch (ready_state cs)) !! 3%nat
     = Some (finished (Returned (VBool false))).
Proof.
  intros cs sch.
  assert (Hexec : exec sch (ready_state cs) = Some (after sch (ready_state cs)))
    by (vm_compute; reflexivity).
  assert (H0 : cs !! 0%nat = Some (refresh_entry e401)) by reflexivity.
  assert (H2 : cs !! 2%nat = Some logout_entry) by reflexivity.
  assert (H3 : cs !! 3%nat = Some (refresh_entry network_error)) by reflexivity.
  split; [vm_compute; reflexivity|].
  destruct (tasks (after sch (ready_state cs)) !! 0%nat) as [[c0' k0]|] eqn:E0;
    [|by vm_compute in E0].
  destruct (tasks (after sch (ready_state cs)) !! 2%nat) as [[c2' k2]|] eqn:E2;
    [|by vm_compute in E2].
  destruct (tasks (after sch (ready_state cs)) !! 3%nat) as [[c3' k3]|] eqn:E3;
    [|by vm_compute in E3].
  assert (F0 : exists o, c0' = finished o)
    by (vm_compute in E0; injection E0 as <- _; eauto).
  assert (F2 : exists o, c2' = finished o)
    by (vm_compute in E2; injection E2 as <- _; eauto).
  assert (F3 : exists o, c3' = finished o)
    by (vm_compute in E3; injection E3 as <- _; eauto).
  destruct F0 as [o0 ->], F2 as [o2 ->], F3 as [o3 ->].
  pose proof (coroutine_outcomes _ _ _ cs _ sch _ 0%nat _ o0 k0 Hexec H0 E0) as R0.
  pose proof (coroutine_outcomes _ _ _ cs _ sch _ 2%nat _ o2 k2 Hexec H2 E2) as R2.
  pose proof (coroutine_outcomes _ _ _ cs _ sch _ 3%nat _ o3 k3 Hexec H3 E3) as R3.
  simpl in R0, R2, R3.
  split; [|split].
  - destruct R0 as [[R _]|[_ [->|(m0 & x & ->)]]];
      [by vm_compute in R | by vm_compute in E0 | by exists m0, x].
  - by rewrite R2.
  - destruct R3 as [[_ ->]|[R _]]; [done | by vm_compute in R].
Defined.

(** ** Concurrent first uses of one Authority *)

Lemma step_other_woken_inv i a s s' tk' :
  step a s = Some s' -> i <> actor a -> tasks s' !! i = Some tk' ->
  exists tk0, tasks s !! i = Some tk0 /\ woken tk0 tk'.
Proof.
  intros H Hne Hi.
  assert (Hlt : is_Some (tasks s !! i)).
  { apply lookup_lt_is_Some. rewrite <- (step_length a s s' H).
    by eapply lookup_lt_Some. }
  destruct Hlt as [tk0 H0].
  destruct (step_other_woken i a s s' tk0 H Hne H0) as (tk1 & H1 & W).
  exists tk0. split; [done|]. congruence.
Qed.

Lemma ensure_bystander_woken tk tk' :
  ensure_bystander tk -> woken tk tk' -> ensure_bystander tk'.
Proof.
  unfold ensure_bystander.
  intros [->|[[b ->]| ->]] [->|[->| ->]]; simpl; eauto.
Qed.

Lemma ensure_idle_step v0 a s s' :
  ensure_idle v0 s -> step a s = Some s' -> ensure_phase v0 s'.
Proof.
  intros (Htok & Hv & Hl & Hc & Ht) H.
  assert (K : forall t tk, tasks s !! t = Some tk ->
                           tk = mk_task ensure_token_entry KTop).
  { intros t tk Hk. by eapply (proj1 (Forall_lookup _ _) Ht). }
  destruct a as [t|t r|t r|t o]; simpl in H.
  - unfold resume in H. destruct (tasks s !! t) as [tk|] eqn:Hk; [|done].
    rewrite (K t tk Hk) in H. simpl in H. injection H as <-.
    right. left. exists t.
    unfold ensure_token. rewrite Htok, Hl. simpl.
    unfold ensure_token_locked. simpl.
    replace (token (lock_take s)) with (token s) by done. rewrite Htok.
    unfold ensure_fetching. fields.
    split; [done|]. split; [done|]. split; [done|].
    split; [by rewrite filter_app, length_app, Hc|].
    split.
    + exists None. split; [|by left].
      apply list_lookup_insert_eq. by eapply lookup_lt_Some.
    + intros i tki Hne Hi. rewrite list_lookup_insert_ne in Hi by done.
      left. by eapply K.
  - destruct (tasks s !! t) as [tk|] eqn:Hk; [|done]. by rewrite (K t tk Hk) in H.
  - destruct (tasks s !! t) as [tk|] eqn:Hk; [|done]. by rewrite (K t tk Hk) in H.
  - destruct (tasks s !! t) as [tk|] eqn:Hk; [|done]. by rewrite (K t tk Hk) in H.
Qed.

Lemma ensure_fetching_step v0 t0 a s s' :
  ensure_fetching v0 t0 s -> step a s = Some s' -> reply_ok a = true ->
  ensure_phase v0 s'.
Proof.
  intros (Htok & Hv & Hl & Hc & (fut & H0 & Hfut) & Ht) H Hok.
  pose proof H as Hstep.
  destruct a as [t|t r|t r|t o]; simpl in H.
  - unfold resume in H. destruct (decide (t = t0)) as [->|Hne].
    + (* the fetching task resumes *)
      rewrite H0 in H. simpl in H.
      destruct Hfut as [->|[tok ->]]; [done|]. injection H as <-.
      right. right. unfold ensure_token_fetched.
      unfold ensure_done. normal_form. fields.
      split; [by eexists|]. split; [lia|].
      split; [by rewrite app_nil_r|].
      apply Forall_lookup. intros i tk Hi.
      destruct (decide (i = t0)) as [->|Hi0].
      * apply list_lookup_insert_Some in Hi as [(_ & <- & _)|[? _]]; [|done].
        right. by right.
      * rewrite list_lookup_insert_ne in Hi by done.
        assert (Hlt : is_Some (tasks s !! i)).
        { apply lookup_lt_is_Some. apply lookup_lt_Some in Hi.
          by rewrite length_wake_head, length_wake_all in Hi. }
        destruct Hlt as [tk0 Hk].
        destruct (lookup_wake_woken (Event._value (TokenManager._refresh_event (tm s)))
                    (Lock._waiters (TokenManager._lock (tm s)))
                    (Event._waiters (TokenManager._refresh_event (tm s)))
                    (tasks s) i tk0 Hk) as (tk1 & H1 & W).
        assert (tk1 = tk) by congruence. subst tk1.
        apply (ensure_bystander_woken tk0 tk); [|done].
        destruct (Ht i tk0 Hi0 Hk) as [->| ->]; [by left|].
        right. left. by eexists.
    + destruct (tasks s !! t) as [tk|] eqn:Hk; [|done].
      destruct (Ht t tk Hne Hk) as [->| ->]; [|done].
      simpl in H. injection H as <-. right. left. exists t0.
      unfold ensure_token. rewrite Htok. unfold lock_free. rewrite Hl. simpl.
      unfold ensure_fetching. fields.
      split; [done|]. split; [done|]. split; [done|]. split; [done|].
      split.
      * exists fut. split; [|done]. by rewrite list_lookup_insert_ne.
      * intros i tk Hi0 Hi. destruct (decide (i = t)) as [->|Hit].
        -- apply list_lookup_insert_Some in Hi as [(_ & <- & _)|[? _]]; [|done].
           by right.
        -- rewrite list_lookup_insert_ne in Hi by done. by apply (Ht i).
  - (* the reply to the authentication request *)
    destruct (decide (t = t0)) as [->|Hne].
    + rewrite H0 in H. destruct Hfut as [->|[tok ->]]; [|done].
      injection H as <-. destruct r as [exc|tok]; [done|].
      right. left. exists t0. unfold ensure_fetching. fields.
      split; [done|]. split; [done|]. split; [done|]. split; [done|].
      split.
      * exists (Some (inr tok)). split; [|by eauto].
        apply list_lookup_insert_eq. by eapply lookup_lt_Some.
      * intros i tk Hi0 Hi. rewrite list_lookup_insert_ne in Hi by done.
        by apply (Ht i).
    + destruct (tasks s !! t) as [tk|] eqn:Hk; [|done].
      by destruct (Ht t tk Hne Hk) as [->| ->].
  - destruct (decide (t = t0)) as [->|Hne]; [by rewrite H0 in H|].
    destruct (tasks s !! t) as [tk|] eqn:Hk; [|done].
    by destruct (Ht t tk Hne Hk) as [->| ->].
  - destruct (decide (t = t0)) as [->|Hne]; [by rewrite H0 in H|].
    destruct (tasks s !! t) as [tk|] eqn:Hk; [|done].
    by destruct (Ht t tk Hne Hk) as [->| ->].
Qed.

Lemma ensure_done_step v0 n a s s' :
  ensure_done v0 n s -> step a s = Some s' -> ensure_done v0 n s'.
Proof.
  intros (Htok & Hv & Hc & Ht) H.
  assert (K : forall t tk, tasks s !! t = Some tk -> ensure_bystander tk).
  { intros t tk Hk. by eapply (proj1 (Forall_lookup _ _) Ht). }
  assert (Hothers : forall i tk', i <> actor a -> tasks s' !! i = Some tk' ->
                                  ensure_bystander tk').
  { intros i tk' Hne Hi.
    destruct (step_other_woken_inv i a s s' tk' H Hne Hi) as (tk0 & H0 & W).
    eapply ensure_bystander_woken; [|done]. by eapply K. }
  destruct Htok as [tok Htok].
  destruct a as [t|t r|t r|t o]; simpl in H, Hothers.
  - unfold resume in H. destruct (tasks s !! t) as [tk|] eqn:Hk; [|done].
    destruct (K t tk Hk) as [->|[[b ->]| ->]]; simpl in H; [| |done].
    + injection H as <-. unfold ensure_token in *. rewrite Htok in *.
      rewrite return_eq in *. unfold ensure_done. fields.
      split; [by eexists|]. split; [done|]. split; [by rewrite app_nil_r|].
      apply Forall_lookup. intros i tk Hi.
      destruct (decide (i = t)) as [->|Hne]; [|by eapply Hothers].
      apply list_lookup_insert_Some in Hi as [(_ & <- & _)|[? _]]; [|done].
      right. by right.
    + destruct b; [|done]. injection H as <-.
      unfold ensure_token_locked in *.
      replace (token (lock_resume t s)) with (token s) in * by done.
      rewrite Htok in *. revert Hothers. normal_form. intros Hothers.
      unfold ensure_done. fields.
      split; [by eexists|]. split; [done|]. split; [by rewrite app_nil_r|].
      apply Forall_lookup. intros i tk Hi.
      destruct (decide (i = t)) as [->|Hne]; [|by eapply Hothers].
      apply list_lookup_insert_Some in Hi as [(_ & <- & _)|[? _]]; [|done].
      right. by right.
  - destruct (tasks s !! t) as [tk|] eqn:Hk; [|done].
    by destruct (K t tk Hk) as [->|[[b ->]| ->]].
  - destruct (tasks s !! t) as [tk|] eqn:Hk; [|done].
    by destruct (K t tk Hk) as [->|[[b ->]| ->]].
  - destruct (tasks s !! t) as [tk|] eqn:Hk; [|done].
    by destruct (K t tk Hk) as [->|[[b ->]| ->]].
Qed.

Lemma ensure_phase_exec v0 sch s s' :
  ensure_phase v0 s -> exec sch s = Some s' -> auth_succeeds sch = true ->
  ensure_phase v0 s'.
Proof.
  revert s. induction sch as [|a sch IH]; intros s P H Hok; simpl in *.
  - by injection H as <-.
  - destruct (step a s) as [s1|] eqn:E; [|done].
    apply andb_true_iff in Hok as [Ho1 Ho2].
    apply (IH s1); try done.
    destruct P as [P|[[t0 P]|P]].
    + by eapply ensure_idle_step.
    + by eapply ensure_fetching_step.
    + right. right. by eapply ensure_done_step.
Qed.

Lemma ensure_present_step s0 a s s' :
  ensure_present s0 s -> step a s = Some s' -> ensure_present s0 s'.
Proof.
  intros ([tok Htok] & Hm & Hk & Hn & Ht) H.
  assert (K : forall t tk, tasks s !! t = Some tk ->
     tk = mk_task ensure_token_entry KTop
     \/ tk = mk_task (finished (Returned VNone)) KTop).
  { intros t tk Hi. by eapply (proj1 (Forall_lookup _ _) Ht). }
  destruct a as [t|t r|t r|t o]; simpl in H.
  - unfold resume in H. destruct (tasks s !! t) as [tk|] eqn:Hi; [|done].
    destruct (K t tk Hi) as [->| ->]; simpl in H; [|done].
    injection H as <-. unfold ensure_token. rewrite Htok, return_eq.
    unfold ensure_present. fields.
    split; [by eexists|]. split; [done|]. split; [done|].
    split; [by rewrite app_nil_r|].
    apply Forall_insert; [done|]. by right.
  - destruct (tasks s !! t) as [tk|] eqn:Hi; [|done].
    by destruct (K t tk Hi) as [->| ->].
  - destruct (tasks s !! t) as [tk|] eqn:Hi; [|done].
    by destruct (K t tk Hi) as [->| ->].
  - destruct (tasks s !! t) as [tk|] eqn:Hi; [|done].
    by destruct (K t tk Hi) as [->| ->].
Qed.

Lemma ensure_present_exec s0 sch s s' :
  ensure_present s0 s -> exec sch s = Some s' -> ensure_present s0 s'.
Proof.
  revert s. induction sch as [|a sch IH]; intros s P H; simpl in *.
  - by injection H as <-.
  - destruct (step a s) as [s1|] eqn:E; [|done].
    apply (IH s1); [|done]. by eapply ensure_present_step.
Qed.

Lemma Forall_spawn_replicate n :
  Forall (fun tk => tk = mk_task ensure_token_entry KTop)
    (spawn (replicate n ensure_token_entry)).
Proof.
  unfold spawn. apply Forall_fmap, Forall_forall.
  intros c Hc. apply elem_of_replicate in Hc as [-> _]. done.
Qed.

(** X12: [ensure_token] fetches once.  When any number of tasks call
    [ensure_token] on an Authority that stores no token and [auth_get]
    succeeds, then in every interleaving at most one [auth_get] is made, and
    once all tasks have finished exactly one was made, every task returned
    [None], a token is stored and the version grew by one.  When a token is
    stored from the start, no request is made at all and the Authority and
    the client's key stay as they are. *)
Theorem ensure_token_fetches_once (login hash kid : string)
    (tok : option string) (v0 : Z) (key : dict.t string) (bound : bool)
    (n : nat) (sch : list action) (s : state)
    (Hexec : exec sch (ensure_all (idle_tm login hash kid tok v0) key bound n)
             = Some s)
    (Hok : auth_succeeds sch = true) :
  (auth_calls s <= 1)%nat
  /\ (tok <> None ->
      net s = [] /\ tm s = idle_tm login hash kid tok v0 /\ api_key s = key)
  /\ (all_finished s = true -> n <> 0%nat ->
      is_Some (token s)
      /\ Forall (fun tk => tk = mk_task (finished (Returned VNone)) KTop) (tasks s)
      /\ (tok = None -> auth_calls s = 1%nat /\ version s = v0 + 1)).
Proof.
  set (s0 := ensure_all (idle_tm login hash kid tok v0) key bound n) in *.
  assert (Hlen : length (tasks s) = n).
  { rewrite (exec_length sch s0 s Hexec). unfold s0, ensure_all, spawn. simpl.
    by rewrite length_fmap, length_replicate. }
  assert (Hfin : all_finished s = true -> n <> 0%nat ->
                 forall P : task -> Prop,
                   Forall P (tasks s) ->
                   (forall tk, P tk -> is_finished tk = true ->
                               tk = mk_task (finished (Returned VNone)) KTop) ->
                   Forall (fun tk => tk = mk_task (finished (Returned VNone)) KTop)
                     (tasks s)).
  { intros Hf _ P HP HQ. apply Forall_forall. intros tk Hin.
    apply HQ; [by eapply (proj1 (Forall_forall _ _) HP)|].
    apply (proj1 (forallb_forall _ _) Hf). by apply list_elem_of_In. }
  destruct tok as [tok|].
  - (* a token is stored from the start *)
    assert (P : ensure_present s0 s).
    { eapply ensure_present_exec; [|exact Hexec].
      unfold ensure_present, s0, ensure_all. simpl.
      split; [by eexists|]. repeat split; try done.
      eapply Forall_impl; [apply Forall_spawn_replicate|]. by left. }
    destruct P as (Ht & Hm & Hk & Hn & HF).
    unfold auth_calls. rewrite Hn. simpl.
    split; [lia|]. split; [done|].
    intros Hf Hn0. split; [done|]. split; [|done].
    apply (Hfin Hf Hn0 _ HF). by intros tk [->| ->].
  - assert (P : ensure_phase v0 s).
    { eapply ensure_phase_exec; [|exact Hexec|exact Hok].
      left. unfold ensure_idle, s0, ensure_all. simpl.
      repeat split; try done. apply Forall_spawn_replicate. }
    split; [|split; [done|]].
    + destruct P as [(_ & _ & _ & -> & _)|[(t0 & _ & _ & _ & -> & _)
        |(_ & _ & -> & _)]]; lia.
    + intros Hf Hn0.
      assert (F : forall tk, tk ∈ tasks s -> is_finished tk = true).
      { intros tk Hin. apply (proj1 (forallb_forall _ _) Hf).
        by apply list_elem_of_In. }
      destruct P as [P|[[t0 P]|P]].
      * destruct P as (_ & _ & _ & _ & Ht).
        destruct (tasks s) as [|tk ts] eqn:E; [simpl in Hlen; lia|].
        apply Forall_cons in Ht as [-> _].
        specialize (F _ ltac:(left)). done.
      * destruct P as (_ & _ & _ & _ & (fut & H0 & _) & _).
        apply list_elem_of_lookup_2 in H0. specialize (F _ H0). done.
      * destruct P as (Ht & Hv & Hc & HF). split; [done|]. split.
        -- apply (Hfin Hf Hn0 _ HF). by intros tk [->|[[b ->]| ->]].
        -- intros _. split; [done|]. lia.
Qed.

Lemma ensure_token_fetches_once_witness :
  let s0 := ensure_all (idle_tm "user" "hash" "host:user" None 0) [] true 3 in
  let sch := [Run 1; Run 0; AuthReply 1 (inr "tok"); Run 1; Run 2; Run 0] in
  all_finished (after sch s0) = true
  /\ auth_calls (after sch s0) = 1%nat
  /\ version (after sch s0) = 1
  /\ Forall (fun tk => tk = mk_task (finished (Returned VNone)) KTop)
       (tasks (after sch s0)).
Proof.
  intros s0 sch.
  assert (Hexec : exec sch s0 = Some (after sch s0)) by (vm_compute; reflexivity).
  assert (Hok : auth_succeeds sch = true) by reflexivity.
  assert (Hfin : all_finished (after sch s0) = true) by (vm_compute; reflexivity).
  assert (Hn : 3%nat <> 0%nat) by discriminate.
  destruct (ensure_token_fetches_once "user" "hash" "host:user" None 0 [] true
              3 sch (after sch s0) Hexec Hok) as (_ & _ & C).
  destruct (C Hfin Hn) as (_ & F & V). destruct (V eq_refl) as [V1 V2].
  split; [exact Hfin|]. split; [exact V1|]. split; [exact V2|exact F].
Defined.

(** ** Absence of deadlock *)

Lemma elem_of_remove_first x y l : x ∈ remove_first y l -> x ∈ l.
Proof.
  induction l as [|z l IH]; simpl; [done|].
  destruct (y =? z)%nat; [by right|].
  intros [->|H]%elem_of_cons; [left | right; by apply IH].
Qed.

Lemma elem_of_remove_first_ne x y l : x <> y -> x ∈ l -> x ∈ remove_first y l.
Proof.
  intros Hne. induction l as [|z l IH]; simpl; [done|].
  destruct (Nat.eqb_spec y z) as [->|Hyz].
  - intros [->|H]%elem_of_cons; done.
  - intros [->|H]%elem_of_cons; [left | right; by apply IH].
Qed.

Lemma NoDup_remove_first y l :
  NoDup l -> NoDup (remove_first y l) /\ y ∉ remove_first y l.
Proof.
  induction l as [|z l IH]; simpl; intros Hnd.
  - split; [done | apply not_elem_of_nil].
  - apply NoDup_cons in Hnd as [Hz Hnd]. destruct (Nat.eqb_spec y z) as [->|Hyz].
    + done.
    + destruct (IH Hnd) as [I1 I2]. split.
      * apply NoDup_cons. split; [|done].
        intros H. apply Hz. by eapply elem_of_remove_first.
      * apply not_elem_of_cons. done.
Qed.

Lemma lock_waiting_queued tk : lock_waiting tk = true -> lock_queued tk = true.
Proof. by destruct tk as [[| [] | | | | ? [] | | | | | | ] ?]. Qed.

Lemma lock_queued_cases tk :
  lock_queued tk = true -> handed tk = true \/ lock_waiting tk = true.
Proof. destruct tk as [[| [] | | | | ? [] | | | | | | ] ?]; simpl; auto. Qed.

Lemma resolve_event_fut_frames tk :
  lock_waiting (resolve_event_fut tk) = lock_waiting tk
  /\ lock_queued (resolve_event_fut tk) = lock_queued tk
  /\ owns (resolve_event_fut tk) = owns tk
  /\ holds (resolve_event_fut tk) = holds tk
  /\ event_waiting (resolve_event_fut tk) = false.
Proof. by destruct tk as [[] ?]. Qed.

Lemma resolve_lock_fut_frames tk :
  lock_waiting (resolve_lock_fut tk) = false
  /\ lock_queued (resolve_lock_fut tk) = lock_queued tk
  /\ handed (resolve_lock_fut tk) = lock_queued tk
  /\ holds (resolve_lock_fut tk) = holds tk
  /\ event_waiting (resolve_lock_fut tk) = event_waiting tk.
Proof. by destruct tk as [[] ?]. Qed.

(** Entering a turn of the loop. *)
Lemma live_run_start t tk s :
  live_inv s -> tasks s !! t = Some tk ->
  live_run t (queue_mode_of tk) (holds tk) (holds tk) s.
Proof.
  intros [Q W N L O E C] Ht. split.
  - intros i ti _. apply Q.
  - intros w Hw. destruct (decide (w = t)) as [->|Hne].
    + left. split; [done|]. destruct (W t Hw) as (tk' & Ht' & Hq).
      assert (tk' = tk) by congruence. subst tk'. unfold queue_mode_of.
      destruct (lock_queued_cases tk Hq) as [-> | H]; [done|].
      rewrite H. by destruct (handed tk).
    + right. split; [done|]. by apply W.
  - unfold queue_mode_of. destruct (handed tk); [done|].
    destruct (lock_waiting tk) eqn:Elw; [|done]. intros _. by eapply Q.
  - done.
  - intros Hl. destruct (L Hl) as (i & ti & Hi & Hh).
    destruct (decide (i = t)) as [->|Hne]; [|right; by exists i, ti].
    left. congruence.
  - intros Hw. destruct (O Hw) as (i & ti & Hi & Ho).
    destruct (decide (i = t)) as [->|Hne]; [|right; right; by exists i, ti].
    assert (ti = tk) by congruence. subst ti. unfold owns in Ho.
    apply orb_true_iff in Ho as [Ho|Ho]; [by left|].
    right. left. unfold queue_mode_of. by rewrite Ho.
  - intros i ti _. apply E.
  - intros Hv. destruct (C Hv) as (i & ti & Hi & Hh).
    destruct (decide (i = t)) as [->|Hne]; [|right; by exists i, ti].
    left. congruence.
Qed.

(** Steps that leave the lock, the event and the other tasks alone. *)
Lemma live_run_ext t q lk ev s s' :
  tasks s' = tasks s -> lock s' = lock s -> event s' = event s ->
  live_run t q lk ev s -> live_run t q lk ev s'.
Proof. intros Et El Ee [Q W S N L O E C]. split; rewrite ?Et, ?El, ?Ee; done. Qed.

Lemma live_run_lock_take t ev s :
  lock_free (lock s) = true -> live_run t Q_no false ev s ->
  live_run t Q_no true ev (lock_take s).
Proof.
  unfold lock_free. intros [Hl Hw]%andb_true_iff [Q W S N L O E C].
  split; simpl; auto.
Qed.

Lemma live_run_lock_resume t ev s :
  live_run t Q_handed false ev s -> live_run t Q_no true ev (lock_resume t s).
Proof.
  intros [Q W S N L O E C].
  destruct (NoDup_remove_first t _ N) as [N1 N2].
  split; simpl; auto.
  - intros i tk Hne Hi Hw. apply elem_of_remove_first_ne; [done|]. by eapply Q.
  - intros w Hw. right. split; [by intros ->|].
    destruct (W w (elem_of_remove_first _ _ _ Hw)) as [[-> _]|[_ H]]; done.
  - done.
Qed.

Lemma live_run_lock_enqueue t ev s :
  lock_free (lock s) = false -> live_run t Q_no false ev s ->
  live_run t Q_waiting false ev (lock_enqueue t s).
Proof.
  unfold lock_free. intros Hfree [Q W S N L O E C].
  assert (Ht : t ∉ Lock._waiters (lock s)).
  { intros Hin. by destruct (W t Hin) as [[_ ?]|[? _]]. }
  split; simpl; auto.
  - intros i tk Hne Hi Hw. apply elem_of_app. left. by eapply Q.
  - intros w [Hw|Hw%list_elem_of_singleton]%elem_of_app.
    + destruct (W w Hw) as [[_ ?]|H]; [done|by right].
    + left. by subst w.
  - intros _. apply elem_of_app. right. left.
  - apply NoDup_app. split; [done|]. split; [|apply NoDup_singleton].
    intros x Hx ->%list_elem_of_singleton. done.
  - intros _. right. right.
    destruct (Lock._locked (lock s)) eqn:El; simpl in Hfree.
    + destruct (L eq_refl) as [?|(i & tk & Hne & Hi & Hh)]; [done|].
      exists i, tk. split; [done|]. split; [done|]. by apply holds_owns.
    + assert (Hne : Lock._waiters (lock s) <> []).
      { intros Hnil. rewrite Hnil in Hfree. done. }
      destruct (O Hne) as [?|[?|H]]; done.
Qed.

Lemma live_run_lock_release t s :
  live_run t Q_no true false s -> live_run t Q_no false false (lock_release s).
Proof.
  intros [Q W S N L O E C]. rewrite lock_release_eq.
  assert (K : forall i tk',
             match Lock._waiters (lock s) with
             | [] => tasks s
             | w :: _ => alter resolve_lock_fut w (tasks s)
             end !! i = Some tk' ->
             exists tk, tasks s !! i = Some tk
                        /\ (tk' = tk
                            \/ (tk' = resolve_lock_fut tk
                                /\ head (Lock._waiters (lock s)) = Some i))).
  { intros i tk'. destruct (Lock._waiters (lock s)) as [|w ws]; simpl; [by eauto|].
    destruct (decide (w = i)) as [->|Hw].
    - rewrite list_lookup_alter_eq.
      destruct (tasks s !! i) as [tk|]; [|done]. simpl. intros [= <-]. eauto.
    - rewrite list_lookup_alter_ne by done. eauto. }
  split; simpl.
  - intros i tk' Hne Hi Hw. destruct (K i tk' Hi) as (tk & Hk & [->|[-> _]]).
    + by eapply Q.
    + destruct (resolve_lock_fut_frames tk) as (R & _). congruence.
  - intros w Hw. destruct (W w Hw) as [[_ ?]|[Hne (tk & Hk & Hq)]]; [done|].
    right. split; [done|].
    destruct (Lock._waiters (lock s)) as [|w0 ws]; simpl; [by eauto|].
    destruct (decide (w0 = w)) as [->|Hw0].
    + rewrite list_lookup_alter_eq, Hk. simpl. eexists. split; [done|].
      destruct (resolve_lock_fut_frames tk) as (_ & R & _). congruence.
    + rewrite list_lookup_alter_ne by done. eauto.
  - done.
  - done.
  - done.
  - intros Hw. right. right.
    destruct (Lock._waiters (lock s)) as [|w ws] eqn:Ews; [done|].
    destruct (W w) as [[_ ?]|[Hne (tk & Hk & Hq)]]; [left|done|].
    exists w, (resolve_lock_fut tk). split; [done|].
    rewrite list_lookup_alter_eq, Hk. split; [done|].
    apply handed_owns.
    destruct (resolve_lock_fut_frames tk) as (_ & _ & R & _). congruence.
  - intros i tk' Hne Hi Hw. destruct (K i tk' Hi) as (tk & Hk & [->|[-> _]]).
    + by eapply E.
    + destruct (resolve_lock_fut_frames tk) as (_ & _ & _ & _ & R).
      rewrite R in Hw. by eapply E.
  - intros Hv. right. destruct (C Hv) as [?|(i & tk & Hne & Hi & Hh)]; [done|].
    destruct (Lock._waiters (lock s)) as [|w ws]; [by exists i, tk|].
    destruct (decide (w = i)) as [->|Hw].
    + exists i, (resolve_lock_fut tk). split; [done|].
      rewrite list_lookup_alter_eq, Hi. split; [done|].
      destruct (resolve_lock_fut_frames tk) as (_ & _ & _ & R & _). congruence.
    + exists i, tk. by rewrite list_lookup_alter_ne.
Qed.

Lemma live_run_event_set t q lk ev s :
  live_run t q lk ev s -> live_run t q lk false (event_set s).
Proof.
  intros [Q W S N L O E C]. rewrite event_set_eq.
  assert (K : forall i tk',
             (if Event._value (event s) then tasks s
              else foldr (fun w ts => alter resolve_event_fut w ts) (tasks s)
                     (Event._waiters (event s))) !! i = Some tk' ->
             exists tk, tasks s !! i = Some tk
                        /\ (tk' = tk \/ tk' = resolve_event_fut tk)).
  { intros i tk'. destruct (Event._value (event s)); [by eauto|].
    rewrite lookup_foldr_alter by apply resolve_event_fut_idemp.
    destruct (decide _); [|by eauto].
    destruct (tasks s !! i) as [tk|]; [|done]. simpl. intros [= <-]. eauto. }
  assert (K' : forall i tk,
             tasks s !! i = Some tk ->
             exists tk',
               (if Event._value (event s) then tasks s
                else foldr (fun w ts => alter resolve_event_fut w ts) (tasks s)
                       (Event._waiters (event s))) !! i = Some tk'
               /\ (tk' = tk \/ tk' = resolve_event_fut tk)).
  { intros i tk Hi. destruct (Event._value (event s)); [by eauto|].
    rewrite lookup_foldr_alter by apply resolve_event_fut_idemp.
    rewrite Hi. destruct (decide _); simpl; eauto. }
  split; simpl.
  - intros i tk' Hne Hi Hw. destruct (K i tk' Hi) as (tk & Hk & [->| ->]).
    + by eapply Q.
    + destruct (resolve_event_fut_frames tk) as (R & _). rewrite R in Hw.
      by eapply Q.
  - intros w Hw. destruct (W w Hw) as [?|[Hne (tk & Hk & Hq)]]; [by left|].
    right. split; [done|]. destruct (K' w tk Hk) as (tk' & Hk' & [->| ->]).
    + eauto.
    + exists (resolve_event_fut tk). split; [done|].
      destruct (resolve_event_fut_frames tk) as (_ & R & _). congruence.
  - done.
  - done.
  - intros Hl. destruct (L Hl) as [?|(i & tk & Hne & Hi & Hh)]; [by left|].
    right. destruct (K' i tk Hi) as (tk' & Hk' & [->| ->]).
    + by exists i, tk.
    + exists i, (resolve_event_fut tk). repeat split; try done.
      destruct (resolve_event_fut_frames tk) as (_ & _ & _ & R & _). congruence.
  - intros Hw. destruct (O Hw) as [?|[?|(i & tk & Hne & Hi & Ho)]];
      [by left|by right; left|].
    right. right. destruct (K' i tk Hi) as (tk' & Hk' & [->| ->]).
    + by exists i, tk.
    + exists i, (resolve_event_fut tk). repeat split; try done.
      destruct (resolve_event_fut_frames tk) as (_ & _ & R & _). congruence.
  - intros i tk' Hne Hi Hw. exfalso.
    destruct (Event._value (event s)) eqn:Ev.
    + by destruct (E i tk' Hne Hi Hw).
    + rewrite lookup_foldr_alter in Hi by apply resolve_event_fut_idemp.
      destruct (decide (i ∈ Event._waiters (event s))) as [Hin|Hin].
      * destruct (tasks s !! i) as [tk|]; [|done]. simpl in Hi.
        injection Hi as <-.
        destruct (resolve_event_fut_frames tk) as (_ & _ & _ & _ & R). congruence.
      * apply Hin. by destruct (E i tk' Hne Hi Hw).
  - done.
Qed.

Lemma live_run_event_clear t q lk ev s :
  live_run t q lk ev s -> live_run t q lk true (event_clear s).
Proof.
  intros [Q W S N L O E C]. split; simpl; auto.
  intros i tk Hne Hi Hw. split; [done|]. by destruct (E i tk Hne Hi Hw).
Qed.

Lemma live_run_event_enqueue t q lk ev u s :
  live_run t q lk ev s -> live_run t q lk ev (event_enqueue u s).
Proof.
  intros [Q W S N L O E C]. split; simpl; auto.
  intros i tk Hne Hi Hw. destruct (E i tk Hne Hi Hw) as [E1 E2].
  split; [done|]. apply elem_of_app. by left.
Qed.

Lemma live_run_event_resume t q lk ev s :
  live_run t q lk ev s -> live_run t q lk ev (event_resume t s).
Proof.
  intros [Q W S N L O E C]. split; simpl; auto.
  intros i tk Hne Hi Hw. destruct (E i tk Hne Hi Hw) as [E1 E2].
  split; [done|]. by apply elem_of_remove_first_ne.
Qed.

(** Leaving a turn of the loop: the frame of the running task is stored. *)
Lemma live_run_set_task t q lk ev c k s :
  live_run t q lk ev s ->
  q <> Q_handed ->
  (lk = true -> holds (mk_task c k) = true) ->
  (ev = true -> holds (mk_task c k) = true) ->
  handed (mk_task c k) = false ->
  (lock_queued (mk_task c k) = true <-> q = Q_waiting) ->
  (event_waiting (mk_task c k) = true ->
   Event._value (event s) = false /\ t ∈ Event._waiters (event s)) ->
  (t < length (tasks s))%nat ->
  live_inv (set_task t c k s).
Proof.
  intros [Q W S N L O E C] Hq Hlk Hev Hh Hqueued Hevent Hlen.
  assert (Hself : tasks (set_task t c k s) !! t = Some (mk_task c k)).
  { simpl. by apply list_lookup_insert_eq. }
  assert (K : forall i ti, tasks (set_task t c k s) !! i = Some ti ->
                           (i = t /\ ti = mk_task c k)
                           \/ (i <> t /\ tasks s !! i = Some ti)).
  { intros i ti. destruct (decide (i = t)) as [->|Hne].
    - rewrite Hself. intros [= <-]. by left.
    - simpl. rewrite list_lookup_insert_ne by done. auto. }
  assert (K' : forall i ti, i <> t -> tasks s !! i = Some ti ->
                            tasks (set_task t c k s) !! i = Some ti).
  { intros i ti Hne Hi. simpl. by rewrite list_lookup_insert_ne. }
  split.
  - intros i ti Hi Hw. destruct (K i ti Hi) as [[-> ->]|[Hne Hi']].
    + apply S. apply Hqueued. by apply lock_waiting_queued.
    + by eapply Q.
  - intros w Hw. destruct (W w Hw) as [[-> Hq']|[Hne (tk & Hk & Hlq)]].
    + exists (mk_task c k). split; [done|]. apply Hqueued. by destruct q.
    + exists tk. split; [by apply K'|done].
  - done.
  - intros Hl. destruct (L Hl) as [Hlk'|(i & tk & Hne & Hi & Hhold)].
    + exists t, (mk_task c k). split; [done|]. by apply Hlk.
    + exists i, tk. split; [by apply K'|done].
  - intros Hw. destruct (O Hw) as [Hlk'|[?|(i & tk & Hne & Hi & Ho)]]; [|done|].
    + exists t, (mk_task c k). split; [done|]. apply holds_owns. by apply Hlk.
    + exists i, tk. split; [by apply K'|done].
  - intros i ti Hi Hw. destruct (K i ti Hi) as [[-> ->]|[Hne Hi']].
    + by apply Hevent.
    + by eapply E.
  - intros Hv. destruct (C Hv) as [Hev'|(i & tk & Hne & Hi & Hhold)].
    + exists t, (mk_task c k). split; [done|]. by apply Hev.
    + exists i, tk. split; [by apply K'|done].
Qed.

Lemma live_run_log t q lk ev e s :
  live_run t q lk ev s -> live_run t q lk ev (log e s).
Proof. by apply live_run_ext. Qed.

Lemma live_run_set_api_key t q lk ev k s :
  live_run t q lk ev s -> live_run t q lk ev (set_api_key k s).
Proof. by apply live_run_ext. Qed.

Lemma live_run_set_token t q lk ev tok s :
  live_run t q lk ev s -> live_run t q lk ev (_set_token tok s).
Proof. by apply live_run_ext. Qed.

Lemma live_run_bump_version t q lk ev s :
  live_run t q lk ev s -> live_run t q lk ev (bump_version s).
Proof. by apply live_run_ext. Qed.

Lemma live_run_clear_token t q lk ev s :
  live_run t q lk ev s -> live_run t q lk ev (clear_token s).
Proof. by apply live_run_ext. Qed.

Lemma live_run_fetch_token_start t q lk ev u s :
  live_run t q lk ev s -> live_run t q lk ev (fetch_token_start u s).
Proof. by apply live_run_ext. Qed.

Lemma live_run_bind t q lk ev s :
  live_run t q lk ev s ->
  live_run t q lk ev (mk_state (tm s) (api_key s) true (tasks s) (net s)).
Proof. by apply live_run_ext. Qed.

Lemma live_run_return t k r s :
  live_run t Q_no false false s -> (t < length (tasks s))%nat ->
  live_inv (return_ t k r s).
Proof.
  intros J Hlen. destruct k, r; unfold return_, invoke_api_call;
    (eapply live_run_set_task; [try apply live_run_log; exact J|..]);
    try done.
Qed.

Ltac live_walk :=
  repeat lazymatch goal with
    | |- live_run _ _ _ _ (log _ _) => apply live_run_log
    | |- live_run _ _ _ _ (set_api_key _ _) => apply live_run_set_api_key
    | |- live_run _ _ _ _ (event_clear _) => eapply live_run_event_clear
    | |- live_run _ _ _ _ (event_enqueue _ _) => apply live_run_event_enqueue
    | |- live_run _ _ _ _ (event_resume _ _) => apply live_run_event_resume
    | |- live_run _ _ _ _ (_set_token _ _) => apply live_run_set_token
    | |- live_run _ _ _ _ (bump_version _) => apply live_run_bump_version
    | |- live_run _ _ _ _ (clear_token _) => apply live_run_clear_token
    | |- live_run _ _ _ _ (fetch_token_start _ _) =>
        apply live_run_fetch_token_start
    | |- live_run _ _ _ _ (mk_state _ _ true _ _) => apply live_run_bind
    | |- live_run _ _ _ _ (event_set _) => eapply live_run_event_set
    | |- live_run _ _ _ _ (lock_enqueue _ _) =>
        apply live_run_lock_enqueue; [assumption|]
    | |- live_run _ _ _ _ (lock_release _) => apply live_run_lock_release
    | |- live_run _ _ _ _ (lock_resume _ _) => apply live_run_lock_resume
    | |- live_run _ _ _ _ (lock_take _) =>
        apply live_run_lock_take; [assumption|]
    | |- live_run _ _ _ _ _ => eassumption
    end.

Lemma length_return_arg_lock_release s : length (tasks (lock_release s)) = length (tasks s).
Proof. rewrite lock_release_eq. simpl. apply length_wake_head. Qed.

Lemma length_event_set s : length (tasks (event_set s)) = length (tasks s).
Proof. rewrite event_set_eq. simpl. apply length_wake_all. Qed.

Ltac task_bound Ht :=
  repeat (rewrite length_return_arg_lock_release || rewrite length_event_set);
  simpl; eapply lookup_lt_Some; exact Ht.

Ltac live_side Ht :=
  first
    [ done
    | split; done
    | task_bound Ht
    | intros _; simpl; split;
      [ match goal with
        | H : negb (Event.is_set _) = true |- _ =>
            apply negb_true_iff in H; exact H
        end
      | apply elem_of_app; right; left ] ].

Lemma live_inv_step a s s' : live_inv s -> step a s = Some s' -> live_inv s'.
Proof.
  intros I H. destruct a as [t|t r|t r|t o]; simpl in H.
  - unfold resume in H.
    destruct (tasks s !! t) as [[c k]|] eqn:Ht; [|done]. simpl in H.
    pose proof (live_run_start t _ s I Ht) as J.
    destruct c; try done; case_step H; injection H as <-;
      unfold queue_mode_of, holds, handed, lock_waiting in J; simpl in J;
      unfold_coroutines;
      repeat match goal with
             | |- context [match ?x with _ => _ end] => destruct x eqn:?
             end.
    all: try (eapply live_run_return; [live_walk|task_bound Ht]; fail).
    all: eapply live_run_set_task; [live_walk|..]; live_side Ht.
  - destruct (tasks s !! t) as [[c k]|] eqn:Ht; [|done].
    pose proof (live_run_start t _ s I Ht) as J.
    destruct c; try done; case_step H; injection H as <-;
      unfold queue_mode_of, holds, handed, lock_waiting in J; simpl in J;
      (eapply live_run_set_task; [exact J|..]); live_side Ht.
  - destruct (tasks s !! t) as [[c k]|] eqn:Ht; [|done].
    pose proof (live_run_start t _ s I Ht) as J.
    destruct c; try done; case_step H; injection H as <-;
      unfold queue_mode_of, holds, handed, lock_waiting in J; simpl in J;
      (eapply live_run_set_task; [exact J|..]); live_side Ht.
  - destruct (tasks s !! t) as [[c k]|] eqn:Ht; [|done].
    pose proof (live_run_start t _ s I Ht) as J.
    destruct c; try done; case_step H; injection H as <-;
      unfold queue_mode_of, holds, handed, lock_waiting in J; simpl in J;
      (eapply live_run_set_task; [exact J|..]); live_side Ht.
Qed.

Lemma live_inv_exec sch s s' : live_inv s -> exec sch s = Some s' -> live_inv s'.
Proof.
  revert s. induction sch as [|a sch IH]; intros s I H; simpl in H.
  - by injection H as <-.
  - destruct (step a s) as [s1|] eqn:E; [|done].
    eapply IH; [|done]. by eapply live_inv_step.
Qed.

Lemma live_inv_spawn login hash kid tok v key bound cs lg :
  forallb entry_frame cs = true ->
  live_inv (mk_state (idle_tm login hash kid tok v) key bound (spawn cs) lg).
Proof.
  intros Hcs.
  assert (N : forall i ti, spawn cs !! i = Some ti ->
                           exists c, ti = mk_task c KTop /\ entry_frame c = true).
  { intros i ti. unfold spawn. rewrite list_lookup_fmap.
    destruct (cs !! i) as [c|] eqn:Hc; [|done]. simpl. intros [= <-].
    exists c. split; [done|].
    apply (proj1 (forallb_forall _ _) Hcs c).
    apply list_elem_of_In. by eapply list_elem_of_lookup_2. }
  split; simpl; try done.
  - intros i ti Hi Hw. destruct (N i ti Hi) as (c & -> & Hc). by destruct c.
  - intros w Hw. by apply elem_of_nil in Hw.
  - apply NoDup_nil_2.
  - intros i ti Hi Hw. destruct (N i ti Hi) as (c & -> & Hc). by destruct c.
Qed.

(** A task that is not suspended on the lock or the event can go on. *)
Lemma task_cases tk :
  is_finished tk = true \/ awaits_network tk = true
  \/ lock_waiting tk = true \/ event_waiting tk = true
  \/ (forall i st, tasks st !! i = Some tk -> is_Some (step (Run i) st)).
Proof.
  destruct tk as [c k].
  destruct c as [|[]|[]| |?[]|?[]|?[]| |[]| |?[]|]; simpl; auto;
    right; right; right; right; intros i st Hi; unfold resume; rewrite Hi;
    simpl; by eexists.
Qed.

Lemma reply_enabled t tk s :
  tasks s !! t = Some tk -> awaits_network tk = true ->
  exists a s', actor a = t /\ step a s = Some s'.
Proof.
  intros Ht Ha. destruct tk as [c k].
  destruct c as [|?|[]| |? ?|? ?|?[]| |[]| |?[]|]; try done.
  - exists (AuthReply t (inr "")). simpl. rewrite Ht. by eexists.
  - exists (AuthReply t (inr "")). simpl. rewrite Ht. by eexists.
  - exists (LogoutReply t None). simpl. rewrite Ht. by eexists.
  - exists (ApiReply t (Returned VNone)). simpl. rewrite Ht. by eexists.
Qed.

Lemma owner_goes_on i tk s :
  tasks s !! i = Some tk -> owns tk = true ->
  awaits_network tk = true \/ is_Some (step (Run i) s).
Proof.
  intros Hi Ho. destruct (task_cases tk) as [H|[H|[H|[H|H]]]]; auto;
    destruct tk as [[] ?]; simpl in *; try done;
    repeat match goal with b : bool |- _ => destruct b end; done.
Qed.

Lemma forallb_false_elem {A} (f : A -> bool) (l : list A) :
  forallb f l = false -> exists i x, l !! i = Some x /\ f x = false.
Proof.
  induction l as [|x l IH]; simpl; [done|].
  destruct (f x) eqn:E; simpl.
  - intros H. destruct (IH H) as (i & y & Hi & Hy). by exists (S i), y.
  - intros _. by exists 0%nat, x.
Qed.

Lemma live_inv_progress s :
  live_inv s -> all_finished s = false ->
  (exists t s', step (Run t) s = Some s')
  \/ (exists t tk, tasks s !! t = Some tk /\ awaits_network tk = true).
Proof.
  intros [Q W N L O E C] Hf.
  assert (Hex : exists i tk, tasks s !! i = Some tk /\ is_finished tk = false).
  { by apply forallb_false_elem. }
  destruct Hex as (i & tk & Hi & Hn).
  assert (Howner : forall j tj, tasks s !! j = Some tj -> owns tj = true ->
            (exists t s', step (Run t) s = Some s')
            \/ (exists t tk, tasks s !! t = Some tk /\ awaits_network tk = true)).
  { intros j tj Hj Ho. destruct (owner_goes_on j tj s Hj Ho) as [H|[s' H]].
    - right. by exists j, tj.
    - left. by exists j, s'. }
  destruct (task_cases tk) as [H|[H|[H|[H|H]]]].
  - congruence.
  - right. by exists i, tk.
  - assert (Hw : Lock._waiters (lock s) <> []).
    { intros Hnil. pose proof (Q i tk Hi H) as Hin. rewrite Hnil in Hin.
      by apply elem_of_nil in Hin. }
    destruct (O Hw) as (j & tj & Hj & Ho). by eapply Howner.
  - destruct (E i tk Hi H) as [Hv _].
    destruct (C Hv) as (j & tj & Hj & Hh). eapply Howner; [done|].
    by apply holds_owns.
  - destruct (H i s Hi) as [s' Hs']. left. by exists i, s'.
Qed.

(** X13: no deadlock.  From an Authority as [__init__] leaves it and tasks
    that have not run, after every schedule, as long as some task has not
    finished, either some task can be resumed or some task awaits a reply of
    the network, and a task that awaits a reply goes on when the reply
    comes: no task is left waiting for a lock or an event that nobody will
    release or set. *)
Theorem no_deadlock (login hash kid : string) (tok : option string) (v : Z)
    (key : dict.t string) (bound : bool) (cs : list frame)
    (lg : list net_event) (sch : list action) (s : state)
    (Hcs : forallb entry_frame cs = true)
    (Hexec : exec sch (mk_state (idle_tm login hash kid tok v) key bound
                         (spawn cs) lg) = Some s)
    (Hunfinished : all_finished s = false) :
  ((exists t s', step (Run t) s = Some s')
   \/ (exists t tk, tasks s !! t = Some tk /\ awaits_network tk = true))
  /\ (forall t tk,
        tasks s !! t = Some tk -> awaits_network tk = true ->
        exists a s', actor a = t /\ step a s = Some s').
Proof.
  assert (I : live_inv s).
  { eapply live_inv_exec; [|exact Hexec]. by apply live_inv_spawn. }
  split; [by apply live_inv_progress|].
  intros t tk. apply reply_enabled.
Qed.

Lemma no_deadlock_witness :
  let s0 := ready_state [refresh_entry e401; refresh_entry e401;
                         ensure_token_entry; execute_entry] in
  let sch := [Run 0; Run 1; Run 3; ApiReply 3 (Raised e401); Run 3] in
  (exists t s', step (Run t) (after sch s0) = Some s')
  \/ (exists t tk, tasks (after sch s0) !! t = Some tk
                   /\ awaits_network tk = true).
Proof.
  intros s0 sch.
  assert (Hcs : forallb entry_frame
                  [refresh_entry e401; refresh_entry e401;
                   ensure_token_entry; execute_entry] = true) by reflexivity.
  assert (Hexec : exec sch s0 = Some (after sch s0)) by (vm_compute; reflexivity).
  assert (Hunf : all_finished (after sch s0) = false) by (vm_compute; reflexivity).
  destruct (no_deadlock "user" "hash" "host:user" (Some "old") 1
              [("iikoCookieAuth", "old")] true _ [] sch (after sch s0)
              Hcs Hexec Hunf) as [A _].
  exact A.
Defined.

(** ** The flags of the lock and of the event *)

Lemma event_effect_step a s s' tk :
  step a s = Some s' -> tasks s !! actor a = Some tk ->
  exists tk', tasks s' !! actor a = Some tk' /\ event_effect s s' tk tk'.
Proof.
  intros H Hu. destruct tk as [c k]. unfold event_effect.
  destruct a as [u|u r|u r|u o]; simpl in H, Hu.
  - unfold resume in H. rewrite Hu in H. simpl in H.
    destruct c; try done; case_step H; injection H as <-;
      unfold_coroutines;
      repeat match goal with
             | |- context [match ?x with _ => _ end] => destruct x eqn:?
             end.
    all: normal_form; fields.
    all: own_lookup Hu.
    all: eexists; (split; [reflexivity|]).
    all: rewrite ?return_code_raised; simpl.
    all: try (destruct k; simpl; naive_solver).
  - rewrite Hu in H. destruct c; try done; case_step H; injection H as <-;
      simpl; own_lookup Hu; eexists; (split; [reflexivity|]); naive_solver.
  - rewrite Hu in H. destruct c; try done; case_step H; injection H as <-;
      simpl; own_lookup Hu; eexists; (split; [reflexivity|]); naive_solver.
  - rewrite Hu in H. destruct c; try done; case_step H; injection H as <-;
      simpl; own_lookup Hu; eexists; (split; [reflexivity|]); naive_solver.
Qed.

Lemma fetch_clears_step a s s' :
  mutex_inv s ->
  (fetching s = true -> Event._value (event s) = false) ->
  step a s = Some s' ->
  fetching s' = true -> Event._value (event s') = false.
Proof.
  intros M I H Hf. apply fetching_true in Hf as (i & ti & Hi & Hh).
  destruct (step_actor a s s' H) as [tk Hu].
  destruct (event_effect_step a s s' tk H Hu) as (tk' & Hu' & Heff).
  destruct (decide (i = actor a)) as [->|Hne].
  - assert (ti = tk') by congruence. subst ti.
    destruct Heff as [[Hk Hv]|[[_ Hv]|[_ Hk]]]; [|done|congruence].
    rewrite Hv. apply I. apply fetching_true. exists (actor a), tk.
    split; [done|congruence].
  - destruct (step_other_woken_inv i a s s' ti H Hne Hi) as (t0 & H0 & W).
    assert (Hh0 : holds t0 = true).
    { rewrite (holds_eq_view t0 ti); [done|]. symmetry. by apply woken_view. }
    assert (Hv0 : Event._value (event s) = false).
    { apply I. apply fetching_true. by exists i, t0. }
    destruct Heff as [[Hk Hv]|[[_ Hv]|[Hk _]]]; [congruence|done|].
    exfalso. apply Hne.
    eapply (mi_unique s M i (actor a)); eauto using holds_owns.
Qed.

Lemma fetch_clears_exec sch s s' :
  mutex_inv s ->
  (fetching s = true -> Event._value (event s) = false) ->
  exec sch s = Some s' ->
  fetching s' = true -> Event._value (event s') = false.
Proof.
  revert s. induction sch as [|a sch IH]; intros s M I H; simpl in H.
  - by injection H as <-.
  - destruct (step a s) as [s1|] eqn:E; [|done].
    eapply (IH s1); [by eapply mutex_inv_step| |done].
    by eapply fetch_clears_step.
Qed.

(** X14: the flags tell whether a fetch is in progress.  From an Authority
    as [__init__] leaves it and tasks that have not run, after every schedule
    the lock is marked as held exactly when some task is fetching a token,
    the refresh event is cleared exactly when some task is fetching a token,
    and the queue of the lock holds each task suspended in [acquire] once and
    nothing else. *)
Theorem flags_follow_fetch (login hash kid : string) (tok : option string)
    (v : Z) (key : dict.t string) (bound : bool) (cs : list frame)
    (lg : list net_event) (sch : list action) (s : state)
    (Hcs : forallb entry_frame cs = true)
    (Hexec : exec sch (mk_state (idle_tm login hash kid tok v) key bound
                         (spawn cs) lg) = Some s) :
  (Lock._locked (lock s) = true <-> fetching s = true)
  /\ (Event._value (event s) = false <-> fetching s = true)
  /\ NoDup (Lock._waiters (lock s))
  /\ (forall i, i ∈ Lock._waiters (lock s)
                <-> exists tk, tasks s !! i = Some tk /\ lock_queued tk = true).
Proof.
  assert (I : live_inv s).
  { eapply live_inv_exec; [|exact Hexec]. by apply live_inv_spawn. }
  assert (M : mutex_inv s).
  { eapply mutex_inv_exec; [|exact Hexec]. by apply mutex_inv_spawn. }
  assert (F : fetching s = true -> Event._value (event s) = false).
  { eapply fetch_clears_exec; [| |exact Hexec]; [by apply mutex_inv_spawn|].
    intros Hf. apply fetching_true in Hf as (i & ti & Hi & Hh).
    simpl in Hi. apply (spawn_not_holding cs i _ Hcs) in Hi.
    apply owns_false in Hi as [Hi _]. congruence. }
  destruct I as [Q W N L O E C].
  split; [|split; [|split; [done|]]].
  - split.
    + intros Hl. apply fetching_true. by apply L.
    + intros Hf. apply fetching_true in Hf as (i & ti & Hi & Hh).
      by eapply (mi_locked s M).
  - split; [|done]. intros Hv. apply fetching_true. by apply C.
  - intros i. split; [by apply W|].
    intros (tk & Hi & Hq).
    destruct (lock_queued_cases tk Hq) as [Hh|Hw].
    + by eapply (mi_handed s M).
    + by eapply Q.
Qed.

Lemma flags_follow_fetch_witness :
  let s0 := ready_state [refresh_entry e401; refresh_entry e401;
                         ensure_token_entry; execute_entry] in
  let sch := [Run 0; Run 1; Run 3; ApiReply 3 (Raised e401); Run 3] in
  fetching (after sch s0) = true
  /\ Lock._locked (lock (after sch s0)) = true
  /\ Event._value (event (after sch s0)) = false.
Proof.
  intros s0 sch.
  assert (Hcs : forallb entry_frame
                  [refresh_entry e401; refresh_entry e401;
                   ensure_token_entry; execute_entry] = true) by reflexivity.
  assert (Hexec : exec sch s0 = Some (after sch s0)) by (vm_compute; reflexivity).
  assert (Hf : fetching (after sch s0) = true) by (vm_compute; reflexivity).
  destruct (flags_follow_fetch "user" "hash" "host:user" (Some "old") 1
              [("iikoCookieAuth", "old")] true _ [] sch (after sch s0)
              Hcs Hexec) as (A & B & _).
  split; [exact Hf|]. split; [by apply A | by apply B].
Defined.

(** ** Logout *)

(** X15: [logout] ends the session whatever the server answers.  On an
    Authority that stores no token a [logout] task returns [None] at once
    and leaves everything else as it is, without a request.  On one that
    stores a token it sends one [logout_get] with that token and, whether
    the call returns or raises, returns [None] with the token and the
    client's key cleared and the version, the lock and the event untouched;
    a second [logout] then makes no request. *)
Theorem logout_clears_session (s : state) (t : nat)
    (Hentry : tasks s !! t = Some (mk_task logout_entry KTop)) :
  (token s = None ->
   step (Run t) s = Some (set_task t (finished (Returned VNone)) KTop s))
  /\ (forall key r,
        token s = Some key ->
        exists s',
          exec [Run t; LogoutReply t r; Run t] s = Some s'
          /\ net s' = net s ++ [LogoutGet t key]
          /\ token s' = None /\ api_key s' = []
          /\ version s' = version s
          /\ lock s' = lock s /\ event s' = event s
          /\ tasks s' = <[t := mk_task (finished (Returned VNone)) KTop]> (tasks s)
          /\ forall u,
               tasks s !! u = Some (mk_task logout_entry KTop) -> u <> t ->
               step (Run u) s'
               = Some (set_task u (finished (Returned VNone)) KTop s')).
Proof.
  assert (Hlt : (t < length (tasks s))%nat) by (by eapply lookup_lt_Some).
  split.
  - intros Htok. simpl. unfold resume. rewrite Hentry. simpl.
    unfold logout. rewrite Htok. by rewrite return_eq, app_nil_r.
  - intros key r Htok.
    remember (set_task t (logout_await None) KTop (log (LogoutGet t key) s))
      as s1 eqn:Hs1.
    remember (set_task t (logout_await (Some r)) KTop s1) as s2 eqn:Hs2.
    assert (E1 : step (Run t) s = Some s1).
    { simpl. unfold resume. rewrite Hentry. simpl. unfold logout.
      by rewrite Htok, Hs1. }
    assert (H1 : tasks s1 !! t = Some (mk_task (logout_await None) KTop)).
    { rewrite Hs1. simpl. by apply list_lookup_insert_eq. }
    assert (E2 : step (LogoutReply t r) s1 = Some s2).
    { simpl. by rewrite H1, Hs2. }
    assert (H2 : tasks s2 !! t = Some (mk_task (logout_await (Some r)) KTop)).
    { rewrite Hs2, Hs1. simpl. apply list_lookup_insert_eq.
      by rewrite length_insert. }
    assert (E3 : step (Run t) s2
                 = Some (return_ t KTop (Returned VNone) (clear_token s2))).
    { simpl. unfold resume. by rewrite H2. }
    exists (return_ t KTop (Returned VNone) (clear_token s2)).
    split; [by rewrite (exec_cons _ _ _ _ E1), (exec_cons _ _ _ _ E2),
              (exec_cons _ _ _ _ E3)|].
    rewrite return_eq, Hs2, Hs1. simpl.
    rewrite !list_insert_insert_eq, app_nil_r.
    repeat split; try done.
    intros u Hu Hne. unfold resume. simpl.
    rewrite list_lookup_insert_ne by done. rewrite Hu. simpl.
    unfold logout. simpl. by rewrite return_eq, app_nil_r.
Qed.

Lemma logout_clears_session_witness :
  let s := ready_state [logout_entry; logout_entry] in
  exists s',
    exec [Run 0; LogoutReply 0 (Some network_error); Run 0] s = Some s'
    /\ net s' = [LogoutGet 0 "old"]
    /\ token s' = None /\ api_key s' = []
    /\ step (Run 1) s' = Some (set_task 1 (finished (Returned VNone)) KTop s').
Proof.
  intros s.
  assert (Hentry : tasks s !! 0%nat = Some (mk_task logout_entry KTop))
    by reflexivity.
  assert (Htok : token s = Some "old") by reflexivity.
  assert (Hu : tasks s !! 1%nat = Some (mk_task logout_entry KTop))
    by reflexivity.
  destruct (logout_clears_session s 0 Hentry) as [_ B].
  destruct (B "old" (Some network_error) Htok)
    as (s' & E & N & T & K & _ & _ & _ & _ & U).
  exists s'. split; [exact E|]. split; [exact N|]. split; [exact T|].
  split; [exact K|]. apply (U 1%nat Hu). discriminate.
Defined.

End AsyncFacts.

(** ** Helper reads of the nomenclature API *)

Section HelperReads.

Import Nomenclature NomenclatureHelpers.

Variable ProductType : Type.
Variable product_type_truthy : ProductType -> bool.

Lemma more_than_one_several {A} (arg : option (list A)) :
  more_than_one arg = true <-> several arg.
Proof.
  destruct arg as [l|]; simpl; [|done].
  rewrite Nat.ltb_lt. lia.
Qed.

Lemma more_than_one_not_several {A} (arg : option (list A)) :
  more_than_one arg = false <-> ~ several arg.
Proof.
  rewrite <- more_than_one_several. by destruct (more_than_one arg).
Qed.

Lemma at_most_one_singleton_if {A} (truthy : A -> bool) (x : option A) :
  at_most_one (singleton_if truthy x).
Proof. destruct x as [v|]; simpl; [|done]. destruct (truthy v); simpl; lia. Qed.

Lemma at_most_one_parent (b : bool) (x : option string) :
  at_most_one (if b then Some [] else singleton_if str_truthy x).
Proof. destruct b; [simpl; lia | apply at_most_one_singleton_if]. Qed.

(** X1: each of the three list reads sends a GET request exactly when some
    filter argument holds two values or more, and a POST request otherwise;
    no filter of a POST request ever holds more than one value. *)
Theorem post_filters_hold_at_most_one (include_deleted : option bool)
    (ids nums category_ids parent_ids codes : option (list string))
    (types : option (list ProductType)) (revision_from : option Z) :
  let p := get_products_list ProductType product_type_truthy include_deleted
             ids nums types category_ids parent_ids in
  let g := get_product_groups_list include_deleted ids parent_ids
             revision_from nums codes in
  let c := get_user_categories_list include_deleted ids revision_from in
  (p_method ProductType p = GET
   <-> several ids \/ several nums \/ several types \/ several category_ids
       \/ several parent_ids)
  /\ (p_method ProductType p = POST ->
      at_most_one (p_ids ProductType p) /\ at_most_one (p_nums ProductType p)
      /\ at_most_one (p_types ProductType p)
      /\ at_most_one (p_category_ids ProductType p)
      /\ at_most_one (p_parent_ids ProductType p))
  /\ (g_method g = GET
      <-> several ids \/ several parent_ids \/ several nums \/ several codes)
  /\ (g_method g = POST ->
      at_most_one (g_ids g) /\ at_most_one (g_parent_ids g)
      /\ at_most_one (g_nums g) /\ at_most_one (g_codes g))
  /\ (c_method c = GET <-> several ids)
  /\ (c_method c = POST -> at_most_one (c_ids c)).
Proof.
  intros p g c. subst p g c.
  unfold get_products_list, get_product_groups_list, get_user_categories_list.
  simpl existsb. rewrite !orb_false_r.
  rewrite <- !more_than_one_several.
  destruct (more_than_one ids) eqn:E1, (more_than_one nums) eqn:E2,
    (more_than_one types) eqn:E3, (more_than_one category_ids) eqn:E4,
    (more_than_one parent_ids) eqn:E5, (more_than_one codes) eqn:E6;
    simpl;
    repeat match goal with
           | |- _ /\ _ => split
           | |- _ <-> _ => split
           | |- at_most_one _ => apply at_most_one_singleton_if
           | |- at_most_one _ => apply at_most_one_parent
           | |- _ -> _ => intros ?
           end;
    try discriminate; try reflexivity; try (by auto 10);
    try (exfalso; intuition discriminate).
Qed.

(** X2: a helper given an empty identifier, or an empty list of identifiers,
    drops the filter: it sends the very request of the unfiltered read and so
    reads everything.  The children of the empty parent are all groups, not
    the root groups: only [get_root_product_groups] sends the empty
    [parent_ids] list. *)
Theorem empty_filter_reads_everything (include_deleted : bool) :
  get_products_by_category ProductType product_type_truthy "" include_deleted
  = get_all_products ProductType product_type_truthy include_deleted
  /\ get_products_by_group ProductType product_type_truthy "" include_deleted
     = get_all_products ProductType product_type_truthy include_deleted
  /\ get_products_by_ids ProductType product_type_truthy [] include_deleted
     = get_all_products ProductType product_type_truthy include_deleted
  /\ get_products_by_ids ProductType product_type_truthy [""] include_deleted
     = get_all_products ProductType product_type_truthy include_deleted
  /\ get_user_categories_by_ids [] include_deleted
     = get_all_user_categories include_deleted
  /\ get_child_product_groups "" include_deleted
     = get_all_product_groups include_deleted
  /\ get_root_product_groups include_deleted
     = mk_groups POST (Some include_deleted) None (Some []) None None None
  /\ get_root_product_groups include_deleted
     <> get_all_product_groups include_deleted.
Proof. repeat split; discriminate. Qed.

(** X3: a helper given one non-empty identifier posts exactly that filter
    and no other; [get_products_by_ids] and [get_user_categories_by_ids]
    given two identifiers or more send them all, in order, by GET. *)
Theorem single_filter_helpers (x y : string) (rest : list string)
    (ty : ProductType) (include_deleted : bool)
    (Hx : str_truthy x = true) (Hty : product_type_truthy ty = true) :
  get_products_by_category ProductType product_type_truthy x include_deleted
  = mk_products ProductType POST (Some include_deleted) None None None
      (Some [x]) None
  /\ get_products_by_group ProductType product_type_truthy x include_deleted
     = mk_products ProductType POST (Some include_deleted) None None None
         None (Some [x])
  /\ get_products_by_type ProductType product_type_truthy ty include_deleted
     = mk_products ProductType POST (Some include_deleted) None None
         (Some [ty]) None None
  /\ get_products_by_ids ProductType product_type_truthy [x] include_deleted
     = mk_products ProductType POST (Some include_deleted) (Some [x]) None
         None None None
  /\ get_child_product_groups x include_deleted
     = mk_groups POST (Some include_deleted) None (Some [x]) None None None
  /\ get_user_categories_by_ids [x] include_deleted
     = mk_categories POST (Some include_deleted) (Some [x]) None
  /\ get_products_by_ids ProductType product_type_truthy (x :: y :: rest)
       include_deleted
     = mk_products ProductType GET (Some include_deleted)
         (Some (x :: y :: rest)) None None None None
  /\ get_user_categories_by_ids (x :: y :: rest) include_deleted
     = mk_categories GET (Some include_deleted) (Some (x :: y :: rest)) None.
Proof.
  unfold get_products_by_category, get_products_by_group, get_products_by_type,
    get_products_by_ids, get_child_product_groups, get_user_categories_by_ids,
    get_products_list, get_product_groups_list, get_user_categories_list,
    _get_products_via_post, _get_product_groups_via_post,
    _get_user_categories_via_post.
  simpl. rewrite Hx, Hty. repeat split.
Qed.

End HelperReads.

Lemma single_filter_helpers_witness :
  NomenclatureHelpers.get_products_by_category string str_truthy "cat-1" false
  = Nomenclature.mk_products string Nomenclature.POST (Some false) None None
      None (Some ["cat-1"]) None
  /\ NomenclatureHelpers.get_products_by_ids string str_truthy
       ["a"; "b"; "c"] true
     = Nomenclature.mk_products string Nomenclature.GET (Some true)
         (Some ["a"; "b"; "c"]) None None None None.
Proof.
  assert (Hx : str_truthy "cat-1" = true) by reflexivity.
  assert (Hty : str_truthy "DISH" = true) by reflexivity.
  destruct (single_filter_helpers string str_truthy "cat-1" "b" ["c"] "DISH"
              false Hx Hty) as (A & _).
  assert (Ha : str_truthy "a" = true) by reflexivity.
  destruct (single_filter_helpers string str_truthy "a" "b" ["c"] "DISH"
              true Ha Hty) as (_ & _ & _ & _ & _ & _ & B & _).
  split; [exact A | exact B].
Defined.

(** ** Assembly charts *)

Section ChartFacts.

Import AssemblyChart.

Variable float : Type.
Variable float_of_int : Z -> float.
Variable one : float.
Variable date : Type.
Variable today : date.
Variable ProductWriteoffStrategy : Type.
Variable ASSEMBLE : ProductWriteoffStrategy.
Variable ProductSizeAssemblyStrategy : Type.
Variable COMMON : ProductSizeAssemblyStrategy.

Lemma chart_items_loop (start : nat) (acc : list (BaseAssemblyChartItemDto float))
    (ingredients : list (string * float)) :
  foldl (fun items '(idx, (ingredient_id, amount)) =>
           items ++ [chart_item float float_of_int idx ingredient_id amount])
    acc (enumerate start ingredients)
  = acc ++ imap (fun i '(id, amt) => chart_item float float_of_int (start + i) id amt) ingredients.
Proof.
  revert start acc. induction ingredients as [|[id amt] rest IH];
    intros start acc; simpl.
  - by rewrite app_nil_r.
  - rewrite IH, <- app_assoc. simpl. rewrite Nat.add_0_r. do 2 f_equal.
    apply imap_ext. intros i [id' amt'] _. simpl. f_equal. lia.
Qed.

Lemma chart_items_imap (ingredients : list (string * float)) :
  chart_items float float_of_int ingredients
  = imap (fun i '(id, amt) => chart_item float float_of_int i id amt) ingredients.
Proof. unfold chart_items. by rewrite chart_items_loop. Qed.

(** X16: the rows of the chart built by [create_simple_assembly_chart]
    follow the ingredients: there is one row per ingredient, in the same
    order; row [i] has sort weight [i], the product of ingredient [i], its
    amount as gross, net and output amount alike, and no package; so the
    ingredients can be read back from the rows.  The chart starts on the
    given day, or today when none is given, and never ends. *)
Theorem chart_rows_follow_ingredients (product_id : string)
    (ingredients : list (string * float)) (date_from : option date)
    (assembled_amount : option float) :
  let c := create_simple_assembly_chart float float_of_int one date today
             ProductWriteoffStrategy ASSEMBLE ProductSizeAssemblyStrategy
             COMMON product_id ingredients date_from assembled_amount in
  let rows := items float date ProductWriteoffStrategy
                ProductSizeAssemblyStrategy c in
  length rows = length ingredients
  /\ (forall i id amt,
        ingredients !! i = Some (id, amt) ->
        exists row,
          rows !! i = Some row
          /\ sortWeight float row = Z.of_nat i
          /\ productId float row = id
          /\ amountIn float row = amt
          /\ amountMiddle float row = amt
          /\ amountOut float row = amt
          /\ packageTypeId float row = None)
  /\ map (fun row => (productId float row, amountIn float row)) rows
     = ingredients
  /\ map (sortWeight float) rows
     = map Z.of_nat (seq 0 (length ingredients))
  /\ dateFrom float date ProductWriteoffStrategy ProductSizeAssemblyStrategy c
     = default today date_from
  /\ dateTo float date ProductWriteoffStrategy ProductSizeAssemblyStrategy c
     = None.
Proof.
  intros c rows. subst c rows. simpl. rewrite chart_items_imap.
  split; [by rewrite length_imap|]. split; [|split; [|split; [|split]]].
  - intros i id amt Hi. exists (chart_item float float_of_int i id amt).
    rewrite list_lookup_imap, Hi. done.
  - assert (G : forall (f : nat -> nat),
               map (fun row => (productId float row, amountIn float row))
                 (imap (fun i '(id, amt) => chart_item float float_of_int (f i) id amt) ingredients)
               = ingredients).
    { induction ingredients as [|[id amt] rest IH]; intros f; simpl; [done|].
      f_equal. apply (IH (fun i => f (S i))). }
    apply (G (fun i => i)).
  - assert (G : forall start,
               map (sortWeight float)
                 (imap (fun i '(id, amt) => chart_item float float_of_int (start + i) id amt)
                    ingredients)
               = map Z.of_nat (seq start (length ingredients))).
    { induction ingredients as [|[id amt] rest IH]; intros start; simpl; [done|].
      rewrite Nat.add_0_r. f_equal. rewrite <- (IH (S start)). f_equal.
      apply imap_ext. intros i [id' amt'] _. simpl. f_equal. lia. }
    apply (G 0%nat).
  - by destruct date_from.
  - done.
Qed.

End ChartFacts.

(** ** Reading the configuration *)

Section ConfigFacts.

Import ConfigReader.

Variable yaml : Type.
Variable as_dict : yaml -> option (dict.t yaml).
Variable load : string -> exn + yaml.
Variable Config : Type.
Variable model_validate : string -> yaml -> exn + Config.

Lemma parse_config_file_cached e p d :
  parse_cache yaml Config p = Some d ->
  parse_config_file yaml as_dict load Config e p = (inr d, p).
Proof. unfold parse_config_file. by intros ->. Qed.

Lemma parse_config_file_result e p :
  match parse_config_file yaml as_dict load Config e p with
  | (inr d, p1) =>
      parse_cache yaml Config p1 = Some d /\ get_cache yaml Config p1 = get_cache yaml Config p
  | (inl exc, p1) =>
      parse_cache yaml Config p = None /\ parse_cache yaml Config p1 = None
      /\ get_cache yaml Config p1 = get_cache yaml Config p
      /\ exists evs, events yaml Config p1 = events yaml Config p ++ Getenv :: evs
  end.
Proof.
  unfold parse_config_file, parse_config_file_body.
  destruct (parse_cache yaml Config p) as [d|] eqn:E; [by rewrite E|].
  destruct (getenv e) as [path|]; simpl.
  - destruct (open_rb e path) as [exc|bytes]; simpl.
    + repeat split; try done. exists [Open path]. by rewrite <- app_assoc.
    + destruct (load bytes) as [exc|y]; simpl; [|destruct (as_dict y); simpl];
        repeat split; try done; exists [Open path]; by rewrite <- app_assoc.
  - repeat split; try done. by exists [].
Qed.

Lemma get_config_cached model root_key e p d :
  parse_cache yaml Config p = Some d ->
  parse_cache yaml Config (get_config yaml as_dict load Config model_validate model root_key e p).2
  = Some d
  /\ events yaml Config (get_config yaml as_dict load Config model_validate model root_key e p).2
     = events yaml Config p.
Proof.
  intros Hd. unfold get_config, get_config_body.
  destruct (lru_find _ _); simpl; [done|].
  rewrite (parse_config_file_cached e p d Hd).
  destruct (negb (dict.contains root_key d)); simpl; [done|].
  destruct (dict.get root_key d) as [v|]; simpl; [|done].
  by destruct (model_validate model v).
Qed.

Lemma perform_cached c p d :
  parse_cache yaml Config p = Some d ->
  parse_cache yaml Config (perform yaml as_dict load Config model_validate c p) = Some d
  /\ events yaml Config (perform yaml as_dict load Config model_validate c p) = events yaml Config p.
Proof.
  intros Hd. destruct c; simpl.
  - by rewrite (parse_config_file_cached e p d Hd).
  - by apply get_config_cached.
  - by apply get_config_cached.
Qed.

Lemma run_cached cs p d :
  parse_cache yaml Config p = Some d ->
  parse_cache yaml Config (run yaml as_dict load Config model_validate cs p) = Some d
  /\ events yaml Config (run yaml as_dict load Config model_validate cs p) = events yaml Config p.
Proof.
  revert p. induction cs as [|c cs IH]; intros p Hd; simpl; [done|].
  destruct (perform_cached c p d Hd) as [H1 H2].
  destruct (IH _ H1) as [H3 H4]. split; [done|congruence].
Qed.

(** X17: the configuration file is read once.  When [parse_config_file]
    returns a mapping, every later call of [parse_config_file], [get_config]
    or [get_iikoserver_config] works from that mapping: whatever the
    environment variable and the file have become, none of them is read
    again and [parse_config_file] returns the same mapping.  A call that
    raises caches nothing, so the next call reads the environment again;
    with the variable unset the call raises [ValueError] without opening a
    file. *)
Theorem config_file_read_once (e : env) (p : process yaml Config) :
  match parse_config_file yaml as_dict load Config e p with
  | (inr d, p1) =>
      forall cs e',
        let p' := run yaml as_dict load Config model_validate cs p1 in
        events yaml Config p' = events yaml Config p1
        /\ parse_config_file yaml as_dict load Config e' p' = (inr d, p')
  | (inl exc, p1) =>
      parse_cache yaml Config p1 = None
      /\ get_cache yaml Config p1 = get_cache yaml Config p
      /\ (exists evs, events yaml Config p1 = events yaml Config p ++ Getenv :: evs)
      /\ (getenv e = None ->
          events yaml Config p1 = events yaml Config p ++ [Getenv]
          /\ exists msg, exc = ValueError msg)
  end.
Proof.
  pose proof (parse_config_file_result e p) as R.
  destruct (parse_config_file yaml as_dict load Config e p) as [[exc|d] p1] eqn:E.
  - destruct R as (R0 & R1 & R2 & R3).
    split; [done|]. split; [done|]. split; [done|].
    intros Hnone. revert E. unfold parse_config_file, parse_config_file_body.
    rewrite R0, Hnone. intros [= <- <-]. split; [done|]. by eexists.
  - destruct R as [R1 R2]. intros cs e' p'.
    destruct (run_cached cs p1 d R1) as [H1 H2]. split; [done|].
    by apply parse_config_file_cached.
Qed.

(** X18: [get_config] validates the value under the root key and keeps the
    result: a root key that the mapping lacks raises [ValueError] naming the
    key and caches nothing; a value the model accepts is returned and cached,
    so that the same call made again returns it without reading or
    validating anything, even if the file could no longer be read. *)
Theorem get_config_cases (model root_key : string) (e : env)
    (p : process yaml Config) (d : dict.t yaml)
    (Hparsed : parse_cache yaml Config p = Some d)
    (Hmiss : lru_find (model, root_key) (get_cache yaml Config p) = None) :
  let r := get_config yaml as_dict load Config model_validate model root_key e p in
  (dict.contains root_key d = false ->
   r = (inl (ValueError ("Ключ '" +:+ root_key +:+ "' не найден в конфигурации")),
        p))
  /\ (forall v c,
        dict.get root_key d = Some v -> model_validate model v = inr c ->
        r.1 = inr c
        /\ forall e',
             (get_config yaml as_dict load Config model_validate model root_key e' r.2).1
             = inr c
             /\ events yaml Config
                  (get_config yaml as_dict load Config model_validate model root_key e' r.2).2
                = events yaml Config p)
  /\ (forall v exc,
        dict.get root_key d = Some v -> model_validate model v = inl exc ->
        r = (inl exc, p)).
Proof.
  intros r.
  assert (Hbody : forall e0,
            get_config_body yaml as_dict load Config model_validate model
              root_key e0 p
            = if negb (dict.contains root_key d) then
                (inl (ValueError
                        ("Ключ '" +:+ root_key +:+ "' не найден в конфигурации")),
                 p)
              else
                match dict.get root_key d with
                | Some v =>
                    match model_validate model v with
                    | inl exc => (inl exc, p)
                    | inr c => (inr c, p)
                    end
                | None => (inl (Exception "KeyError" None root_key), p)
                end).
  { intros e0. unfold get_config_body.
    by rewrite (parse_config_file_cached e0 p d Hparsed). }
  assert (Hr : r = match get_config_body yaml as_dict load Config model_validate
                           model root_key e p with
                   | (inr c, p1) =>
                       (inr c,
                        mk_process yaml Config (parse_cache yaml Config p1)
                          (lru_store (model, root_key) c (get_cache yaml Config p1))
                          (events yaml Config p1))
                   | (inl exc, p1) => (inl exc, p1)
                   end).
  { unfold r, get_config. by rewrite Hmiss. }
  rewrite Hr, Hbody. clear Hr r.
  split; [|split].
  - by intros ->.
  - intros v c Hv Hc. rewrite (dict_get_contains _ _ _ Hv). simpl.
    rewrite Hv, Hc. simpl. split; [done|]. intros e'.
    unfold get_config. simpl.
    assert (Hfind : lru_find (model, root_key)
                      (lru_store (model, root_key) c (get_cache yaml Config p))
                    = Some c).
    { unfold lru_find, lru_store, maxsize, key_eqb. simpl.
      by rewrite !String.eqb_refl. }
    by rewrite Hfind.
  - intros v exc Hv Hc. rewrite (dict_get_contains _ _ _ Hv). simpl.
    by rewrite Hv, Hc.
Qed.

End ConfigFacts.

Lemma get_config_cases_witness :
  let as_dict := fun y : string =>
    if String.eqb y "root" then Some [("iikoserver", "section")] else None in
  let load := fun bytes : string => inr "root" : exn + string in
  let validate := fun (model : string) (v : string) => inr v : exn + string in
  let e := ConfigReader.mk_env (Some "config.yml") (fun _ => inr "bytes") in
  let gone := ConfigReader.mk_env None (fun _ => inl network_error) in
  let p := (ConfigReader.parse_config_file string as_dict load string e
              (ConfigReader.new_process string string)).2 in
  let r := ConfigReader.get_config string as_dict load string validate
             "IikoServerConfig" "iikoserver" e p in
  r.1 = inr "section"
  /\ (ConfigReader.get_config string as_dict load string validate
        "IikoServerConfig" "iikoserver" gone r.2).1 = inr "section"
  /\ ConfigReader.events string string r.2
     = [ConfigReader.Getenv; ConfigReader.Open "config.yml"].
Proof.
  intros as_dict load validate e gone p r.
  assert (Hparsed : ConfigReader.parse_cache string string p
                    = Some [("iikoserver", "section")]) by reflexivity.
  assert (Hmiss : ConfigReader.lru_find ("IikoServerConfig", "iikoserver")
                    (ConfigReader.get_cache string string p) = None)
    by reflexivity.
  assert (Hv : dict.get "iikoserver" [("iikoserver", "section")]
               = Some "section") by reflexivity.
  assert (Hc : validate "IikoServerConfig" "section" = inr "section")
    by reflexivity.
  destruct (get_config_cases string as_dict load string validate
              "IikoServerConfig" "iikoserver" e p _ Hparsed Hmiss)
    as (_ & B & _).
  destruct (B _ _ Hv Hc) as [B1 B2]. destruct (B2 gone) as [B3 _].
  split; [exact B1|]. split; [exact B3|]. reflexivity.
Defined.

(** ** The registries over a run of the process *)

Lemma dict_get_set_other {V} (k k' : string) (v : V) (d : dict.t V) :
  k' <> k -> dict.contains k d = false ->
  dict.get k' (dict.set k v d) = dict.get k' d.
Proof.
  unfold dict.set. intros Hne H. rewrite H. clear H.
  unfold dict.get. induction d as [|[k0 v0] d IH]; simpl.
  - destruct (String.eqb_spec k k'); [congruence | done].
  - destruct (String.eqb k0 k'); [done | exact IH].
Qed.

Lemma dict_get_elem_of {V} (k : string) (v : V) (d : dict.t V) :
  dict.get k d = Some v -> (k, v) ∈ d.
Proof.
  unfold dict.get. induction d as [|[k0 v0] d IH]; simpl; [done|].
  destruct (String.eqb_spec k0 k) as [->|Hne]; simpl.
  - intros [= ->]. left.
  - intros H. right. by apply IH.
Qed.

Lemma dict_contains_keys {V} (k : string) (d : dict.t V) :
  dict.contains k d = false -> k ∉ d.*1.
Proof.
  unfold dict.contains. induction d as [|[k0 v0] d IH]; simpl.
  - intros _. apply not_elem_of_nil.
  - intros [H1 H2]%orb_false_iff. apply not_elem_of_cons. split; [|by apply IH].
    intros ->. by rewrite String.eqb_refl in H1.
Qed.

Lemma dict_keys_functional {V} (k : string) (v1 v2 : V) (d : dict.t V) :
  NoDup d.*1 -> (k, v1) ∈ d -> (k, v2) ∈ d -> v1 = v2.
Proof.
  induction d as [|[k0 v0] d IH]; simpl; intros Hnd H1 H2.
  - by apply elem_of_nil in H1.
  - apply NoDup_cons in Hnd as [Hk Hnd].
    assert (K : forall v, (k0, v) ∈ d -> False).
    { intros v Hv. apply Hk. apply list_elem_of_fmap. by exists (k0, v). }
    apply elem_of_cons in H1 as [E1|H1]; apply elem_of_cons in H2 as [E2|H2].
    + congruence.
    + injection E1 as -> ->. by apply K in H2.
    + injection E2 as -> ->. by apply K in H1.
    + by apply IH.
Qed.

Lemma dict_set_absent {V} (k : string) (v : V) (d : dict.t V) :
  dict.contains k d = false -> dict.set k v d = d ++ [(k, v)].
Proof. unfold dict.set. by intros ->. Qed.

Lemma omap_ext_in {A B} (f g : A -> option B) (l : list A) :
  (forall x, x ∈ l -> f x = g x) -> omap f l = omap g l.
Proof.
  induction l as [|x l IH]; intros H; [done|].
  assert (IH' : omap f l = omap g l).
  { apply IH. intros y Hy. apply H. by right. }
  simpl. rewrite (H x) by left.
  destruct (g x); [f_equal|]; exact IH'.
Qed.

Section RegistryRuns.

Import Registry.

Variable sha1_hexdigest : string -> string.
Variable remote_raises : nat -> option exn.

Lemma registry_wf_empty : registry_wf empty_world.
Proof.
  split; simpl; try (intros; done); try apply NoDup_nil_2.
  - intros key m H. by apply elem_of_nil in H.
  - intros key m H. by apply elem_of_nil in H.
Qed.

Lemma registry_wf_tm_get_instance api login pw key w :
  registry_wf w ->
  registry_wf (TokenManager_get_instance sha1_hexdigest api login pw key w).1.
Proof.
  intros [KT T KF F C O]. unfold TokenManager_get_instance.
  destruct (dict.contains key (tm_instances w)) eqn:E; simpl; split; simpl; auto.
  - rewrite dict_set_absent, fmap_app by done. simpl.
    apply NoDup_app. split; [done|]. split; [|apply NoDup_singleton].
    intros x Hx ->%list_elem_of_singleton. by apply (dict_contains_keys _ _ E).
  - intros key' m. rewrite dict_set_absent by done.
    intros [Hg|Hg%list_elem_of_singleton]%elem_of_app.
    + destruct (T key' m Hg) as (tm0 & Hm & Hk). exists tm0. split; [|done].
      by apply lookup_app_l_Some.
    + injection Hg as -> ->.
      exists (TokenManager__init__ sha1_hexdigest api login pw key).
      split; [|reflexivity].
      rewrite lookup_app_r by lia. by rewrite Nat.sub_diag.
Qed.

Lemma registry_wf_facade_get_instance cred w :
  registry_wf w -> registry_wf (Facade_get_instance cred w).1.
Proof.
  intros [KT T KF F C O]. unfold Facade_get_instance.
  destruct (dict.contains _ (facade_instances w)) eqn:E; simpl; split; simpl; auto.
  - rewrite dict_set_absent, fmap_app by done. simpl.
    apply NoDup_app. split; [done|]. split; [|apply NoDup_singleton].
    intros x Hx ->%list_elem_of_singleton. by apply (dict_contains_keys _ _ E).
  - intros key' f. rewrite dict_set_absent by done.
    intros [Hg|Hg%list_elem_of_singleton]%elem_of_app.
    + destruct (F key' f Hg) as (fac & Hf & Hk). exists fac. split; [|done].
      by apply lookup_app_l_Some.
    + injection Hg as -> ->.
      exists (mk_facade cred (length (api_clients w)) None).
      split; [|reflexivity].
      rewrite lookup_app_r by lia. by rewrite Nat.sub_diag.
  - intros f fac Hf. rewrite length_app. simpl.
    apply lookup_app_Some in Hf as [Hf|[_ Hf]].
    + specialize (C f fac Hf). lia.
    + apply list_lookup_singleton_Some in Hf as [_ <-]. simpl. lia.
  - intros f g fac gac Hf Hg Heq.
    apply lookup_app_Some in Hf as [Hf|[Lf Hf]];
      apply lookup_app_Some in Hg as [Hg|[Lg Hg]].
    + by eapply O.
    + apply list_lookup_singleton_Some in Hg as [_ <-]. simpl in Heq.
      specialize (C f fac Hf). lia.
    + apply list_lookup_singleton_Some in Hf as [_ <-]. simpl in Heq.
      specialize (C g gac Hg). lia.
    + apply list_lookup_singleton_Some in Hf as [Hf _].
      apply list_lookup_singleton_Some in Hg as [Hg _]. lia.
Qed.

Lemma registry_wf_logout m w : registry_wf w -> registry_wf (TokenManager_logout m w).
Proof.
  intros [KT T KF F C O]. unfold TokenManager_logout.
  destruct (token_managers w !! m) as [tm0|] eqn:E; [|by split].
  destruct (TokenManager._token tm0) eqn:Et; [|by split].
  split; simpl; auto.
  - intros key m' Hg. destruct (T key m' Hg) as (tm1 & Hm & Hk).
    destruct (decide (m' = m)) as [->|Hne].
    + exists (TokenManager.with_token None tm0).
      rewrite list_lookup_insert_eq by (by eapply lookup_lt_Some).
      split; [done|]. simpl. congruence.
    + exists tm1. by rewrite list_lookup_insert_ne.
  - intros f fac Hf. rewrite length_alter. by eapply C.
Qed.

Lemma registry_wf_logout_each ms w :
  registry_wf w -> registry_wf (foldl (fun w m => TokenManager_logout m w) w ms).
Proof.
  revert w. induction ms as [|m ms IH]; intros w H; simpl; [done|].
  apply IH. by apply registry_wf_logout.
Qed.

Lemma registry_wf_tm_close_all w :
  registry_wf w -> registry_wf (TokenManager_close_all w).
Proof.
  intros H. unfold TokenManager_close_all.
  destruct (registry_wf_logout_each (dict.values (tm_instances w)) w H)
    as [KT T KF F C O].
  split; simpl; auto; [apply NoDup_nil_2|].
  intros key m Hg. by apply elem_of_nil in Hg.
Qed.

(** What the loop over the facades leaves alone, and the call that raised. *)
Lemma close_each_frame fs w :
  let r := close_each remote_raises fs w in
  facade_instances r.1 = facade_instances w
  /\ facade_lock r.1 = facade_lock w
  /\ length (api_clients r.1) = length (api_clients w)
  /\ (forall c, api_key_at r.1 c = api_key_at w c)
  /\ (length (net w) <= length (net r.1))%nat
  /\ (forall e, r.2 = Some e ->
        exists n, remote_raises n = Some e
                  /\ (length (net w) <= n < length (net r.1))%nat).
Proof.
  revert w. induction fs as [|f fs IH]; intros w; simpl.
  { repeat split; auto. intros e [=]. }
  unfold ApiClient_close. destruct (facades w !! f) as [fac|] eqn:E.
  - assert (K0 : forall c,
               api_key_at
                 (mk_world (alter close_client (_api_client fac) (api_clients w))
                    (token_managers w) (facades w) (tm_instances w)
                    (tm_global_lock w) (facade_instances w) (facade_lock w)
                    (net w ++ [Close (_api_client fac)])) c
               = api_key_at w c).
    { intros c. unfold api_key_at. simpl.
      destruct (decide (_api_client fac = c)) as [->|Hne].
      - rewrite list_lookup_alter_eq. by destruct (api_clients w !! c).
      - by rewrite list_lookup_alter_ne. }
    destruct (remote_raises (length (net w))) as [e|] eqn:R; simpl.
    + rewrite length_alter, length_app. simpl.
      repeat split; auto; try lia.
      intros e' [= <-]. exists (length (net w)). split; [done|lia].
    + match goal with |- context [close_each _ fs ?w1] =>
        destruct (IH w1) as (A & B & L & K & N & X) end.
      simpl in *. rewrite length_alter in L. rewrite length_app in N, X.
      simpl in N, X.
      repeat split; auto; try lia.
      * intros c. by rewrite K, K0.
      * intros e He. destruct (X e He) as (n & Hn & Hr). exists n.
        split; [done|lia].
  - apply IH.
Qed.

Lemma registry_wf_facade_close_all w :
  registry_wf w -> registry_wf (Facade_close_all remote_raises w).1.
Proof.
  intros H. apply registry_wf_tm_close_all in H. unfold Facade_close_all.
  set (w1 := TokenManager_close_all w) in *.
  destruct (close_each_spec remote_raises (dict.values (facade_instances w1)) w1)
    as (cl & _ & _ & T2 & Fa2 & I2 & _).
  destruct (close_each_frame (dict.values (facade_instances w1)) w1)
    as (FI & _ & L & _).
  destruct H as [KT T KF F C O].
  destruct (close_each remote_raises _ w1) as [w2 [e|]]; simpl in *.
  - split; rewrite ?T2, ?Fa2, ?I2, ?FI, ?L; auto.
  - split; simpl; rewrite ?T2, ?Fa2, ?I2, ?L; auto.
    intros key f Hg. by apply elem_of_nil in Hg.
Qed.

Lemma registry_wf_perform c w :
  registry_wf w -> registry_wf (perform sha1_hexdigest remote_raises c w).
Proof.
  intros H. destruct c; simpl.
  - by apply registry_wf_tm_get_instance.
  - by apply registry_wf_facade_get_instance.
  - by apply registry_wf_logout.
  - by apply registry_wf_tm_close_all.
  - by apply registry_wf_facade_close_all.
Qed.

Lemma registry_wf_run cs w :
  registry_wf w -> registry_wf (run sha1_hexdigest remote_raises cs w).
Proof.
  revert w. induction cs as [|c cs IH]; intros w H; simpl; [done|].
  apply IH. by apply registry_wf_perform.
Qed.

(** The references held by the Authority registry are distinct. *)
Lemma registry_wf_values w : registry_wf w -> NoDup (dict.values (tm_instances w)).
Proof.
  intros [KT T _ _ _ _]. unfold dict.values.
  induction (tm_instances w) as [|[k m] d IH]; [apply NoDup_nil_2|].
  simpl in *. apply NoDup_cons in KT as [Hk KT].
  apply NoDup_cons. split.
  - intros Hin. apply list_elem_of_fmap in Hin as ([k' m'] & Hm & Hin).
    simpl in Hm. subst m'.
    destruct (T k m) as (a & Ha & Hka); [left|].
    destruct (T k' m) as (b & Hb & Hkb); [by right|].
    apply Hk. apply list_elem_of_fmap. exists (k', m). split; [|done].
    simpl. congruence.
  - apply IH; [done|]. intros key m' Hin. apply T. by right.
Qed.

(** X4: in every state the process reaches by [get_instance], [logout] and
    [close_all] calls, two registered keys lead to the same Authority (the
    same facade) exactly when the keys are equal; the Authority registered
    under a key was built for that key, the facade registered under a key has
    credentials with that key, and no two facade objects share an
    [ApiClient]. *)
Theorem one_instance_per_key (w0 : world) (cs : list call)
    (Hwf : registry_wf w0) :
  let w := run sha1_hexdigest remote_raises cs w0 in
  (forall k1 k2 m1 m2,
     dict.get k1 (tm_instances w) = Some m1 ->
     dict.get k2 (tm_instances w) = Some m2 -> (m1 = m2 <-> k1 = k2))
  /\ (forall k1 k2 f1 f2,
        dict.get k1 (facade_instances w) = Some f1 ->
        dict.get k2 (facade_instances w) = Some f2 -> (f1 = f2 <-> k1 = k2))
  /\ (forall key m,
        dict.get key (tm_instances w) = Some m ->
        exists tm0, token_managers w !! m = Some tm0
                    /\ TokenManager._key_id tm0 = key)
  /\ (forall key f,
        dict.get key (facade_instances w) = Some f ->
        exists fac cl,
          facades w !! f = Some fac
          /\ ApiCredentials.key_id (_credentials fac) = key
          /\ api_clients w !! _api_client fac = Some cl)
  /\ (forall f g fac gac,
        facades w !! f = Some fac -> facades w !! g = Some gac ->
        f <> g -> _api_client fac <> _api_client gac).
Proof.
  intros w. destruct (registry_wf_run cs w0 Hwf) as [KT T KF F C O].
  fold w in T, F, C, O.
  split; [|split; [|split; [|split]]].
  - intros k1 k2 m1 m2 H1%dict_get_elem_of H2%dict_get_elem_of.
    split; [|intros ->].
    + intros ->. destruct (T k1 m2 H1) as (a & Ha & <-).
      destruct (T k2 m2 H2) as (b & Hb & <-). congruence.
    + exact (dict_keys_functional _ _ _ _ KT H1 H2).
  - intros k1 k2 f1 f2 H1%dict_get_elem_of H2%dict_get_elem_of.
    split; [|intros ->].
    + intros ->. destruct (F k1 f2 H1) as (a & Ha & <-).
      destruct (F k2 f2 H2) as (b & Hb & <-). congruence.
    + exact (dict_keys_functional _ _ _ _ KF H1 H2).
  - intros key m Hg%dict_get_elem_of. by apply T.
  - intros key f Hg%dict_get_elem_of. destruct (F key f Hg) as (fac & Hf & Hk).
    destruct (lookup_lt_is_Some_2 (api_clients w) (_api_client fac)) as [cl Hc];
      [by eapply C|].
    by exists fac, cl.
  - intros f g fac gac Hf Hg Hne Heq. apply Hne. by eapply O.
Qed.

(** X5: [get_instance] of either registry never replaces what is
    registered: every key registered before leads to the same instance
    after, every stored object is unchanged, and nothing reaches the
    network. *)
Theorem get_instance_keeps_registered (w : world) (api : nat)
    (login pw key : string) (cred : ApiCredentials.t) :
  let r := TokenManager_get_instance sha1_hexdigest api login pw key w in
  let q := Facade_get_instance cred w in
  (forall key' m, dict.get key' (tm_instances w) = Some m ->
                  dict.get key' (tm_instances r.1) = Some m)
  /\ (forall m tm0, token_managers w !! m = Some tm0 ->
                    token_managers r.1 !! m = Some tm0)
  /\ api_clients r.1 = api_clients w /\ facades r.1 = facades w
  /\ facade_instances r.1 = facade_instances w /\ net r.1 = net w
  /\ (forall key' f, dict.get key' (facade_instances w) = Some f ->
                     dict.get key' (facade_instances q.1) = Some f)
  /\ (forall f fac, facades w !! f = Some fac -> facades q.1 !! f = Some fac)
  /\ (forall c cl, api_clients w !! c = Some cl -> api_clients q.1 !! c = Some cl)
  /\ token_managers q.1 = token_managers w
  /\ tm_instances q.1 = tm_instances w /\ net q.1 = net w.
Proof.
  intros r q. subst r q. unfold TokenManager_get_instance, Facade_get_instance.
  destruct (dict.contains key (tm_instances w)) eqn:E1;
    destruct (dict.contains _ (facade_instances w)) eqn:E2; simpl;
    repeat split; auto.
  all: try (intros ? ? H; by apply lookup_app_l_Some).
  all: intros key' x H;
    (rewrite dict_get_set_other; [done| |done]);
    intros ->; apply dict_get_contains in H; congruence.
Qed.

(** *** Teardown *)

Lemma net_logout m w :
  net (TokenManager_logout m w)
  = net w ++ match logout_call w m with Some ev => [ev] | None => [] end.
Proof.
  unfold TokenManager_logout, logout_call, token_at.
  destruct (token_managers w !! m) as [tm0|]; simpl; [|by rewrite app_nil_r].
  destruct (TokenManager._token tm0); simpl; by rewrite ?app_nil_r.
Qed.

Lemma logout_call_logout_ne m m' w :
  m' <> m -> logout_call (TokenManager_logout m w) m' = logout_call w m'.
Proof.
  intros Hne. unfold logout_call.
  destruct (TokenManager_logout_spec m w) as (_ & _ & _ & _ & _ & _ & _ & _ & _ & O).
  by rewrite O.
Qed.

Lemma net_logout_each ms w :
  NoDup ms ->
  net (foldl (fun w m => TokenManager_logout m w) w ms)
  = net w ++ omap (logout_call w) ms.
Proof.
  revert w. induction ms as [|m ms IH]; intros w Hnd; simpl.
  - by rewrite app_nil_r.
  - apply NoDup_cons in Hnd as [Hm Hnd]. rewrite IH by done.
    rewrite net_logout, <- app_assoc. f_equal.
    rewrite (omap_ext_in (logout_call (TokenManager_logout m w)) (logout_call w)).
    + by destruct (logout_call w m).
    + intros m' Hin. apply logout_call_logout_ne. intros ->. done.
Qed.

(** [logout] only ever empties an [api_key] dict. *)
Lemma api_key_at_logout m w c :
  api_key_at (TokenManager_logout m w) c = api_key_at w c
  \/ api_key_at (TokenManager_logout m w) c = Some [].
Proof.
  unfold TokenManager_logout, api_key_at.
  destruct (token_managers w !! m) as [tm0|]; [|by left].
  destruct (TokenManager._token tm0); [|by left]. simpl.
  destruct (decide (TokenManager._api_client tm0 = c)) as [->|Hne].
  - rewrite list_lookup_alter_eq.
    destruct (api_clients w !! c); simpl; [by right | by left].
  - rewrite list_lookup_alter_ne by done. by left.
Qed.

Lemma api_key_at_logout_self m w tm0 tok k :
  token_managers w !! m = Some tm0 -> TokenManager._token tm0 = Some tok ->
  api_key_at (TokenManager_logout m w) (TokenManager._api_client tm0) = Some k ->
  k = [].
Proof.
  unfold TokenManager_logout, api_key_at. intros -> ->. simpl.
  rewrite list_lookup_alter_eq.
  destruct (api_clients w !! _); simpl; congruence.
Qed.

Lemma api_key_at_logout_each ms w c :
  (forall k, api_key_at w c = Some k -> k = []) ->
  forall k,
    api_key_at (foldl (fun w m => TokenManager_logout m w) w ms) c = Some k ->
    k = [].
Proof.
  revert w. induction ms as [|m ms IH]; intros w H; simpl; [done|].
  apply IH. intros k. destruct (api_key_at_logout m w c) as [-> | ->]; [apply H|].
  congruence.
Qed.

Lemma logout_each_clears_api_key ms w m tm0 tok :
  m ∈ ms -> token_managers w !! m = Some tm0 ->
  TokenManager._token tm0 = Some tok ->
  forall k,
    api_key_at (foldl (fun w m => TokenManager_logout m w) w ms)
      (TokenManager._api_client tm0) = Some k ->
    k = [].
Proof.
  revert w. induction ms as [|a ms IH]; intros w Hin Hm Ht; simpl.
  - by apply elem_of_nil in Hin.
  - destruct (decide (m = a)) as [<-|Hne].
    + apply api_key_at_logout_each. intros k.
      by apply (api_key_at_logout_self m w tm0 tok k).
    + apply elem_of_cons in Hin as [?|Hin]; [done|].
      apply IH; [done| |done].
      unfold TokenManager_logout.
      destruct (token_managers w !! a) as [tma|]; [|done].
      destruct (TokenManager._token tma); [|done]. simpl.
      by rewrite list_lookup_insert_ne.
Qed.

(** X6: [TokenManager.close_all] sends exactly one [logout_get] for each
    registered Authority that holds a token, with that token, in the order
    of registration, and nothing else; afterwards the [api_key] dict of the
    client of each of them is empty, and a second [close_all] changes
    nothing and sends nothing. *)
Theorem tm_close_all_logs_out_once (w : world) (Hwf : registry_wf w) :
  let w' := TokenManager_close_all w in
  net w' = net w ++ omap (logout_call w) (dict.values (tm_instances w))
  /\ (forall key m tm0 tok k,
        dict.get key (tm_instances w) = Some m ->
        token_managers w !! m = Some tm0 ->
        TokenManager._token tm0 = Some tok ->
        api_key_at w' (TokenManager._api_client tm0) = Some k -> k = [])
  /\ TokenManager_close_all w' = w'.
Proof.
  intros w'. subst w'. unfold TokenManager_close_all. simpl.
  split; [|split].
  - apply net_logout_each. by apply registry_wf_values.
  - intros key m tm0 tok k Hg Hm Ht. unfold api_key_at. simpl.
    apply (logout_each_clears_api_key _ w m tm0 tok); try done.
    by eapply dict_get_values.
  - done.
Qed.

Lemma facade_lock_logout_each ms w :
  facade_lock (foldl (fun w m => TokenManager_logout m w) w ms) = facade_lock w.
Proof.
  revert w. induction ms as [|m ms IH]; intros w; simpl; [done|].
  rewrite IH. unfold TokenManager_logout.
  destruct (token_managers w !! m) as [tm0|]; [|done].
  by destruct (TokenManager._token tm0).
Qed.

(** X7: when a [close()] raises, [close_all] of the facade registry lets the
    exception through and stops there: the Authority registry is already
    empty and every registered Authority logged out, but the facade registry
    is not cleared, so that [get_instance] still hands out the facade
    registered before. *)
Theorem close_all_interrupted (w w' : world) (e : exn)
    (Hraise : Facade_close_all remote_raises w = (w', Some e)) :
  (exists n, remote_raises n = Some e
             /\ (length (net w) <= n < length (net w'))%nat)
  /\ tm_instances w' = [] /\ tm_global_lock w' = None
  /\ facade_instances w' = facade_instances w
  /\ facade_lock w' = facade_lock w
  /\ (forall key m t0,
        dict.get key (tm_instances w) = Some m ->
        token_at w' m = Some t0 -> t0 = None)
  /\ (exists logouts closes,
        net w' = net w ++ logouts ++ closes
        /\ Forall is_logout_event logouts
        /\ Forall is_close_event closes
        /\ closes <> []
        /\ (forall key m tok,
              dict.get key (tm_instances w) = Some m ->
              token_at w m = Some (Some tok) -> LogoutGet tok ∈ logouts))
  /\ (forall cred f,
        dict.get (ApiCredentials.key_id cred) (facade_instances w) = Some f ->
        (Facade_get_instance cred w').2 = Some f
        /\ facades (Facade_get_instance cred w').1 = facades w).
Proof.
  unfold Facade_close_all in Hraise.
  destruct (logout_each_spec (dict.values (tm_instances w)) w)
    as (lo & N1 & F1 & L1 & Len1 & Fa1 & I1 & FI1 & T1).
  set (w1 := TokenManager_close_all w) in *.
  destruct (close_each_spec remote_raises (dict.values (facade_instances w1)) w1)
    as (cl & N2 & F2 & T2 & Fa2 & I2 & G2 & _ & _).
  destruct (close_each_frame (dict.values (facade_instances w1)) w1)
    as (FI & FL & _ & _ & _ & X).
  destruct (close_each remote_raises _ w1) as [w2 [e'|]] eqn:E; [|done].
  injection Hraise as <- <-. cbn [fst snd] in *.
  destruct (X e' eq_refl) as (n & Hn & Hr).
  assert (Hnet1 : net w1 = net w ++ lo).
  { unfold w1, TokenManager_close_all. simpl. exact N1. }
  assert (HFI : facade_instances w2 = facade_instances w).
  { rewrite FI. unfold w1, TokenManager_close_all. simpl. exact FI1. }
  split; [|split; [|split; [|split; [|split; [|split; [|split]]]]]].
  - exists n. split; [done|]. rewrite Hnet1 in Hr. rewrite length_app in Hr. lia.
  - by rewrite I2.
  - by rewrite G2.
  - exact HFI.
  - rewrite FL. unfold w1, TokenManager_close_all. simpl.
    apply facade_lock_logout_each.
  - intros key m t0 Hk. unfold token_at. rewrite T2.
    apply (T1 m). by eapply dict_get_values.
  - exists lo, cl. rewrite N2, Hnet1, <- app_assoc.
    split; [done|]. split; [done|]. split; [done|]. split.
    + intros ->. rewrite N2, app_nil_r in Hr. lia.
    + intros key m tok Hk. apply L1. by eapply dict_get_values.
  - intros cred f Hg. rewrite <- HFI in Hg.
    destruct (Facade_get_instance_hit cred w2 f Hg) as (A & B & _).
    split; [done|]. rewrite B, Fa2. unfold w1, TokenManager_close_all. simpl.
    exact Fa1.
Qed.

End RegistryRuns.

Lemma one_instance_per_key_witness :
  let cs := [tm_get_instance 0 "user" "pass" "host:user";
             facade_get_instance (ApiCredentials.mk "host" "user" "pass");
             tm_get_instance 0 "other" "pass" "host:other";
             facade_get_instance (ApiCredentials.mk "host" "other" "pass");
             tm_get_instance 5 "user" "changed" "host:user"] in
  let w := run (fun p => p) (fun _ => None) cs Registry.empty_world in
  dict.get "host:user" (Registry.tm_instances w) = Some 0%nat
  /\ dict.get "host:other" (Registry.tm_instances w) = Some 1%nat
  /\ forall k1 k2 m1 m2,
       dict.get k1 (Registry.tm_instances w) = Some m1 ->
       dict.get k2 (Registry.tm_instances w) = Some m2 -> (m1 = m2 <-> k1 = k2).
Proof.
  intros cs w.
  assert (Hwf : registry_wf Registry.empty_world) by exact registry_wf_empty.
  destruct (one_instance_per_key (fun p => p) (fun _ => None)
              Registry.empty_world cs Hwf) as (A & _).
  split; [vm_compute; reflexivity|]. split; [vm_compute; reflexivity|]. exact A.
Defined.

Lemma tm_close_all_logs_out_once_witness :
  let tm_a := TokenManager.mk 0 "user" "hash" "host:user" (Some "session-a") 3
                Lock.new (Event.set_flag Event.new) in
  let tm_b := TokenManager.mk 1 "other" "hash" "host:other" None 0
                Lock.new (Event.set_flag Event.new) in
  let tm_c := TokenManager.mk 2 "third" "hash" "host:third" (Some "session-c") 1
                Lock.new (Event.set_flag Event.new) in
  let w := Registry.mk_world
             [Registry.mk_client "host" [("iikoCookieAuth", "session-a")] false;
              Registry.mk_client "host" [] false;
              Registry.mk_client "host" [("iikoCookieAuth", "session-c")] false]
             [tm_a; tm_b; tm_c] []
             [("host:user", 0%nat); ("host:other", 1%nat); ("host:third", 2%nat)]
             (Some Lock.new) [] None [] in
  Registry.net (Registry.TokenManager_close_all w)
  = [Registry.LogoutGet "session-a"; Registry.LogoutGet "session-c"]
  /\ Registry.TokenManager_close_all (Registry.TokenManager_close_all w)
     = Registry.TokenManager_close_all w.
Proof.
  intros tm_a tm_b tm_c w.
  assert (Hwf : registry_wf w).
  { split; simpl.
    - apply NoDup_ListNoDup. repeat constructor; simpl; intuition discriminate.
    - intros key m Hin.
      repeat (apply elem_of_cons in Hin as [[= -> ->]|Hin];
              [eexists; split; reflexivity|]).
      by apply elem_of_nil in Hin.
    - apply NoDup_nil_2.
    - intros key f Hin. by apply elem_of_nil in Hin.
    - intros f fac Hf. done.
    - intros f g fac gac Hf. done. }
  destruct (tm_close_all_logs_out_once w Hwf) as (A & _ & C).
  split; [exact A | exact C].
Defined.

Lemma close_all_interrupted_witness :
  let tm0 := TokenManager.mk 0 "user" "hash" "host:user" (Some "session") 3
               Lock.new (Event.set_flag Event.new) in
  let cred := ApiCredentials.mk "host" "user" "pass" in
  let w := Registry.mk_world
             [Registry.mk_client "host" [("iikoCookieAuth", "session")] false]
             [tm0] [Registry.mk_facade cred 0 (Some 0%nat)]
             [("host:user", 0%nat)] (Some Lock.new)
             [("host:user", 0%nat)] (Some Lock.new) [] in
  let raises := fun n : nat => if (n =? 1)%nat then Some network_error else None in
  let w' := (Registry.Facade_close_all raises w).1 in
  Registry.tm_instances w' = []
  /\ Registry.facade_instances w' = [("host:user", 0%nat)]
  /\ (Registry.Facade_get_instance cred w').2 = Some 0%nat.
Proof.
  intros tm0 cred w raises w'.
  assert (Hraise : Registry.Facade_close_all raises w = (w', Some network_error))
    by (vm_compute; reflexivity).
  assert (Hreg : dict.get (ApiCredentials.key_id cred)
                   (Registry.facade_instances w) = Some 0%nat)
    by (vm_compute; reflexivity).
  destruct (close_all_interrupted raises w w' network_error Hraise)
    as (_ & A & _ & B & _ & _ & _ & C).
  split; [exact A|]. split; [exact B|].
  exact (proj1 (C cred 0%nat Hreg)).
Defined.
